(** * Native Python environment discovery

    A shallow embedding of the native environment-discovery subsystem:

    - the record normalizer [toPythonEnvInfo] and the environment collection
      [NativePythonEnvironments] (addEnv, resolveEnv, getEnvs, triggerRefresh);
    - the finder [NativeGlobalPythonFinderImpl]: the [environment] notification
      handler and the completion tracking of [doRefresh], and [configure].

    JavaScript arrays are objects with identity: they live in a store and
    are named by references, so that aliasing is visible.  Asynchronous
    code is cut at its suspension points: every synchronous segment is one
    atomic operation of a transition system, and a run is a list of such
    operations chosen by the event loop and by the worker process. *)

From Stdlib Require Import ZArith List String Ascii Bool Lia.
From stdpp Require Import base list strings option pretty gmap.

(** ** JavaScript strings used as conditions *)

(** [if (s)] for a string: the empty string is falsy. *)
Definition nonempty (s : string) : bool := negb (String.eqb s "").

(** [if (s)] for [s?: string]: [undefined] and the empty string are falsy. *)
Definition truthy (s : option string) : bool :=
  match s with
  | Some s => nonempty s
  | None => false
  end.

(** [String.prototype.trim], on the whitespace of the ASCII range. *)
Definition is_space (a : ascii) : bool :=
  let n := nat_of_ascii a in
  Nat.eqb n 32 || (Nat.leb 9 n && Nat.leb n 13).

Fixpoint trim_start (s : string) : string :=
  match s with
  | String a s' => if is_space a then trim_start s' else s
  | EmptyString => EmptyString
  end.

Definition trim (s : string) : string :=
  String.rev (trim_start (String.rev (trim_start s))).

(** ** Data model *)

Module PythonEnvKind.
Inductive t :=
| Unknown | System | MicrosoftStore | Pyenv | Poetry | Hatch | Pixi
| ActiveState | Custom | OtherGlobal | VirtualEnv | Venv
| VirtualEnvWrapper | Pipenv | Conda | OtherVirtual.

Definition eqb (a b : t) : bool :=
  match a, b with
  | Unknown, Unknown | System, System | MicrosoftStore, MicrosoftStore
  | Pyenv, Pyenv | Poetry, Poetry | Hatch, Hatch | Pixi, Pixi
  | ActiveState, ActiveState | Custom, Custom | OtherGlobal, OtherGlobal
  | VirtualEnv, VirtualEnv | Venv, Venv
  | VirtualEnvWrapper, VirtualEnvWrapper | Pipenv, Pipenv
  | Conda, Conda | OtherVirtual, OtherVirtual => true
  | _, _ => false
  end.
End PythonEnvKind.

Module PythonEnvType.
Inductive t := Virtual | Conda.
End PythonEnvType.

Module Architecture.
Inductive t := Unknown | x86 | x64.
End Architecture.

Module FileChangeType.
Inductive t := Changed | Created | Deleted.
End FileChangeType.

Module ProgressReportStage.
Inductive t := idle | discoveryStarted | allPathsDiscovered | discoveryFinished.

Definition eqb (a b : t) : bool :=
  match a, b with
  | idle, idle | discoveryStarted, discoveryStarted
  | allPathsDiscovered, allPathsDiscovered
  | discoveryFinished, discoveryFinished => true
  | _, _ => false
  end.
End ProgressReportStage.

(** The manager variant of a worker record. *)
Record NativeEnvManagerInfo := {
  tool : string;
  manager_executable : string;
  manager_version : option string;
}.

(** The environment variant of a worker record.  Every field is optional;
    [kind] is the raw tag as it arrives on the wire. *)
Module NativeEnvInfo.
Record t := mk {
  displayName : option string;
  name : option string;
  executable : option string;
  kind : option string;
  version : option string;
  prefix : option string;
  manager : option NativeEnvManagerInfo;
  project : option string;
  arch : option string;
  symlinks : option (list string);
}.
End NativeEnvInfo.

(** [major], [minor], [micro] are integers, [-1] when unknown. *)
Record PythonVersion := {
  sysVersion : option string;
  major : Z;
  minor : Z;
  micro : Z;
}.

Record PythonExecutableInfo := {
  filename : string;
  sysPrefix : string;
  ctime : Z;
  mtime : Z;
}.

Module PythonEnvInfo.
Record t := mk {
  name : string;
  location : string;
  kind : PythonEnvKind.t;
  executable : PythonExecutableInfo;
  version : PythonVersion;
  arch : Architecture.t;
  distro_org : string;
  source : list string;
  detailedDisplayName : string;
  display : string;
  type : option PythonEnvType.t;
}.
End PythonEnvInfo.

(** The identity key of a collection entry: [item.executable.filename]. *)
Definition path_of (item : PythonEnvInfo.t) : string :=
  filename (PythonEnvInfo.executable item).

Record PythonEnvCollectionChangedEvent := {
  type : FileChangeType.t;
  old : option PythonEnvInfo.t;
  new : option PythonEnvInfo.t;
}.

(** ** What the module imports

    [parseVersion] lives in [base/info/pythonVersion]; [path.join],
    [path.basename] and [process.platform] come from the runtime. *)
Class Host := {
  parseVersion : string -> PythonVersion;
  path_join : string -> string -> string;
  path_basename : string -> string;
  win32 : bool;
}.

(** ** Logging

    [traceError], [traceLog] and the output channel only append lines. *)
Inductive LogEntry :=
| InvalidEnvironment (native : NativeEnvInfo.t)
| UnknownCategory (category : string)
| FailedToProcess (native : NativeEnvInfo.t)
| RefreshStarted
| RefreshFinished
| ResolveError (data : NativeEnvInfo.t)
| Discovered (data : NativeEnvInfo.t)
| Resolved (environment : NativeEnvInfo.t).

(** A computation that writes log lines and returns a value. *)
Definition Traced (A : Type) : Type := (A * list LogEntry)%type.

Definition pure {A} (a : A) : Traced A := (a, []).

Definition tell (entry : LogEntry) : Traced unit := (tt, [entry]).

Definition andThen {A B} (k : A -> Traced B) (c : Traced A) : Traced B :=
  let '(a, l1) := c in
  let '(b, l2) := k a in
  (b, l1 ++ l2).

#[export] Instance Traced_ret : MRet Traced := @pure.
#[export] Instance Traced_bind : MBind Traced := @andThen.

(** ** Record normalizer *)

Section Normalizer.
Context `{Host}.

Definition makeExecutablePath (prefix : option string) : string :=
  match prefix with
  | Some p =>
      if nonempty p
      then (if win32 then path_join p "python.exe" else path_join p "python")
      else (if win32 then "python.exe" else "python")
  | None => if win32 then "python.exe" else "python"
  end.

Definition toArch (a : option string) : Architecture.t :=
  match a with
  | Some s =>
      if String.eqb s "x86" then Architecture.x86
      else if String.eqb s "x64" then Architecture.x64
      else Architecture.Unknown
  | None => Architecture.Unknown
  end.

Definition getLocation (nativeEnv : NativeEnvInfo.t) : string :=
  if truthy (NativeEnvInfo.prefix nativeEnv)
  then default "" (NativeEnvInfo.prefix nativeEnv)
  else if truthy (NativeEnvInfo.executable nativeEnv)
  then default "" (NativeEnvInfo.executable nativeEnv)
  else "".

Definition kindToShortString (kind : PythonEnvKind.t) : option string :=
  match kind with
  | PythonEnvKind.Poetry => Some "poetry"
  | PythonEnvKind.Pyenv => Some "pyenv"
  | PythonEnvKind.VirtualEnv
  | PythonEnvKind.Venv
  | PythonEnvKind.VirtualEnvWrapper
  | PythonEnvKind.OtherVirtual => Some "venv"
  | PythonEnvKind.Pipenv => Some "pipenv"
  | PythonEnvKind.Conda => Some "conda"
  | PythonEnvKind.ActiveState => Some "active-state"
  | PythonEnvKind.MicrosoftStore => Some "Microsoft Store"
  | PythonEnvKind.Hatch => Some "hatch"
  | PythonEnvKind.Pixi => Some "pixi"
  | PythonEnvKind.System
  | PythonEnvKind.Unknown
  | PythonEnvKind.OtherGlobal
  | PythonEnvKind.Custom => None
  end.

Definition toShortVersionString (version : PythonVersion) : string :=
  trim (pretty (major version) +:+ "." +:+ pretty (minor version)
        +:+ "." +:+ pretty (micro version)).

Definition getDisplayName (version : PythonVersion) (kind : PythonEnvKind.t)
    (arch : Architecture.t) (name : string) : string :=
  let versionStr := toShortVersionString version in
  let kindStr := kindToShortString kind in
  match arch with
  | Architecture.x86 =>
      match kindStr with
      | Some k =>
          if nonempty name
          then "Python " +:+ versionStr +:+ " 32-bit ('" +:+ name +:+ "')"
          else "Python " +:+ versionStr +:+ " 32-bit (" +:+ k +:+ ")"
      | None =>
          if nonempty name
          then "Python " +:+ versionStr +:+ " 32-bit ('" +:+ name +:+ "')"
          else "Python " +:+ versionStr +:+ " 32-bit"
      end
  | _ =>
      match kindStr with
      | Some k =>
          if nonempty name
          then "Python " +:+ versionStr +:+ " ('" +:+ name +:+ "')"
          else "Python " +:+ versionStr +:+ " (" +:+ k +:+ ")"
      | None =>
          if nonempty name
          then "Python " +:+ versionStr +:+ " ('" +:+ name +:+ "')"
          else "Python " +:+ versionStr
      end
  end.

Definition validEnv (nativeEnv : NativeEnvInfo.t) : Traced bool :=
  match NativeEnvInfo.prefix nativeEnv, NativeEnvInfo.executable nativeEnv with
  | None, None =>
      _ ← tell (InvalidEnvironment nativeEnv);
      pure false
  | _, _ => pure true
  end.

Definition getEnvType (kind : PythonEnvKind.t) : option PythonEnvType.t :=
  match kind with
  | PythonEnvKind.Poetry
  | PythonEnvKind.Pyenv
  | PythonEnvKind.VirtualEnv
  | PythonEnvKind.Venv
  | PythonEnvKind.VirtualEnvWrapper
  | PythonEnvKind.OtherVirtual
  | PythonEnvKind.Pipenv
  | PythonEnvKind.ActiveState
  | PythonEnvKind.Hatch
  | PythonEnvKind.Pixi => Some PythonEnvType.Virtual
  | PythonEnvKind.Conda => Some PythonEnvType.Conda
  | PythonEnvKind.System
  | PythonEnvKind.Unknown
  | PythonEnvKind.OtherGlobal
  | PythonEnvKind.Custom
  | PythonEnvKind.MicrosoftStore => None
  end.

Definition getName (nativeEnv : NativeEnvInfo.t) (kind : PythonEnvKind.t) : string :=
  if truthy (NativeEnvInfo.name nativeEnv)
  then default "" (NativeEnvInfo.name nativeEnv)
  else
    match getEnvType kind with
    | Some _ =>
        if truthy (NativeEnvInfo.prefix nativeEnv)
        then path_basename (default "" (NativeEnvInfo.prefix nativeEnv))
        else ""
    | None => ""
    end.

(** The table of [categoryToKind], in the order the source lists it. *)
Definition mapping : list (string * PythonEnvKind.t) :=
  [ ("Conda", PythonEnvKind.Conda);
    ("GlobalPaths", PythonEnvKind.OtherGlobal);
    ("Pyenv", PythonEnvKind.Pyenv);
    ("PyenvVirtualEnv", PythonEnvKind.Pyenv);
    ("Pipenv", PythonEnvKind.Pipenv);
    ("Poetry", PythonEnvKind.Poetry);
    ("VirtualEnv", PythonEnvKind.VirtualEnv);
    ("VirtualEnvWrapper", PythonEnvKind.VirtualEnvWrapper);
    ("Venv", PythonEnvKind.Venv);
    ("WindowsRegistry", PythonEnvKind.System);
    ("WindowsStore", PythonEnvKind.MicrosoftStore);
    ("Homebrew", PythonEnvKind.System);
    ("LinuxGlobal", PythonEnvKind.System);
    ("MacCommandLineTools", PythonEnvKind.System);
    ("MacPythonOrg", PythonEnvKind.System);
    ("MacXCode", PythonEnvKind.System) ].

Definition mapping_get (category : string) : option PythonEnvKind.t :=
  snd <$> find (fun entry => String.eqb (fst entry) category) mapping.

(** Every member of [PythonEnvKind] is a non-empty string, so the test
    [if (kind)] on the table's answer only asks whether there is one. *)
Definition categoryToKind (category : option string) : Traced PythonEnvKind.t :=
  match category with
  | Some c =>
      if nonempty c then
        match mapping_get c with
        | Some kind => pure kind
        | None =>
            _ ← tell (UnknownCategory c);
            pure PythonEnvKind.Unknown
        end
      else pure PythonEnvKind.Unknown
  | None => pure PythonEnvKind.Unknown
  end.

Definition toPythonEnvInfo (nativeEnv : NativeEnvInfo.t)
    : Traced (option PythonEnvInfo.t) :=
  ok ← validEnv nativeEnv;
  if negb ok then pure None
  else
    kind ← categoryToKind (NativeEnvInfo.kind nativeEnv);
    let arch := toArch (NativeEnvInfo.arch nativeEnv) in
    let version := parseVersion (default "" (NativeEnvInfo.version nativeEnv)) in
    let name := getName nativeEnv kind in
    let displayName :=
      if truthy (NativeEnvInfo.version nativeEnv)
      then getDisplayName version kind arch name
      else default "Python" (NativeEnvInfo.displayName nativeEnv) in
    pure (Some
      {| PythonEnvInfo.name := name;
         PythonEnvInfo.location := getLocation nativeEnv;
         PythonEnvInfo.kind := kind;
         PythonEnvInfo.executable :=
           {| filename :=
                match NativeEnvInfo.executable nativeEnv with
                | Some e => e
                | None => makeExecutablePath (NativeEnvInfo.prefix nativeEnv)
                end;
              sysPrefix := default "" (NativeEnvInfo.prefix nativeEnv);
              ctime := (-1)%Z;
              mtime := (-1)%Z |};
         PythonEnvInfo.version :=
           {| sysVersion := NativeEnvInfo.version nativeEnv;
              major := major version;
              minor := minor version;
              micro := micro version |};
         PythonEnvInfo.arch := arch;
         PythonEnvInfo.distro_org := "";
         PythonEnvInfo.source := [];
         PythonEnvInfo.detailedDisplayName := displayName;
         PythonEnvInfo.display := displayName;
         PythonEnvInfo.type := getEnvType kind |}).

End Normalizer.

(** ** Environment collection

    [_envs] holds a reference to an array in the store.  [push] updates the
    array the reference names; [filter] allocates a new array. *)

(** How an awaited request settles. *)
Inductive Outcome (A : Type) :=
| Returned (a : A)
| Threw.
Arguments Returned {A} a.
Arguments Threw {A}.

Record Collection := {
  arrays : gmap nat (list PythonEnvInfo.t);
  next_array : nat;
  _envs : nat;
  fired : list PythonEnvCollectionChangedEvent;
  logged : list LogEntry;
  resolveEnv_cache : list (option string * (Z * Outcome (option PythonEnvInfo.t)));
}.

(** The array a reference names. *)
Definition deref (c : Collection) (r : nat) : list PythonEnvInfo.t :=
  default [] (arrays c !! r).

(** The current contents of [this._envs]. *)
Definition envs (c : Collection) : list PythonEnvInfo.t := deref c (_envs c).

(** [private _envs: PythonEnvInfo[] = []], no event fired, nothing cached. *)
Definition new_collection : Collection :=
  {| arrays := {[ 0 := [] ]};
     next_array := 1;
     _envs := 0;
     fired := [];
     logged := [];
     resolveEnv_cache := [] |}.

Definition trace (lines : list LogEntry) (c : Collection) : Collection :=
  {| arrays := arrays c;
     next_array := next_array c;
     _envs := _envs c;
     fired := fired c;
     logged := logged c ++ lines;
     resolveEnv_cache := resolveEnv_cache c |}.

(** [(item) => item.executable.filename === p] *)
Definition has_path (p : string) (item : PythonEnvInfo.t) : bool :=
  String.eqb (path_of item) p.

(** [(item) => item.executable.filename !== p] *)
Definition other_path (p : string) (item : PythonEnvInfo.t) : bool :=
  negb (String.eqb (path_of item) p).

(** [this._envs.push(info); this._onChanged.fire({ type: Created, new: info })] *)
Definition push_created (info : PythonEnvInfo.t) (c : Collection) : Collection :=
  {| arrays := <[ _envs c := envs c ++ [info] ]> (arrays c);
     next_array := next_array c;
     _envs := _envs c;
     fired := fired c ++
       [ {| type := FileChangeType.Created; old := None; new := Some info |} ];
     logged := logged c;
     resolveEnv_cache := resolveEnv_cache c |}.

(** [this._envs = this._envs.filter(...); this._envs.push(info);
     this._onChanged.fire({ type: Changed, old, new: info })] *)
Definition filter_push_changed (old info : PythonEnvInfo.t) (c : Collection)
    : Collection :=
  {| arrays :=
       <[ next_array c :=
            List.filter (other_path (path_of info)) (envs c) ++ [info] ]> (arrays c);
     next_array := S (next_array c);
     _envs := next_array c;
     fired := fired c ++
       [ {| type := FileChangeType.Changed; old := Some old; new := Some info |} ];
     logged := logged c;
     resolveEnv_cache := resolveEnv_cache c |}.

(** [getEnvs] returns [this._envs]: the reference itself. *)
Definition getEnvs (c : Collection) : nat := _envs c.

(** What a holder of a reference can do to the array: [array.push(x)], and
    more generally any in-place change of its contents. *)
Definition array_set (r : nat) (contents : list PythonEnvInfo.t) (c : Collection)
    : Collection :=
  {| arrays := <[ r := contents ]> (arrays c);
     next_array := next_array c;
     _envs := _envs c;
     fired := fired c;
     logged := logged c;
     resolveEnv_cache := resolveEnv_cache c |}.

Definition array_push (r : nat) (x : PythonEnvInfo.t) (c : Collection) : Collection :=
  array_set r (deref c r ++ [x]) c.

Section CollectionOperations.
Context `{Host}.

Definition addEnv (native : NativeEnvInfo.t) (c : Collection) : Collection :=
  let '(converted, lines) := toPythonEnvInfo native in
  let c := trace lines c in
  match converted with
  | None => c
  | Some info =>
      match find (has_path (path_of info)) (envs c) with
      | Some old => filter_push_changed old info c
      | None => push_created info c
      end
  end.

(** The body of [resolveEnv], resumed in collection state [c] when the
    awaited [finder.resolve(envPath)] has settled with [reply].  A falsy
    reply is [Returned None]. *)
Definition resolveEnv (envPath : option string)
    (reply : Outcome (option NativeEnvInfo.t)) (c : Collection)
    : Outcome (option PythonEnvInfo.t) * Collection :=
  match envPath with
  | None => (Returned None, c)
  | Some _ =>
      match reply with
      | Threw => (Threw, c)
      | Returned None => (Returned None, c)
      | Returned (Some native) =>
          let '(converted, lines) := toPythonEnvInfo native in
          let c := trace lines c in
          match converted with
          | Some env =>
              match find (has_path (path_of env)) (envs c) with
              | Some old => (Returned (Some env), filter_push_changed old env c)
              | None => (Returned (Some env), c)
              end
          | None => (Returned None, c)
          end
      end
  end.

(** Modelled from the spec: the [cache(30_000, true)] decorator of
    common/utils/decorators is not among the sources.  The spec has
    [resolveEnv] cached for 30 seconds per distinct path: a repeated call
    for the same path within the window returns the previous outcome
    without hitting the worker.  [now] is the clock in milliseconds. *)
Definition cache_lookup (now : Z) (envPath : option string) (c : Collection)
    : option (Outcome (option PythonEnvInfo.t)) :=
  match find (fun entry => bool_decide (fst entry = envPath)) (resolveEnv_cache c) with
  | Some (_, (expiry, outcome)) =>
      if (now <? expiry)%Z then Some outcome else None
  | None => None
  end.

Definition cache_store (now : Z) (envPath : option string)
    (outcome : Outcome (option PythonEnvInfo.t)) (c : Collection) : Collection :=
  {| arrays := arrays c;
     next_array := next_array c;
     _envs := _envs c;
     fired := fired c;
     logged := logged c;
     resolveEnv_cache :=
       (envPath, ((now + 30000)%Z, outcome)) ::
       List.filter (fun entry => negb (bool_decide (fst entry = envPath)))
         (resolveEnv_cache c) |}.

Definition resolveEnv_cached (now : Z) (envPath : option string)
    (reply : Outcome (option NativeEnvInfo.t)) (c : Collection)
    : Outcome (option PythonEnvInfo.t) * Collection :=
  match cache_lookup now envPath c with
  | Some outcome => (outcome, c)
  | None =>
      let '(outcome, c) := resolveEnv envPath reply c in
      (outcome, cache_store now envPath outcome c)
  end.

(** The operations callers run on the collection, one list entry per call. *)
Inductive Op :=
| AddEnv (native : NativeEnvInfo.t)
| ResolveEnv (now : Z) (envPath : option string)
    (reply : Outcome (option NativeEnvInfo.t)).

Definition apply_op (c : Collection) (op : Op) : Collection :=
  match op with
  | AddEnv native => addEnv native c
  | ResolveEnv now envPath reply => snd (resolveEnv_cached now envPath reply c)
  end.

Definition run (ops : list Op) (c : Collection) : Collection :=
  fold_left apply_op ops c.

End CollectionOperations.

(** The record most recently announced for path [p] in an event log. *)
Definition most_recent (events : list PythonEnvCollectionChangedEvent) (p : string)
    : option PythonEnvInfo.t :=
  last (omap (fun ev =>
          match new ev with
          | Some info => if has_path p info then Some info else None
          | None => None
          end) events).

(** ** The finder: [configure]

    [JSON.stringify] on the shapes [configure] compares: an options object
    whose keys come in the order of the object literal, arrays of strings,
    and optional strings (a key whose value is [undefined] is left out). *)

Record ConfigurationOptions := {
  workspaceDirectories : list string;
  environmentDirectories : list string;
  condaExecutable : option string;
  poetryExecutable : option string;
}.

Definition dquote : ascii := "034"%char.
Definition backslash : ascii := "092"%char.

Definition hex_digit (n : nat) : ascii :=
  if Nat.ltb n 10 then ascii_of_nat (48 + n) else ascii_of_nat (87 + n).

Definition JSON_escape (a : ascii) : string :=
  let n := nat_of_ascii a in
  if Ascii.eqb a dquote then String backslash (String dquote "")
  else if Ascii.eqb a backslash then String backslash (String backslash "")
  else if Nat.eqb n 8 then String backslash "b"
  else if Nat.eqb n 9 then String backslash "t"
  else if Nat.eqb n 10 then String backslash "n"
  else if Nat.eqb n 12 then String backslash "f"
  else if Nat.eqb n 13 then String backslash "r"
  else if Nat.ltb n 32
  then String backslash
         ("u00" +:+ String (hex_digit (n / 16)) (String (hex_digit (n mod 16)) ""))
  else String a "".

Fixpoint JSON_escape_all (s : string) : string :=
  match s with
  | EmptyString => EmptyString
  | String a s' => JSON_escape a +:+ JSON_escape_all s'
  end.

Definition JSON_string (s : string) : string :=
  String dquote (JSON_escape_all s +:+ String dquote "").

Fixpoint JSON_elements (l : list string) : string :=
  match l with
  | [] => ""
  | [s] => JSON_string s
  | s :: rest => JSON_string s +:+ "," +:+ JSON_elements rest
  end.

Definition JSON_array (l : list string) : string :=
  "[" +:+ JSON_elements l +:+ "]".

Definition JSON_optional_member (key : string) (value : option string) : string :=
  match value with
  | Some v => "," +:+ JSON_string key +:+ ":" +:+ JSON_string v
  | None => ""
  end.

Definition JSON_stringify (options : ConfigurationOptions) : string :=
  "{" +:+ JSON_string "workspaceDirectories" +:+ ":"
      +:+ JSON_array (workspaceDirectories options)
      +:+ "," +:+ JSON_string "environmentDirectories" +:+ ":"
      +:+ JSON_array (environmentDirectories options)
      +:+ JSON_optional_member "condaExecutable" (condaExecutable options)
      +:+ JSON_optional_member "poetryExecutable" (poetryExecutable options)
      +:+ "}".

(** [JSON.stringify(this.lastConfiguration || {})] *)
Definition JSON_stringify_last (lastConfiguration : option ConfigurationOptions)
    : string :=
  match lastConfiguration with
  | Some options => JSON_stringify options
  | None => "{}"
  end.

(** Requests sent over the connection to the worker. *)
Inductive Request :=
| ConfigureRequest (options : ConfigurationOptions)
| RefreshRequest
| ResolveRequest (executable : string)
| CondaInfoRequest.

Definition is_configure (q : Request) : bool :=
  match q with ConfigureRequest _ => true | _ => false end.

Record Connection := {
  lastConfiguration : option ConfigurationOptions;
  sent : list Request;
}.

(** A finder before its first [configure]. *)
Definition new_connection : Connection :=
  {| lastConfiguration := None; sent := [] |}.

(** [configure], with [options] the snapshot it reads from the settings.
    [lastConfiguration] is assigned before the request is awaited, and a
    failed request is only logged. *)
Definition configure (options : ConfigurationOptions) (conn : Connection)
    : Connection :=
  if String.eqb (JSON_stringify options)
       (JSON_stringify_last (lastConfiguration conn))
  then conn
  else {| lastConfiguration := Some options;
          sent := sent conn ++ [ConfigureRequest options] |}.

(** ** The finder: [doRefresh]

    One [doRefresh] call owns [pendingPromises], the [completed] deferred
    and the [discovered] emitter.  Promises are named by their index in
    [promises]. *)

Inductive Settlement := Pending | Fulfilled | Rejected.

Definition is_fulfilled (s : Settlement) : bool :=
  match s with Fulfilled => true | _ => false end.

Definition is_rejected (s : Settlement) : bool :=
  match s with Rejected => true | _ => false end.

(** What a tracked promise waits for. *)
Inductive Tracked :=
| TrackedRefresh
| TrackedResolve (data : NativeEnvInfo.t).

(** A record as the finder hands it on. *)
Inductive NativeRecord :=
| EnvironmentRecord (env : NativeEnvInfo.t)
| ManagerRecord (m : NativeEnvManagerInfo).

Record RefreshRun := {
  promises : list (Tracked * Settlement);
  pendingPromises : list nat;
  (** each [Promise.all(pendingPromises).then(...)] not yet run: the
      promises it took from the array, and [initialCount] *)
  waiting : list (list nat * nat);
  (** [setTimeout(notifyUponCompletion, 0)] not yet run *)
  timers : nat;
  completed : bool;
  disposed : bool;
  discovered : list NativeRecord;
  requests : list Request;
  channel : list LogEntry;
}.

Definition settlement_of (r : RefreshRun) (p : nat) : Settlement :=
  match promises r !! p with
  | Some (_, s) => s
  | None => Pending
  end.

Definition notifyUponCompletion (r : RefreshRun) : RefreshRun :=
  {| promises := promises r;
     pendingPromises := pendingPromises r;
     waiting := waiting r ++ [(pendingPromises r, length (pendingPromises r))];
     timers := timers r;
     completed := completed r;
     disposed := disposed r;
     discovered := discovered r;
     requests := requests r;
     channel := channel r |}.

(** Creates the promise for [what] and tracks it:
    [pendingPromises.push(promise); notifyUponCompletion()]. *)
Definition trackPromiseAndNotifyOnCompletion (what : Tracked) (r : RefreshRun)
    : RefreshRun :=
  notifyUponCompletion
    {| promises := promises r ++ [(what, Pending)];
       pendingPromises := pendingPromises r ++ [length (promises r)];
       waiting := waiting r;
       timers := timers r;
       completed := completed r;
       disposed := disposed r;
       discovered := discovered r;
       requests := requests r;
       channel := channel r |}.

Definition send (q : Request) (r : RefreshRun) : RefreshRun :=
  {| promises := promises r;
     pendingPromises := pendingPromises r;
     waiting := waiting r;
     timers := timers r;
     completed := completed r;
     disposed := disposed r;
     discovered := discovered r;
     requests := requests r ++ [q];
     channel := channel r |}.

Definition info (entry : LogEntry) (r : RefreshRun) : RefreshRun :=
  {| promises := promises r;
     pendingPromises := pendingPromises r;
     waiting := waiting r;
     timers := timers r;
     completed := completed r;
     disposed := disposed r;
     discovered := discovered r;
     requests := requests r;
     channel := channel r ++ [entry] |}.

(** [discovered.fire(data)]; a disposed emitter delivers nothing. *)
Definition fire (data : NativeRecord) (r : RefreshRun) : RefreshRun :=
  if disposed r then r
  else
    {| promises := promises r;
       pendingPromises := pendingPromises r;
       waiting := waiting r;
       timers := timers r;
       completed := completed r;
       disposed := disposed r;
       discovered := discovered r ++ [data];
       requests := requests r;
       channel := channel r |}.

(** [data.executable && (!data.version || !data.prefix)] *)
Definition needs_resolve (data : NativeEnvInfo.t) : bool :=
  truthy (NativeEnvInfo.executable data)
  && (negb (truthy (NativeEnvInfo.version data))
      || negb (truthy (NativeEnvInfo.prefix data))).

(** The handler of the [environment] notification. *)
Definition on_environment (data : NativeEnvInfo.t) (r : RefreshRun) : RefreshRun :=
  if disposed r then r
  else
    let r := info (Discovered data) r in
    if needs_resolve data
    then trackPromiseAndNotifyOnCompletion (TrackedResolve data)
           (send (ResolveRequest (default "" (NativeEnvInfo.executable data))) r)
    else fire (EnvironmentRecord data) r.

(** The handler of the [manager] notification. *)
Definition on_manager (data : NativeEnvManagerInfo) (r : RefreshRun) : RefreshRun :=
  if disposed r then r else fire (ManagerRecord data) r.

(** The state [doRefresh] returns in: handlers registered, the refresh
    request tracked as the first pending promise. *)
Definition doRefresh : RefreshRun :=
  trackPromiseAndNotifyOnCompletion TrackedRefresh
    {| promises := [];
       pendingPromises := [];
       waiting := [];
       timers := 0;
       completed := false;
       disposed := false;
       discovered := [];
       requests := [RefreshRequest];
       channel := [] |}.

Definition set_settlement (p : nat) (s : Settlement) (r : RefreshRun) : RefreshRun :=
  {| promises :=
       match promises r !! p with
       | Some (what, _) => <[ p := (what, s) ]> (promises r)
       | None => promises r
       end;
     pendingPromises := pendingPromises r;
     waiting := waiting r;
     timers := timers r;
     completed := completed r;
     disposed := disposed r;
     discovered := discovered r;
     requests := requests r;
     channel := channel r |}.

(** The worker answers the request behind promise [p].  The [then] and
    [catch] attached to the request run, and the tracked promise fulfils:
    a failed request is logged, not passed on. *)
Definition settle (p : nat) (reply : Outcome NativeEnvInfo.t) (r : RefreshRun)
    : RefreshRun :=
  match promises r !! p with
  | Some (TrackedRefresh, Pending) => set_settlement p Fulfilled r
  | Some (TrackedResolve data, Pending) =>
      set_settlement p Fulfilled
        match reply with
        | Returned environment =>
            fire (EnvironmentRecord environment) (info (Resolved environment) r)
        | Threw => info (ResolveError data) r
        end
  | _ => r
  end.

Definition remove_waiting (k : nat) (r : RefreshRun) : RefreshRun :=
  {| promises := promises r;
     pendingPromises := pendingPromises r;
     waiting := delete k (waiting r);
     timers := timers r;
     completed := completed r;
     disposed := disposed r;
     discovered := discovered r;
     requests := requests r;
     channel := channel r |}.

Definition set_completed (r : RefreshRun) : RefreshRun :=
  {| promises := promises r;
     pendingPromises := pendingPromises r;
     waiting := waiting r;
     timers := timers r;
     completed := true;
     disposed := disposed r;
     discovered := discovered r;
     requests := requests r;
     channel := channel r |}.

Definition set_timers (n : nat) (r : RefreshRun) : RefreshRun :=
  {| promises := promises r;
     pendingPromises := pendingPromises r;
     waiting := waiting r;
     timers := n;
     completed := completed r;
     disposed := disposed r;
     discovered := discovered r;
     requests := requests r;
     channel := channel r |}.

Definition set_disposed (r : RefreshRun) : RefreshRun :=
  {| promises := promises r;
     pendingPromises := pendingPromises r;
     waiting := waiting r;
     timers := timers r;
     completed := completed r;
     disposed := true;
     discovered := discovered r;
     requests := requests r;
     channel := channel r |}.

(** The [k]-th outstanding [Promise.all(...)] settles.  It fulfils when
    every promise it took has fulfilled, and then its [then] runs; it
    rejects when one of them has rejected, and then [catch(noop)] runs. *)
Definition all_settled (k : nat) (r : RefreshRun) : RefreshRun :=
  match waiting r !! k with
  | Some (taken, initialCount) =>
      if forallb (fun p => is_fulfilled (settlement_of r p)) taken then
        if Nat.eqb initialCount (length (pendingPromises r))
        then set_completed (remove_waiting k r)
        else set_timers (S (timers r)) (remove_waiting k r)
      else if existsb (fun p => is_rejected (settlement_of r p)) taken
      then remove_waiting k r
      else r
  | None => r
  end.

(** A timer set by [setTimeout(notifyUponCompletion, 0)] expires. *)
Definition timeout (r : RefreshRun) : RefreshRun :=
  match timers r with
  | O => r
  | S n => notifyUponCompletion (set_timers n r)
  end.

(** [completed.promise.finally(() => disposable.dispose())] *)
Definition finally_dispose (r : RefreshRun) : RefreshRun :=
  if completed r then set_disposed r else r.

(** What can happen to a running [doRefresh], one entry per callback run. *)
Inductive RefreshEvent :=
| Environment (data : NativeEnvInfo.t)
| Manager (data : NativeEnvManagerInfo)
| Settle (p : nat) (reply : Outcome NativeEnvInfo.t)
| AllSettled (k : nat)
| Timeout
| Finally.

Definition refresh_step (r : RefreshRun) (ev : RefreshEvent) : RefreshRun :=
  match ev with
  | Environment data => on_environment data r
  | Manager data => on_manager data r
  | Settle p reply => settle p reply r
  | AllSettled k => all_settled k r
  | Timeout => timeout r
  | Finally => finally_dispose r
  end.

Definition refresh_run (evs : list RefreshEvent) (r : RefreshRun) : RefreshRun :=
  fold_left refresh_step evs r.

(** No tracked promise is still pending. *)
Definition none_outstanding (r : RefreshRun) : bool :=
  forallb (fun p => is_fulfilled (settlement_of r p)) (pendingPromises r).

(** ** The collection: [triggerRefresh]

    The finder seen from the collection: [refresh()] hands out the results
    of the refresh started by the constructor the first time it is called,
    and calls [doRefresh] every other time. *)

Record Discovery := {
  collection : Collection;
  refreshState : ProgressReportStage.t;
  _refreshPromise : option nat;
  (** the deferreds made by [createDeferred], named by their index *)
  deferreds : list Settlement;
  (** the stages fired on [_onProgress] *)
  progress : list ProgressReportStage.t;
  (** [setImmediate] callbacks not yet started *)
  immediates : nat;
  (** [for await] loops started and not yet finished *)
  iterating : nat;
  (** calls of [this.finder.refresh()] *)
  refresh_calls : nat;
  firstRefreshResults : bool;
  (** calls of [doRefresh], each of which sends one refresh request *)
  doRefresh_calls : nat;
  (** paths of the [this.finder.resolve(envPath)] calls not yet settled *)
  resolving : list string;
}.

(** [new NativePythonEnvironments(finder)] on a finder just constructed:
    the constructor of the finder has called [doRefresh] once. *)
Definition new_discovery : Discovery :=
  {| collection := new_collection;
     refreshState := ProgressReportStage.idle;
     _refreshPromise := None;
     deferreds := [];
     progress := [];
     immediates := 0;
     iterating := 0;
     refresh_calls := 0;
     firstRefreshResults := true;
     doRefresh_calls := 1;
     resolving := [] |}.

Definition with_collection (c : Collection) (d : Discovery) : Discovery :=
  {| collection := c;
     refreshState := refreshState d;
     _refreshPromise := _refreshPromise d;
     deferreds := deferreds d;
     progress := progress d;
     immediates := immediates d;
     iterating := iterating d;
     refresh_calls := refresh_calls d;
     firstRefreshResults := firstRefreshResults d;
     doRefresh_calls := doRefresh_calls d;
     resolving := resolving d |}.

Definition with_resolving (paths : list string) (d : Discovery) : Discovery :=
  {| collection := collection d;
     refreshState := refreshState d;
     _refreshPromise := _refreshPromise d;
     deferreds := deferreds d;
     progress := progress d;
     immediates := immediates d;
     iterating := iterating d;
     refresh_calls := refresh_calls d;
     firstRefreshResults := firstRefreshResults d;
     doRefresh_calls := doRefresh_calls d;
     resolving := paths |}.

(** [isNativeInfoEnvironment]: a record is taken for a manager when its
    [tool] is truthy. *)
Definition isNativeInfoEnvironment (info : NativeRecord) : bool :=
  match info with
  | EnvironmentRecord _ => true
  | ManagerRecord m => negb (nonempty (tool m))
  end.

(** The fields of a record read through the type [NativeEnvInfo]. *)
Definition as_NativeEnvInfo (info : NativeRecord) : NativeEnvInfo.t :=
  match info with
  | EnvironmentRecord env => env
  | ManagerRecord m =>
      {| NativeEnvInfo.displayName := None;
         NativeEnvInfo.name := None;
         NativeEnvInfo.executable := Some (manager_executable m);
         NativeEnvInfo.kind := None;
         NativeEnvInfo.version := manager_version m;
         NativeEnvInfo.prefix := None;
         NativeEnvInfo.manager := None;
         NativeEnvInfo.project := None;
         NativeEnvInfo.arch := None;
         NativeEnvInfo.symlinks := None |}
  end.

(** What the body of the refresh loop does with a record. *)
Inductive Disposition :=
| AddedAsIs
| ResolveFirst (envPath : string)
| Failed.

Section Refresh.
Context `{Host}.

Definition all_components_known (version : PythonVersion) : bool :=
  (0 <=? major version)%Z && (0 <=? minor version)%Z && (0 <=? micro version)%Z.

Definition some_component_unknown (version : PythonVersion) : bool :=
  (major version <? 0)%Z || (minor version <? 0)%Z || (micro version <? 0)%Z.

(** The tests of the loop body, in the order the source makes them. *)
Definition disposition (native : NativeEnvInfo.t) : Traced Disposition :=
  let envPath :=
    match NativeEnvInfo.executable native with
    | Some e => Some e
    | None => NativeEnvInfo.prefix native
    end in
  let version :=
    if truthy (NativeEnvInfo.version native)
    then Some (parseVersion (default "" (NativeEnvInfo.version native)))
    else None in
  kind ← categoryToKind (NativeEnvInfo.kind native);
  if PythonEnvKind.eqb kind PythonEnvKind.Conda
     && negb (truthy (NativeEnvInfo.executable native))
  then mret AddedAsIs
  else if truthy envPath
          && match version with
             | None => true
             | Some v => some_component_unknown v
             end
  then mret (ResolveFirst (default "" envPath))
  else if truthy envPath
          && match version with
             | None => false
             | Some v => all_components_known v
             end
  then mret AddedAsIs
  else
    _ ← tell (FailedToProcess native);
    mret Failed.

(** One turn of [for await (const native of this.finder.refresh())]. *)
Definition loop_body (native : NativeRecord) (d : Discovery) : Discovery :=
  if negb (isNativeInfoEnvironment native) then d
  else
    let native := as_NativeEnvInfo native in
    let '(valid, lines) := validEnv native in
    let d := with_collection (trace lines (collection d)) d in
    if negb valid then d
    else
      let '(what, lines) := disposition native in
      let d := with_collection (trace lines (collection d)) d in
      match what with
      | AddedAsIs => with_collection (addEnv native (collection d)) d
      | ResolveFirst envPath => with_resolving (resolving d ++ [envPath]) d
      | Failed => d
      end.

(** [.then((env) => { if (env) this.addEnv(env) }).ignoreErrors()] on the
    [k]-th outstanding [finder.resolve]. *)
Definition resolve_settled (k : nat) (reply : Outcome (option NativeEnvInfo.t))
    (d : Discovery) : Discovery :=
  match resolving d !! k with
  | Some _ =>
      let d := with_resolving (delete k (resolving d)) d in
      match reply with
      | Returned (Some env) => with_collection (addEnv env (collection d)) d
      | Returned None | Threw => d
      end
  | None => d
  end.

Definition triggerRefresh (d : Discovery) : option nat * Discovery :=
  let d := with_collection (trace [RefreshStarted] (collection d)) d in
  match refreshState d, _refreshPromise d with
  | ProgressReportStage.discoveryStarted, Some p => (Some p, d)
  | _, _ =>
      let p := length (deferreds d) in
      (Some p,
       {| collection := collection d;
          refreshState := ProgressReportStage.discoveryStarted;
          _refreshPromise := Some p;
          deferreds := deferreds d ++ [Pending];
          progress := progress d ++ [ProgressReportStage.discoveryStarted];
          immediates := S (immediates d);
          iterating := iterating d;
          refresh_calls := refresh_calls d;
          firstRefreshResults := firstRefreshResults d;
          doRefresh_calls := doRefresh_calls d;
          resolving := resolving d |})
  end.

(** A [setImmediate] callback starts: it calls [this.finder.refresh()]
    and begins to iterate. *)
Definition immediate (d : Discovery) : Discovery :=
  match immediates d with
  | O => d
  | S n =>
      {| collection := collection d;
         refreshState := refreshState d;
         _refreshPromise := _refreshPromise d;
         deferreds := deferreds d;
         progress := progress d;
         immediates := n;
         iterating := S (iterating d);
         refresh_calls := S (refresh_calls d);
         firstRefreshResults := false;
         doRefresh_calls :=
           if firstRefreshResults d then doRefresh_calls d
           else S (doRefresh_calls d);
         resolving := resolving d |}
  end.

(** [deferred.resolve()] and [deferred.reject(error)]: only a pending
    deferred changes. *)
Definition settle_deferred (p : option nat) (s : Settlement)
    (l : list Settlement) : list Settlement :=
  match p with
  | Some p =>
      match l !! p with
      | Some Pending => <[ p := s ]> l
      | _ => l
      end
  | None => l
  end.

(** The iteration ends ([ok]) or throws: [_refreshPromise] is resolved or
    rejected, and the [finally] block runs. *)
Definition loop_done (ok : bool) (d : Discovery) : Discovery :=
  match iterating d with
  | O => d
  | S n =>
      {| collection := trace [RefreshFinished] (collection d);
         refreshState := ProgressReportStage.discoveryFinished;
         _refreshPromise := None;
         deferreds :=
           settle_deferred (_refreshPromise d)
             (if ok then Fulfilled else Rejected) (deferreds d);
         progress := progress d ++ [ProgressReportStage.discoveryFinished];
         immediates := immediates d;
         iterating := n;
         refresh_calls := refresh_calls d;
         firstRefreshResults := firstRefreshResults d;
         doRefresh_calls := doRefresh_calls d;
         resolving := resolving d |}
  end.

(** What the event loop and the callers do, one entry per synchronous
    segment. *)
Inductive Task :=
| TriggerRefresh
| Immediate
| Yielded (native : NativeRecord)
| LoopDone (ok : bool)
| ResolveSettled (k : nat) (reply : Outcome (option NativeEnvInfo.t))
| Call (op : Op).

Definition task_step (d : Discovery) (t : Task) : Discovery :=
  match t with
  | TriggerRefresh => snd (triggerRefresh d)
  | Immediate => immediate d
  | Yielded native =>
      match iterating d with
      | O => d
      | S _ => loop_body native d
      end
  | LoopDone ok => loop_done ok d
  | ResolveSettled k reply => resolve_settled k reply d
  | Call op => with_collection (apply_op (collection d) op) d
  end.

Definition tasks_run (ts : list Task) (d : Discovery) : Discovery :=
  fold_left task_step ts d.


End Refresh.

(** ** A host to run examples on *)

Fixpoint split_on (sep : ascii) (s : string) (current : string) : list string :=
  match s with
  | EmptyString => [String.rev current]
  | String a s' =>
      if Ascii.eqb a sep
      then String.rev current :: split_on sep s' EmptyString
      else split_on sep s' (String a current)
  end.

Fixpoint digits_value (s : string) (acc : Z) : option Z :=
  match s with
  | EmptyString => Some acc
  | String a s' =>
      let n := nat_of_ascii a in
      if Nat.leb 48 n && Nat.leb n 57
      then digits_value s' (10 * acc + Z.of_nat (n - 48))%Z
      else None
  end.

Definition component (parts : list string) (i : nat) : Z :=
  match parts !! i with
  | Some EmptyString | None => (-1)%Z
  | Some part => default (-1)%Z (digits_value part 0%Z)
  end.

(** Modelled from the spec: [parseVersion] of base/info/pythonVersion is not
    among the sources.  The spec has it map a version string to a
    (major, minor, micro) triple, tolerant of partial or garbage input, a
    missing component being told apart from 0: here it is [-1]. *)
Definition parseVersion_dotted (versionStr : string) : PythonVersion :=
  let parts := split_on "."%char versionStr EmptyString in
  {| sysVersion := None;
     major := component parts 0;
     minor := component parts 1;
     micro := component parts 2 |}.

Fixpoint after_last_slash (s : string) (current : string) : string :=
  match s with
  | EmptyString => String.rev current
  | String a s' =>
      if Ascii.eqb a "/"%char then after_last_slash s' EmptyString
      else after_last_slash s' (String a current)
  end.

(** A POSIX host: [path.join(a, b)] for a plain directory and file name,
    [path.basename], and a platform other than win32. *)
Definition posix : Host :=
  {| parseVersion := parseVersion_dotted;
     path_join := fun a b => a +:+ "/" +:+ b;
     path_basename := fun p => after_last_slash p EmptyString;
     win32 := false |}.

(** Records of the worker used in the examples. *)
Definition native_record (executable prefix version kind : option string)
    : NativeEnvInfo.t :=
  {| NativeEnvInfo.displayName := None;
     NativeEnvInfo.name := None;
     NativeEnvInfo.executable := executable;
     NativeEnvInfo.kind := kind;
     NativeEnvInfo.version := version;
     NativeEnvInfo.prefix := prefix;
     NativeEnvInfo.manager := None;
     NativeEnvInfo.project := None;
     NativeEnvInfo.arch := None;
     NativeEnvInfo.symlinks := None |}.

(** ** Reading back an escaped character

    Used to show that [JSON_stringify] tells any two snapshots apart. *)

Definition hex_value (c : ascii) : nat :=
  let n := nat_of_ascii c in
  if Nat.leb 48 n && Nat.leb n 57 then n - 48 else n - 87.

(** Reads back one escaped character from the front of a string. *)
Definition JSON_unescape_head (s : string) : option (ascii * string) :=
  match s with
  | String c rest =>
      if Ascii.eqb c backslash then
        match rest with
        | String d rest' =>
            if Ascii.eqb d dquote then Some (dquote, rest')
            else if Ascii.eqb d backslash then Some (backslash, rest')
            else if Ascii.eqb d "b" then Some (ascii_of_nat 8, rest')
            else if Ascii.eqb d "t" then Some (ascii_of_nat 9, rest')
            else if Ascii.eqb d "n" then Some (ascii_of_nat 10, rest')
            else if Ascii.eqb d "f" then Some (ascii_of_nat 12, rest')
            else if Ascii.eqb d "r" then Some (ascii_of_nat 13, rest')
            else
              match rest' with
              | String _ (String _ (String h1 (String h2 rest''))) =>
                  Some (ascii_of_nat (16 * hex_value h1 + hex_value h2), rest'')
              | _ => None
              end
        | EmptyString => None
        end
      else if Ascii.eqb c dquote then None
      else Some (c, rest)
  | EmptyString => None
  end.

(** ** Invariants *)

(** The invariant of the collection: paths are unique, and the entry of a
    path is the record the event log announced last for it. *)
Definition consistent (c : Collection) : Prop :=
  NoDup (path_of <$> envs c)
  /\ forall p, find (has_path p) (envs c) = most_recent (fired c) p.

(** Every promise made is tracked, in the order it was made, behind one
    request each; and every outstanding [Promise.all] took a prefix of
    [pendingPromises], as long as the count it remembers. *)
Definition tracked_in_order (r : RefreshRun) : Prop :=
  pendingPromises r = seq 0 (length (promises r))
  /\ length (requests r) = length (promises r)
  /\ Forall (fun w => w.1 `prefix_of` pendingPromises r /\ length w.1 = w.2)
       (waiting r).

Definition count_started (stages : list ProgressReportStage.t) : nat :=
  length (List.filter
            (ProgressReportStage.eqb ProgressReportStage.discoveryStarted) stages).

(** The fields of a [Discovery] that the refresh machinery owns. *)
Definition flight (d : Discovery) :=
  (refreshState d, _refreshPromise d, deferreds d, progress d,
   immediates d, iterating d, refresh_calls d, firstRefreshResults d,
   doRefresh_calls d).

(** While discovery is started there is a pending [_refreshPromise] and
    exactly one callback scheduled or iterating; otherwise there is
    neither.  Every stage [discoveryStarted] fired accounts for one call of
    [finder.refresh()], made or scheduled, and [doRefresh] has run once for
    the constructor and once for every call after the first. *)
Definition single_flight (d : Discovery) : Prop :=
  match refreshState d with
  | ProgressReportStage.discoveryStarted =>
      (exists p, _refreshPromise d = Some p /\ deferreds d !! p = Some Pending)
      /\ immediates d + iterating d = 1
  | _ => _refreshPromise d = None /\ immediates d + iterating d = 0
  end
  /\ refresh_calls d + immediates d = count_started (progress d)
  /\ doRefresh_calls d = (if firstRefreshResults d then 1 else refresh_calls d)
  /\ (firstRefreshResults d = true -> refresh_calls d = 0).

(** ** Events, records and states of the examples *)

Definition created (item : PythonEnvInfo.t) : PythonEnvCollectionChangedEvent :=
  {| type := FileChangeType.Created; old := None; new := Some item |}.

Definition changed (old_item item : PythonEnvInfo.t)
    : PythonEnvCollectionChangedEvent :=
  {| type := FileChangeType.Changed; old := Some old_item; new := Some item |}.

(** Three environments, two of them with the same executable. *)
Definition python_a : NativeEnvInfo.t :=
  native_record (Some "/a/bin/python") (Some "/a") (Some "3.10.4") (Some "Venv").

Definition python_a_again : NativeEnvInfo.t :=
  native_record (Some "/a/bin/python") (Some "/a") (Some "3.11.0") (Some "Venv").

Definition python_b : NativeEnvInfo.t :=
  native_record (Some "/b/bin/python") (Some "/b") (Some "3.9.1") (Some "Pyenv").

(** An entry written by a caller rather than by the collection. *)
Definition foreign_entry : PythonEnvInfo.t :=
  {| PythonEnvInfo.name := "";
     PythonEnvInfo.location := "/c";
     PythonEnvInfo.kind := PythonEnvKind.Unknown;
     PythonEnvInfo.executable :=
       {| filename := "/c/bin/python"; sysPrefix := "/c";
          ctime := (-1)%Z; mtime := (-1)%Z |};
     PythonEnvInfo.version :=
       {| sysVersion := None; major := 3; minor := 8; micro := 0 |};
     PythonEnvInfo.arch := Architecture.Unknown;
     PythonEnvInfo.distro_org := "";
     PythonEnvInfo.source := [];
     PythonEnvInfo.detailedDisplayName := "Python";
     PythonEnvInfo.display := "Python";
     PythonEnvInfo.type := None |}.

(** A record with neither prefix nor executable. *)
Definition nowhere : NativeEnvInfo.t :=
  native_record None None (Some "3.12.0") (Some "Conda").

(** A record with an executable and no version, to be resolved, and the
    answer of the worker. *)
Definition unresolved_venv : NativeEnvInfo.t :=
  native_record (Some "/a/bin/python") None None (Some "VirtualEnv").

Definition resolved_venv : NativeEnvInfo.t :=
  native_record (Some "/a/bin/python") (Some "/a") (Some "3.10.4") (Some "VirtualEnv").

(** Scenario B of the spec: a conda environment directory without python. *)
Definition conda_foo : NativeEnvInfo.t :=
  native_record None (Some "/opt/conda/envs/foo") None (Some "Conda").

(** A complete record whose executable is the empty string. *)
Definition empty_executable : NativeEnvInfo.t :=
  native_record (Some "") (Some "/p") (Some "3.10.4") (Some "Venv").

(** A record with executable, version and prefix whose version cannot be
    read. *)
Definition odd_version : NativeEnvInfo.t :=
  native_record (Some "/a/bin/python") (Some "/a") (Some "three") (Some "Venv").

Definition settings : ConfigurationOptions :=
  {| workspaceDirectories := ["/home/me/project"];
     environmentDirectories := ["/home/me/.virtualenvs"; "/home/me/envs"];
     condaExecutable := Some "/opt/conda/bin/conda";
     poetryExecutable := None |}.

Definition count_configure (conn : Connection) : nat :=
  length (List.filter is_configure (sent conn)).

(** ** Statements of the spec that the code does not satisfy *)

(** The reading of C9 as stated: the new entry sits where the old one was. *)
Definition replaced_in_place `{Host} (native : NativeEnvInfo.t) (c : Collection)
    : Prop :=
  forall item old_item (i : nat),
    (toPythonEnvInfo native).1 = Some item ->
    envs c !! i = Some old_item ->
    path_of old_item = path_of item ->
    envs (addEnv native c) !! i = Some item.

(** The reading of C7 as stated: the environment a call of resolveEnv
    returns is in the collection afterwards. *)
Definition resolve_and_merge `{Host} (now : Z) (envPath : option string)
    (reply : Outcome (option NativeEnvInfo.t)) (c : Collection) : Prop :=
  forall env,
    (resolveEnv_cached now envPath reply c).1 = Returned (Some env) ->
    env ∈ envs (resolveEnv_cached now envPath reply c).2.

(** The reading of C10 as stated: writing into the list getEnvs returned
    leaves what the collection holds as it was. *)
Definition getEnvs_isolated (c : Collection) : Prop :=
  forall x, envs (array_push (getEnvs c) x c) = envs c.

(** The reading of the last part of C4 as stated: every record with version
    and prefix and all version components known is added as it is. *)
Definition complete_record_added_as_is `{Host} : Prop :=
  forall native,
    truthy (NativeEnvInfo.version native) = true ->
    truthy (NativeEnvInfo.prefix native) = true ->
    all_components_known
      (parseVersion (default "" (NativeEnvInfo.version native))) = true ->
    (disposition native).1 = AddedAsIs.

(** ** More of the collection *)

(** What [toPythonEnvInfo] gives every entry, whatever the record. *)
Definition normalized (item : PythonEnvInfo.t) : Prop :=
  PythonEnvInfo.type item = getEnvType (PythonEnvInfo.kind item)
  /\ ctime (PythonEnvInfo.executable item) = (-1)%Z
  /\ mtime (PythonEnvInfo.executable item) = (-1)%Z
  /\ PythonEnvInfo.display item = PythonEnvInfo.detailedDisplayName item
  /\ PythonEnvInfo.distro_org item = ""
  /\ PythonEnvInfo.source item = [].

Definition is_created (ev : PythonEnvCollectionChangedEvent) : bool :=
  match type ev with FileChangeType.Created => true | _ => false end.

(** An event as the collection fires it: Created with the new entry only,
    or Changed with an old and a new entry of the same path. *)
Definition well_formed_event (ev : PythonEnvCollectionChangedEvent) : Prop :=
  match type ev, old ev, new ev with
  | FileChangeType.Created, None, Some _ => True
  | FileChangeType.Changed, Some o, Some n => path_of o = path_of n
  | _, _, _ => False
  end.

(** Entries are normalized, events are well formed, and every entry was
    announced by one Created event. *)
Definition tidy (c : Collection) : Prop :=
  Forall normalized (envs c)
  /\ Forall well_formed_event (fired c)
  /\ length (envs c) = length (List.filter is_created (fired c)).

(** The key under which a valid record is stored. *)
Definition key_of `{Host} (native : NativeEnvInfo.t) : string :=
  match NativeEnvInfo.executable native with
  | Some e => e
  | None => makeExecutablePath (NativeEnvInfo.prefix native)
  end.

(** The tags of the table that stand for a virtual environment. *)
Definition virtual_tags : list string :=
  ["Pyenv"; "PyenvVirtualEnv"; "Pipenv"; "Poetry"; "VirtualEnv";
   "VirtualEnvWrapper"; "Venv"].

(** ** More of the refresh *)

(** [getRefreshPromise]: [this._refreshPromise?.promise]. *)
Definition getRefreshPromise (d : Discovery) : option nat := _refreshPromise d.

(** [createNativeEnvironmentsApi]: the object is made and its first refresh
    triggered at once. *)
Definition createNativeEnvironmentsApi : Discovery :=
  (triggerRefresh new_discovery).2.

(** [n] refreshes from start to finish, as [_onProgress] reports them. *)
Fixpoint rounds (n : nat) : list ProgressReportStage.t :=
  match n with
  | O => []
  | S n =>
      ProgressReportStage.discoveryStarted
        :: ProgressReportStage.discoveryFinished :: rounds n
  end.

(** The stage a refresh in progress has reported and not yet closed. *)
Definition open_round (stage : ProgressReportStage.t) : list ProgressReportStage.t :=
  match stage with
  | ProgressReportStage.discoveryStarted => [ProgressReportStage.discoveryStarted]
  | _ => []
  end.

(** The only pending deferred is [_refreshPromise]; the stages reported are
    whole rounds followed by the round in progress; the finder has handed
    out its first results once its refresh has been called. *)
Definition orderly (d : Discovery) : Prop :=
  (forall p, deferreds d !! p = Some Pending -> _refreshPromise d = Some p)
  /\ (exists n,
        progress d = rounds n ++ open_round (refreshState d)
        /\ match refreshState d with
           | ProgressReportStage.idle => n = 0
           | ProgressReportStage.discoveryStarted => True
           | ProgressReportStage.discoveryFinished => 0 < n
           | ProgressReportStage.allPathsDiscovered => False
           end)
  /\ (firstRefreshResults d = false -> 0 < refresh_calls d).

(** ** The finder: the order of its requests

    [resolve] and [doRefresh] call [configure] and send their own request
    afterwards; the constructor configures and starts the first refresh;
    [getCondaInfo] sends its request at once.  Between the [configure] of a
    call and its request other calls may run, so a run is a list of these
    two kinds of step. *)

Definition send_request (q : Request) (conn : Connection) : Connection :=
  {| lastConfiguration := lastConfiguration conn; sent := sent conn ++ [q] |}.

(** The requests other than [configure]. *)
Inductive WorkerMethod :=
| RefreshMethod
| ResolveMethod (executable : string)
| CondaInfoMethod.

Definition request_of (m : WorkerMethod) : Request :=
  match m with
  | RefreshMethod => RefreshRequest
  | ResolveMethod executable => ResolveRequest executable
  | CondaInfoMethod => CondaInfoRequest
  end.

(** [resolve(executable)], the settings being [options] when it is called. *)
Definition finder_resolve (options : ConfigurationOptions) (executable : string)
    (conn : Connection) : Connection :=
  send_request (ResolveRequest executable) (configure options conn).

(** The request of [doRefresh]:
    [this.configure().then(() => this.connection.sendRequest('refresh', ...))]. *)
Definition finder_refresh_request (options : ConfigurationOptions)
    (conn : Connection) : Connection :=
  send_request RefreshRequest (configure options conn).

Definition getCondaInfo (conn : Connection) : Connection :=
  send_request CondaInfoRequest conn.

(** The constructor: [void this.configure()], then [refreshFirstTime()],
    which calls [doRefresh]. *)
Definition construct (options : ConfigurationOptions) : Connection :=
  finder_refresh_request options (configure options new_connection).

Inductive FinderStep :=
| Configures (options : ConfigurationOptions)
| Sends (m : WorkerMethod).

Definition finder_step (conn : Connection) (step : FinderStep) : Connection :=
  match step with
  | Configures options => configure options conn
  | Sends m => send_request (request_of m) conn
  end.

Definition finder_run (steps : list FinderStep) (conn : Connection) : Connection :=
  fold_left finder_step steps conn.

(** The snapshots of the configure requests sent, in order. *)
Definition snapshots (conn : Connection) : list ConfigurationOptions :=
  omap (fun q => match q with ConfigureRequest options => Some options | _ => None end)
    (sent conn).

(** No element equals its successor. *)
Fixpoint no_repeat {A} (l : list A) : Prop :=
  match l with
  | x :: (y :: _) as rest => x <> y /\ no_repeat rest
  | _ => True
  end.

(** What is known of the wire: the snapshot kept is the one sent last, and
    no snapshot was sent twice in a row. *)
Definition in_step (conn : Connection) : Prop :=
  last (snapshots conn) = lastConfiguration conn /\ no_repeat (snapshots conn).

(** ** The finder: more of [doRefresh] *)

(** While completion has not fired, some [Promise.all] that has counted
    every pending promise is waiting. *)
Definition aware (r : RefreshRun) : Prop :=
  completed r = true
  \/ exists taken, (taken, length (pendingPromises r)) ∈ waiting r.

Definition never_rejected (r : RefreshRun) : Prop :=
  Forall (fun tracked => tracked.2 <> Rejected) (promises r).

(** Where a record handed on by the finder comes from. *)
Definition handed_on_by (ev : RefreshEvent) (record : NativeRecord) : Prop :=
  match ev with
  | Environment data => record = EnvironmentRecord data /\ needs_resolve data = false
  | Manager data => record = ManagerRecord data
  | Settle _ (Returned environment) => record = EnvironmentRecord environment
  | _ => False
  end.

(** Where a resolve request of the finder comes from. *)
Definition resolve_asked_by (ev : RefreshEvent) (executable : string) : Prop :=
  match ev with
  | Environment data =>
      needs_resolve data = true /\ NativeEnvInfo.executable data = Some executable
  | _ => False
  end.

(** ** The finder: the sequence [refresh()] yields

    The loop of [refresh()] and of [refreshFirstTime()]: the listener fills
    [envs] and resolves [discovered]; the generator, each time it is
    resumed, runs up to its next [yield], to the [await] of the race, or to
    its end. *)

Inductive Position :=
| AtLoopTop
| InForLoop (rest : list NativeRecord)
| Finished.

Record Stream := {
  (** [envs] *)
  buffer : list NativeRecord;
  (** [completed], set when [result.completed] settles *)
  is_completed : bool;
  (** whether the deferred [discovered] is resolved *)
  woken : bool;
  position : Position;
  (** what has been yielded, in order *)
  yielded : list NativeRecord;
}.

Definition new_stream : Stream :=
  {| buffer := []; is_completed := false; woken := false;
     position := AtLoopTop; yielded := [] |}.

(** The listener: [envs.push(data); discovered.resolve()].  After
    [disposable.dispose()] it is gone. *)
Definition arrive (data : NativeRecord) (s : Stream) : Stream :=
  match position s with
  | Finished => s
  | _ =>
      {| buffer := buffer s ++ [data];
         is_completed := is_completed s;
         woken := true;
         position := position s;
         yielded := yielded s |}
  end.

Definition complete (s : Stream) : Stream :=
  {| buffer := buffer s;
     is_completed := true;
     woken := woken s;
     position := position s;
     yielded := yielded s |}.

(** From the top of the loop: with [envs] empty the race is awaited, and
    the generator goes on only when it has settled; otherwise [envs] is
    copied and emptied and the first record is yielded.  A race that had
    settled with nothing to send and no completion leads, through a new
    [discovered], to the next race. *)
Definition from_loop_top (s : Stream) : option NativeRecord * Stream :=
  match buffer s with
  | data :: rest =>
      (Some data,
       {| buffer := [];
          is_completed := is_completed s;
          woken := woken s;
          position := InForLoop rest;
          yielded := yielded s ++ [data] |})
  | [] =>
      if is_completed s then
        (None,
         {| buffer := [];
            is_completed := true;
            woken := woken s;
            position := Finished;
            yielded := yielded s |})
      else if woken s then
        (None,
         {| buffer := [];
            is_completed := false;
            woken := false;
            position := AtLoopTop;
            yielded := yielded s |})
      else (None, s)
  end.

(** After the [for] loop: [if (!completed) discovered = createDeferred()],
    then the test of [while (!completed)]. *)
Definition after_for_loop (s : Stream) : option NativeRecord * Stream :=
  if is_completed s then
    (None,
     {| buffer := buffer s;
        is_completed := true;
        woken := woken s;
        position := Finished;
        yielded := yielded s |})
  else
    from_loop_top
      {| buffer := buffer s;
         is_completed := false;
         woken := false;
         position := AtLoopTop;
         yielded := yielded s |}.

(** The generator is resumed. *)
Definition resume (s : Stream) : option NativeRecord * Stream :=
  match position s with
  | AtLoopTop => from_loop_top s
  | InForLoop (data :: rest) =>
      (Some data,
       {| buffer := buffer s;
          is_completed := is_completed s;
          woken := woken s;
          position := InForLoop rest;
          yielded := yielded s ++ [data] |})
  | InForLoop [] => after_for_loop s
  | Finished => (None, s)
  end.

Inductive StreamEvent :=
| Arrives (data : NativeRecord)
| Completes
| Resumes.

Definition stream_step (s : Stream) (ev : StreamEvent) : Stream :=
  match ev with
  | Arrives data => arrive data s
  | Completes => complete s
  | Resumes => (resume s).2
  end.

Definition stream_run (evs : list StreamEvent) (s : Stream) : Stream :=
  fold_left stream_step evs s.

(** The records the [discovered] event fired along a run. *)
Definition arrivals (evs : list StreamEvent) : list NativeRecord :=
  omap (fun ev => match ev with Arrives data => Some data | _ => None end) evs.

(** The records copied out of [envs] and not yet yielded. *)
Definition in_hand (s : Stream) : list NativeRecord :=
  match position s with
  | InForLoop rest => rest
  | _ => []
  end.

Definition is_finished (s : Stream) : bool :=
  match position s with Finished => true | _ => false end.

(** Nothing is lost or repeated while the generator runs: what arrived is
    what was yielded, what is in hand, what is in [envs], and what came
    after the end. *)
Definition accounted (s : Stream) (arrived : list NativeRecord) : Prop :=
  (exists late,
     arrived = yielded s ++ in_hand s ++ buffer s ++ late
     /\ (is_finished s = false -> late = []))
  /\ (is_finished s = true -> is_completed s = true).

(** ** The finder: the directories of the settings *)

(** [Array.from(new Set(l))]: the elements of [l] in the order of their
    first occurrence; [seen] holds what the set has already. *)
Fixpoint Set_values (seen l : list string) : list string :=
  match l with
  | [] => []
  | x :: l =>
      if bool_decide (x ∈ seen) then Set_values seen l
      else x :: Set_values (x :: seen) l
  end.

Section Settings.
Context `{Host}.

(** [untildify], of the package of that name. *)
Variable untildify : string -> string.

(** [getPythonSettingAndUntildify] on a setting that holds a string, or
    nothing: the empty string counts as nothing. *)
Definition getPythonSettingAndUntildify (value : option string) : option string :=
  match value with
  | Some v => if nonempty v then Some (untildify v) else None
  | None => None
  end.

(** [getCustomVirtualEnvDirs], given the values of the settings [venvPath]
    and [venvFolders] and the home directory. *)
Definition getCustomVirtualEnvDirs (venvPathSetting : option string)
    (venvFoldersSetting : option (list string)) (homeDir : option string)
    : list string :=
  let venvPath := getPythonSettingAndUntildify venvPathSetting in
  let venvDirs :=
    if truthy venvPath then [untildify (default "" venvPath)] else [] in
  let venvFolders := default [] venvFoldersSetting in
  let venvDirs :=
    if truthy homeDir
    then venvDirs ++ List.map (path_join (default "" homeDir)) venvFolders
    else venvDirs in
  Set_values [] venvDirs.

End Settings.

(** Both invariants of the collection together. *)
Definition sound (c : Collection) : Prop := consistent c /\ tidy c.

(** ** Where the entries of the collection come from *)

Section Supply.
Context `{Host}.

(** The records a task passes to [toPythonEnvInfo] on the way into the
    collection: a record of the finder that the refresh loop adds as it
    is, the answer to a [finder.resolve], or the argument of a call. *)
Definition supplied_by (t : Task) (native : NativeEnvInfo.t) : Prop :=
  match t with
  | Yielded record =>
      isNativeInfoEnvironment record = true
      /\ native = as_NativeEnvInfo record
      /\ (disposition native).1 = AddedAsIs
  | ResolveSettled _ (Returned (Some env)) => native = env
  | Call (AddEnv env) => native = env
  | Call (ResolveEnv _ _ (Returned (Some env))) => native = env
  | _ => False
  end.

End Supply.

(** * Properties *)

(** ** Lists searched and filtered by path *)

Lemma find_app_None {A} (f : A -> bool) (l l' : list A) :
  find f l = None -> find f (l ++ l') = find f l'.
Proof.
  induction l as [|x l IH]; simpl; [done|].
  destruct (f x); [done|]. exact IH.
Qed.

Lemma find_app_Some {A} (f : A -> bool) (l l' : list A) (x : A) :
  find f l = Some x -> find f (l ++ l') = Some x.
Proof.
  induction l as [|y l IH]; simpl; [done|].
  destruct (f y); [done|]. exact IH.
Qed.

Lemma has_path_true p item : has_path p item = true <-> path_of item = p.
Proof. unfold has_path. apply String.eqb_eq. Qed.

Lemma has_path_false p item : has_path p item = false <-> path_of item <> p.
Proof. unfold has_path. apply String.eqb_neq. Qed.

Lemma other_path_negb p item : other_path p item = negb (has_path p item).
Proof. reflexivity. Qed.

Lemma find_has_path_Some p l item :
  find (has_path p) l = Some item -> item ∈ l /\ path_of item = p.
Proof.
  intros Hf. apply find_some in Hf as [Hin Hp].
  split; [by apply list_elem_of_In | by apply has_path_true].
Qed.

Lemma find_has_path_None p l :
  find (has_path p) l = None <-> p ∉ path_of <$> l.
Proof.
  induction l as [|x l IH]; simpl.
  - split; [intros _; apply not_elem_of_nil | done].
  - rewrite not_elem_of_cons. destruct (has_path p x) eqn:E.
    + apply has_path_true in E.
      split; [done | intros [Hne _]; exfalso; apply Hne; symmetry; exact E].
    + apply has_path_false in E. rewrite IH. split; [|tauto].
      intros Hl. split; [|done]. intros Heq. apply E. symmetry. exact Heq.
Qed.

Lemma find_filter_same p l :
  find (has_path p) (List.filter (other_path p) l) = None.
Proof.
  induction l as [|x l IH]; simpl; [done|].
  rewrite other_path_negb. destruct (has_path p x) eqn:E; simpl; [done|].
  by rewrite E.
Qed.

Lemma find_filter_other p q l :
  p <> q ->
  find (has_path p) (List.filter (other_path q) l) = find (has_path p) l.
Proof.
  intros Hne. induction l as [|x l IH]; simpl; [done|].
  rewrite other_path_negb.
  destruct (has_path q x) eqn:Eq; simpl.
  - apply has_path_true in Eq.
    assert (has_path p x = false) as -> by (apply has_path_false; congruence).
    exact IH.
  - destruct (has_path p x); [done | exact IH].
Qed.

Lemma filter_other_path_elem p l item :
  item ∈ List.filter (other_path p) l <-> item ∈ l /\ path_of item <> p.
Proof.
  rewrite !list_elem_of_In, filter_In, other_path_negb, negb_true_iff.
  by rewrite has_path_false.
Qed.

Lemma NoDup_paths_filter f (l : list PythonEnvInfo.t) :
  NoDup (path_of <$> l) -> NoDup (path_of <$> List.filter f l).
Proof.
  induction l as [|x l IH]; simpl; [done|].
  rewrite NoDup_cons. intros [Hx Hl].
  destruct (f x); simpl; [|by apply IH].
  apply NoDup_cons. split; [|by apply IH].
  intros Hin. apply Hx.
  apply list_elem_of_fmap in Hin as (y & -> & Hy).
  apply list_elem_of_fmap. exists y. split; [done|].
  apply list_elem_of_In. apply list_elem_of_In in Hy.
  apply filter_In in Hy. tauto.
Qed.

Lemma NoDup_paths_snoc (l : list PythonEnvInfo.t) item :
  NoDup (path_of <$> l) ->
  find (has_path (path_of item)) l = None ->
  NoDup (path_of <$> (l ++ [item])).
Proof.
  intros Hl Hnone. rewrite fmap_app. apply NoDup_app. split; [done|]. split.
  - intros p Hp Hin. simpl in Hin. apply list_elem_of_singleton in Hin. subst p.
    by apply find_has_path_None in Hnone.
  - simpl. apply NoDup_singleton.
Qed.

Lemma filter_filter_other p l :
  List.filter (other_path p) (List.filter (other_path p) l)
  = List.filter (other_path p) l.
Proof.
  induction l as [|x l IH]; simpl; [done|].
  destruct (other_path p x) eqn:E; simpl; [|done]. by rewrite E, IH.
Qed.

(** ** The array behind [_envs] *)

Lemma envs_trace lines c : envs (trace lines c) = envs c.
Proof. reflexivity. Qed.

Lemma envs_push_created item c :
  envs (push_created item c) = envs c ++ [item].
Proof. unfold envs, deref, push_created; simpl. by rewrite lookup_insert_eq. Qed.

Lemma envs_filter_push_changed old_item item c :
  envs (filter_push_changed old_item item c)
  = List.filter (other_path (path_of item)) (envs c) ++ [item].
Proof.
  unfold envs at 1, deref, filter_push_changed; simpl.
  by rewrite lookup_insert_eq.
Qed.

Lemma most_recent_snoc events ev p :
  most_recent (events ++ [ev]) p
  = match new ev with
    | Some item => if has_path p item then Some item else most_recent events p
    | None => most_recent events p
    end.
Proof.
  unfold most_recent. rewrite omap_app. simpl.
  destruct (new ev) as [item|]; simpl.
  - destruct (has_path p item); simpl.
    + by rewrite last_snoc.
    + by rewrite app_nil_r.
  - by rewrite app_nil_r.
Qed.

Section CollectionProperties.
Context `{Host}.

Lemma addEnv_unfold native c :
  addEnv native c
  = match (toPythonEnvInfo native).1 with
    | None => trace (toPythonEnvInfo native).2 c
    | Some item =>
        match find (has_path (path_of item)) (envs c) with
        | Some old_item =>
            filter_push_changed old_item item (trace (toPythonEnvInfo native).2 c)
        | None => push_created item (trace (toPythonEnvInfo native).2 c)
        end
    end.
Proof.
  unfold addEnv. destruct (toPythonEnvInfo native) as [[item|] lines]; simpl; done.
Qed.

Lemma consistent_new : consistent new_collection.
Proof. split; [apply NoDup_nil_2 | done]. Qed.

Lemma consistent_trace lines c : consistent c -> consistent (trace lines c).
Proof. done. Qed.

Lemma consistent_push_created item c :
  consistent c ->
  find (has_path (path_of item)) (envs c) = None ->
  consistent (push_created item c).
Proof.
  intros [Hnd Hrec] Hnone. split.
  - rewrite envs_push_created. by apply NoDup_paths_snoc.
  - intros p. rewrite envs_push_created. simpl. rewrite most_recent_snoc. simpl.
    destruct (has_path p item) eqn:E.
    + apply has_path_true in E. subst p.
      rewrite (find_app_None _ _ _ Hnone). simpl.
      assert (has_path (path_of item) item = true) as -> by by apply has_path_true.
      done.
    + rewrite <- Hrec. destruct (find (has_path p) (envs c)) as [x|] eqn:F.
      * by apply find_app_Some.
      * rewrite (find_app_None _ _ _ F). simpl. by rewrite E.
Qed.

Lemma consistent_filter_push_changed old_item item c :
  consistent c -> consistent (filter_push_changed old_item item c).
Proof.
  intros [Hnd Hrec]. split.
  - rewrite envs_filter_push_changed. apply NoDup_paths_snoc.
    + by apply NoDup_paths_filter.
    + apply find_filter_same.
  - intros p. rewrite envs_filter_push_changed. simpl.
    rewrite most_recent_snoc. simpl.
    destruct (has_path p item) eqn:E.
    + apply has_path_true in E. subst p.
      rewrite (find_app_None _ _ _ (find_filter_same _ _)). simpl.
      assert (has_path (path_of item) item = true) as -> by by apply has_path_true.
      done.
    + apply has_path_false in E. rewrite <- Hrec.
      rewrite <- (find_filter_other p (path_of item) (envs c)) by congruence.
      destruct (find (has_path p) (List.filter _ (envs c))) as [x|] eqn:F.
      * by apply find_app_Some.
      * rewrite (find_app_None _ _ _ F). simpl.
        assert (has_path p item = false) as -> by by apply has_path_false.
        done.
Qed.

Lemma consistent_addEnv native c : consistent c -> consistent (addEnv native c).
Proof.
  intros Hc. rewrite addEnv_unfold.
  destruct (toPythonEnvInfo native).1 as [item|]; [|done].
  destruct (find _ _) eqn:F.
  - by apply consistent_filter_push_changed.
  - by apply consistent_push_created.
Qed.

Lemma consistent_resolveEnv envPath reply c :
  consistent c -> consistent (resolveEnv envPath reply c).2.
Proof.
  intros Hc. unfold resolveEnv.
  destruct envPath; [|done]. destruct reply as [[native|]|]; [|done|done].
  destruct (toPythonEnvInfo native) as [[item|] lines]; simpl; [|done].
  destruct (find _ _) eqn:F; simpl; [|done].
  by apply consistent_filter_push_changed.
Qed.

Lemma consistent_apply_op c op : consistent c -> consistent (apply_op c op).
Proof.
  intros Hc. destruct op as [native|now envPath reply]; simpl.
  - by apply consistent_addEnv.
  - unfold resolveEnv_cached. destruct (cache_lookup _ _ _); [done|].
    pose proof (consistent_resolveEnv envPath reply c Hc) as Hr.
    destruct (resolveEnv envPath reply c) as [outcome c']. simpl in *. exact Hr.
Qed.

Lemma consistent_run ops c : consistent c -> consistent (run ops c).
Proof.
  revert c. induction ops as [|op ops IH]; intros c Hc; simpl; [done|].
  apply IH. by apply consistent_apply_op.
Qed.

End CollectionProperties.

(** ** addEnv, resolveEnv and getEnvs *)

Section CollectionClaims.
Context `{Host}.

(** C1. Along every sequence of addEnv and resolveEnv operations the
    collection holds at most one entry per executable path, and the entry
    of a path is the record announced last for it.  An addEnv whose
    normalized path is absent appends the entry and fires Created; one
    whose path is present removes the old entry, adds the new one and
    fires Changed with the old and the new entry; either way the entry of
    that path is then the record just applied. *)
Theorem collection_one_entry_per_path (ops : list Op) :
  let c := run ops new_collection in
  NoDup (path_of <$> envs c)
  /\ (forall p, find (has_path p) (envs c) = most_recent (fired c) p)
  /\ (forall native item,
        (toPythonEnvInfo native).1 = Some item ->
        let c' := addEnv native c in
        match find (has_path (path_of item)) (envs c) with
        | None =>
            envs c' = envs c ++ [item]
            /\ fired c' = fired c ++ [created item]
        | Some old_item =>
            old_item ∈ envs c
            /\ path_of old_item = path_of item
            /\ envs c' = List.filter (other_path (path_of item)) (envs c) ++ [item]
            /\ fired c' = fired c ++ [changed old_item item]
        end
        /\ find (has_path (path_of item)) (envs c') = Some item
        /\ NoDup (path_of <$> envs c')).
Proof.
  intros c.
  assert (consistent c) as Hc by (apply consistent_run, consistent_new).
  split; [apply Hc|]. split; [apply Hc|].
  intros native item Hitem c'.
  assert (consistent c') as Hc' by by apply consistent_addEnv.
  assert (find (has_path (path_of item)) (envs c') = Some item) as Hfind.
  { subst c'. rewrite addEnv_unfold, Hitem.
    assert (has_path (path_of item) item = true) as Hself by by apply has_path_true.
    destruct (find _ (envs c)) as [old_item|] eqn:F.
    - rewrite envs_filter_push_changed, envs_trace.
      rewrite (find_app_None _ _ _ (find_filter_same _ _)). simpl. by rewrite Hself.
    - rewrite envs_push_created, envs_trace.
      rewrite (find_app_None _ _ _ F). simpl. by rewrite Hself. }
  split; [|split; [exact Hfind | apply Hc']].
  subst c'. rewrite addEnv_unfold, Hitem.
  destruct (find _ (envs c)) as [old_item|] eqn:F.
  - apply find_has_path_Some in F as [Hin Hp].
    rewrite envs_filter_push_changed, envs_trace. done.
  - rewrite envs_push_created, envs_trace. done.
Qed.

(** C7, as the code has it.  When a call of resolveEnv returns an
    environment, the collection is touched only if the call was not
    answered from the cache and the collection already holds an entry with
    that executable path: that entry is removed, the returned environment
    is added and Changed fires with the old and the new entry.  A call
    that goes to the finder and finds no such entry returns the environment
    and leaves the list and the event log as they were; a call answered
    from the cache returns the environment kept there and leaves the whole
    collection as it was, whatever entries it holds. *)
Theorem resolveEnv_updates_existing_entry_only
    (now : Z) (envPath : option string) (reply : Outcome (option NativeEnvInfo.t))
    (c c' : Collection) (env : PythonEnvInfo.t) :
  resolveEnv_cached now envPath reply c = (Returned (Some env), c') ->
  match cache_lookup now envPath c with
  | Some kept => kept = Returned (Some env) /\ c' = c
  | None =>
      (exists native,
         reply = Returned (Some native)
         /\ (toPythonEnvInfo native).1 = Some env)
      /\ cache_lookup now envPath c' = Some (Returned (Some env))
      /\ match find (has_path (path_of env)) (envs c) with
         | Some old_item =>
             envs c' = List.filter (other_path (path_of env)) (envs c) ++ [env]
             /\ fired c' = fired c ++ [changed old_item env]
             /\ find (has_path (path_of env)) (envs c') = Some env
         | None =>
             envs c' = envs c /\ fired c' = fired c
         end
  end.
Proof.
  unfold resolveEnv_cached.
  destruct (cache_lookup now envPath c) as [kept|]; [by intros [= -> ->]|].
  unfold resolveEnv. destruct envPath as [p|]; [|done].
  destruct reply as [[native|]|]; [|done|done].
  destruct (toPythonEnvInfo native) as [[item|] lines] eqn:E; simpl; [|done].
  rewrite envs_trace.
  assert (forall d, cache_lookup now (Some p)
                      (cache_store now (Some p) (Returned (Some item)) d)
                    = Some (Returned (Some item))) as Hkept.
  { intros d. unfold cache_lookup, cache_store. simpl.
    rewrite bool_decide_eq_true_2 by done.
    by rewrite (proj2 (Z.ltb_lt now (now + 30000)%Z)) by lia. }
  destruct (find (has_path (path_of item)) (envs c)) as [old_item|] eqn:F;
    intros [= <- <-]; rewrite F; (split; [exists native; by rewrite E|]);
    (split; [apply Hkept|]).
  - change (envs (cache_store ?n ?q ?o ?d)) with (envs d).
    change (fired (cache_store ?n ?q ?o ?d)) with (fired d).
    rewrite envs_filter_push_changed, envs_trace. split; [done|]. split; [done|].
    rewrite (find_app_None _ _ _ (find_filter_same _ _)). simpl.
    assert (has_path (path_of item) item = true) as -> by by apply has_path_true.
    done.
  - done.
Qed.

(** C8. addEnv of a record with neither prefix nor executable leaves the
    store of arrays, the collection and the event log as they were; the
    only effect is one line in the error log. *)
Theorem addEnv_invalid_record_dropped (native : NativeEnvInfo.t) (c : Collection) :
  NativeEnvInfo.prefix native = None ->
  NativeEnvInfo.executable native = None ->
  let c' := addEnv native c in
  (toPythonEnvInfo native).1 = None
  /\ arrays c' = arrays c
  /\ _envs c' = _envs c
  /\ envs c' = envs c
  /\ fired c' = fired c
  /\ resolveEnv_cache c' = resolveEnv_cache c
  /\ logged c' = logged c ++ [InvalidEnvironment native].
Proof.
  intros Hp He c'. subst c'.
  unfold addEnv, toPythonEnvInfo, validEnv. rewrite Hp, He. simpl. done.
Qed.

(** C9, as the code has it.  When addEnv finds the path present, the old
    entry is filtered out and the new entry is pushed: the new entry is
    the last element of the list, whatever the position of the old one,
    and the other entries keep their relative order. *)
Theorem addEnv_replacement_moves_to_end
    (native : NativeEnvInfo.t) (item old_item : PythonEnvInfo.t) (c : Collection) :
  (toPythonEnvInfo native).1 = Some item ->
  find (has_path (path_of item)) (envs c) = Some old_item ->
  let c' := addEnv native c in
  envs c' = List.filter (other_path (path_of item)) (envs c) ++ [item]
  /\ last (envs c') = Some item
  /\ List.filter (other_path (path_of item)) (envs c')
     = List.filter (other_path (path_of item)) (envs c).
Proof.
  intros Hitem Hold c'. subst c'.
  rewrite addEnv_unfold, Hitem, Hold.
  rewrite envs_filter_push_changed, envs_trace.
  split; [done|]. split; [by rewrite last_snoc|].
  rewrite List.filter_app, filter_filter_other. simpl.
  rewrite other_path_negb.
  assert (has_path (path_of item) item = true) as -> by by apply has_path_true.
  simpl. by rewrite app_nil_r.
Qed.

Lemma envs_array_set_held r contents c :
  _envs c = r -> envs (array_set r contents c) = contents.
Proof.
  intros <-. unfold envs, deref, array_set; simpl. by rewrite lookup_insert_eq.
Qed.

Lemma envs_array_set_stale r contents c :
  _envs c <> r -> envs (array_set r contents c) = envs c.
Proof.
  intros Hne. unfold envs, deref, array_set; simpl.
  by rewrite lookup_insert_ne by done.
Qed.

Lemma envs_addEnv native c :
  envs (addEnv native c)
  = match (toPythonEnvInfo native).1 with
    | None => envs c
    | Some item =>
        match find (has_path (path_of item)) (envs c) with
        | Some _ => List.filter (other_path (path_of item)) (envs c) ++ [item]
        | None => envs c ++ [item]
        end
    end.
Proof.
  rewrite addEnv_unfold. destruct (toPythonEnvInfo native).1 as [item|]; [|done].
  destruct (find _ (envs c)) eqn:F.
  - by rewrite envs_filter_push_changed, envs_trace.
  - by rewrite envs_push_created, envs_trace.
Qed.

Lemma filter_other_path_none p l :
  find (has_path p) l = None -> List.filter (other_path p) l = l.
Proof.
  induction l as [|x l IH]; simpl; [done|].
  rewrite other_path_negb. destruct (has_path p x); [done|].
  simpl. intros F. f_equal. by apply IH.
Qed.

(** What one operation does to the reference in [_envs]: it keeps it and
    fires Created events at most, or it fires one Changed event and binds
    [_envs] to the array allocated next. *)
Lemma apply_op_reference c op :
  (exists evs,
     fired (apply_op c op) = fired c ++ evs
     /\ forallb is_created evs = true
     /\ _envs (apply_op c op) = _envs c
     /\ next_array (apply_op c op) = next_array c)
  \/ (exists ev,
        fired (apply_op c op) = fired c ++ [ev]
        /\ is_created ev = false
        /\ _envs (apply_op c op) = next_array c
        /\ next_array (apply_op c op) = S (next_array c)).
Proof.
  assert (forall d : Collection,
            exists evs, fired d = fired d ++ evs /\ forallb is_created evs = true
                        /\ _envs d = _envs d /\ next_array d = next_array d) as Hsame.
  { intros d. exists []. by rewrite app_nil_r. }
  destruct op as [native|now envPath reply]; simpl.
  - rewrite addEnv_unfold. destruct (toPythonEnvInfo native).1 as [item|].
    + destruct (find _ (envs c)) as [old_item|].
      * right. by eexists.
      * left. by eexists [_].
    + left. apply (Hsame (trace _ c)).
  - unfold resolveEnv_cached. destruct (cache_lookup _ _ _); [left; apply Hsame|].
    unfold resolveEnv. destruct envPath as [p|]; [|left; apply (Hsame c)].
    destruct reply as [[native|]|]; [|left; apply (Hsame c)|left; apply (Hsame c)].
    destruct (toPythonEnvInfo native) as [[item|] lines]; simpl;
      [|left; apply (Hsame c)].
    destruct (find _ _) as [old_item|]; simpl; [|left; apply (Hsame c)].
    right. by eexists.
Qed.

Lemma run_reference ops c :
  _envs c < next_array c ->
  exists evs,
    fired (run ops c) = fired c ++ evs
    /\ _envs (run ops c) < next_array (run ops c)
    /\ if forallb is_created evs
       then _envs (run ops c) = _envs c /\ next_array (run ops c) = next_array c
       else next_array c <= _envs (run ops c).
Proof.
  revert c. induction ops as [|op ops IH]; intros c Hc; simpl.
  - exists []. by rewrite app_nil_r.
  - destruct (apply_op_reference c op)
      as [(evs0 & Hf & Hall & He & Hn)|(ev & Hf & Hev & He & Hn)].
    + destruct (IH (apply_op c op)) as (evs & Hf' & Hlt & Hcase); [lia|].
      exists (evs0 ++ evs). rewrite Hf', Hf, <- app_assoc. split; [done|].
      split; [done|]. rewrite forallb_app, Hall. simpl.
      destruct (forallb is_created evs); [|lia].
      destruct Hcase. split; congruence.
    + destruct (IH (apply_op c op)) as (evs & Hf' & Hlt & Hcase); [lia|].
      exists (ev :: evs). rewrite Hf', Hf, <- app_assoc. split; [done|].
      split; [done|]. simpl. rewrite Hev. simpl.
      destruct (forallb is_created evs); [|lia].
      destruct Hcase. lia.
Qed.

(** Every collection the operations build has the array of [_envs]
    allocated. *)
Lemma reference_allocated ops :
  _envs (run ops new_collection) < next_array (run ops new_collection).
Proof.
  destruct (run_reference ops new_collection) as (evs & _ & Hlt & _);
    [simpl; lia | done].
Qed.

(** C10, as the code has it.  getEnvs returns the reference held in
    [_envs]: the list read through it is the internal list at the time of
    the call.  After any further operations, what a caller writes into that
    array is what the collection holds, for getEnvs and for the next addEnv
    alike, as long as [_envs] still names the array; once it does not, the
    array is stale and writing into it changes nothing of what getEnvs and
    addEnv see.  In a collection whose array is allocated, as every
    collection the operations build is, [_envs] stops naming the array
    exactly when one of the operations replaces an entry, that is, fires a
    Changed event. *)
Theorem getEnvs_returns_internal_array
    (c : Collection) (ops : list Op) (contents : list PythonEnvInfo.t) :
  let held := getEnvs c in
  let later := run ops c in
  let written := array_set held contents later in
  held = _envs c
  /\ deref c held = envs c
  /\ (getEnvs later = held ->
      deref later held = envs later
      /\ envs written = contents
      /\ deref written (getEnvs written) = contents
      /\ forall native,
           (toPythonEnvInfo native).1 = None \/
           exists item, (toPythonEnvInfo native).1 = Some item
             /\ envs (addEnv native written)
                = List.filter (other_path (path_of item)) contents ++ [item])
  /\ (getEnvs later <> held ->
      envs written = envs later
      /\ deref written (getEnvs written) = envs later
      /\ forall native, envs (addEnv native written) = envs (addEnv native later))
  /\ (_envs c < next_array c ->
      exists evs,
        fired later = fired c ++ evs
        /\ (getEnvs later = held <-> forallb is_created evs = true)).
Proof.
  intros held later written.
  split; [done|]. split; [done|]. split; [|split].
  - intros Hheld.
    assert (envs written = contents) as Hset by by apply envs_array_set_held.
    split; [unfold envs; by rewrite <- Hheld|].
    split; [exact Hset|]. split; [exact Hset|].
    intros native. destruct ((toPythonEnvInfo native).1) as [item|] eqn:E;
      [right|by left].
    exists item. split; [done|]. rewrite envs_addEnv, E, Hset.
    destruct (find _ contents) eqn:F; [done|].
    by rewrite (filter_other_path_none _ _ F).
  - intros Hstale.
    assert (envs written = envs later) as Hset by by apply envs_array_set_stale.
    split; [exact Hset|]. split; [exact Hset|].
    intros native. by rewrite !envs_addEnv, Hset.
  - intros Hfresh. destruct (run_reference ops c Hfresh) as (evs & Hf & Hlt & Hcase).
    exists evs. split; [exact Hf|]. unfold getEnvs, held, getEnvs. fold later in Hcase.
    destruct (forallb is_created evs).
    + split; [done|]. intros _. apply Hcase.
    + split; [lia | done].
Qed.

End CollectionClaims.

Lemma collection_one_entry_per_path_witness :
  exists item,
    (toPythonEnvInfo (H:=posix) python_a_again).1 = Some item
    /\ find (has_path (path_of item))
         (envs (addEnv (H:=posix) python_a_again
                  (run (H:=posix) [AddEnv python_a; AddEnv python_b] new_collection)))
       = Some item.
Proof.
  eexists. split; [vm_compute; reflexivity|].
  pose proof (collection_one_entry_per_path (H:=posix)
                [AddEnv python_a; AddEnv python_b]) as (_ & _ & Hadd).
  destruct (Hadd python_a_again _ eq_refl) as (_ & Hfind & _).
  exact Hfind.
Defined.

Lemma resolveEnv_updates_existing_entry_only_witness :
  let c := run (H:=posix) [AddEnv python_a; AddEnv python_b] new_collection in
  let r := resolveEnv_cached (H:=posix) 0 (Some "/a/bin/python")
             (Returned (Some python_a_again)) c in
  let again := resolveEnv_cached (H:=posix) 1000 (Some "/a/bin/python")
                 (Returned (Some python_a)) r.2 in
  exists env,
    r = (Returned (Some env), r.2)
    /\ (path_of <$> envs r.2) = ["/b/bin/python"; "/a/bin/python"]
    /\ find (has_path (path_of env)) (envs r.2) = Some env
    /\ again = (Returned (Some env), again.2)
    /\ again.2 = r.2.
Proof.
  intros c r again. eexists. split; [vm_compute; reflexivity|].
  split; [vm_compute; reflexivity|].
  match goal with
  | |- find _ _ = Some ?e /\ _ =>
      assert (r = (Returned (Some e), r.2)) as Hr by (vm_compute; reflexivity);
      assert (again = (Returned (Some e), again.2)) as Hagain
        by (vm_compute; reflexivity);
      pose proof (resolveEnv_updates_existing_entry_only (H:=posix)
                    _ _ _ _ _ _ Hr) as Hthm;
      pose proof (resolveEnv_updates_existing_entry_only (H:=posix)
                    _ _ _ _ _ _ Hagain) as Hcached
  end.
  vm_compute in Hthm. destruct Hthm as (_ & _ & _ & _ & Hfind).
  split; [vm_compute; exact Hfind|]. split; [exact Hagain|].
  assert (cache_lookup 1000 (Some "/a/bin/python") r.2 <> None) as Hhit
    by (vm_compute; discriminate).
  destruct (cache_lookup 1000 (Some "/a/bin/python") r.2); [|done].
  exact (proj2 Hcached).
Defined.

(** C7 as stated fails: on the empty collection resolveEnv returns the
    environment and the collection stays empty. *)
Lemma resolveEnv_absent_path_not_merged :
  ~ resolve_and_merge (H:=posix) 0 (Some "/a/bin/python")
      (Returned (Some python_a)) new_collection.
Proof.
  intros Hmerge.
  assert (exists env,
    (resolveEnv_cached (H:=posix) 0 (Some "/a/bin/python")
       (Returned (Some python_a)) new_collection).1 = Returned (Some env))
    as [env Henv] by (eexists; vm_compute; reflexivity).
  specialize (Hmerge env Henv).
  vm_compute in Hmerge. inversion Hmerge.
Qed.

Lemma addEnv_invalid_record_dropped_witness :
  NativeEnvInfo.prefix nowhere = None
  /\ NativeEnvInfo.executable nowhere = None
  /\ envs (addEnv (H:=posix) nowhere new_collection) = []
  /\ fired (addEnv (H:=posix) nowhere new_collection) = []
  /\ logged (addEnv (H:=posix) nowhere new_collection) = [InvalidEnvironment nowhere].
Proof.
  split; [reflexivity|]. split; [reflexivity|].
  destruct (addEnv_invalid_record_dropped (H:=posix) nowhere new_collection
              eq_refl eq_refl) as (_ & _ & _ & Henvs & Hfired & _ & Hlogged).
  split; [exact Henvs|]. split; [exact Hfired | exact Hlogged].
Defined.

Lemma addEnv_replacement_moves_to_end_witness :
  let c := run (H:=posix) [AddEnv python_a; AddEnv python_b] new_collection in
  exists item old_item,
    (toPythonEnvInfo (H:=posix) python_a_again).1 = Some item
    /\ find (has_path (path_of item)) (envs c) = Some old_item
    /\ last (envs (addEnv (H:=posix) python_a_again c)) = Some item.
Proof.
  intros c. eexists _, _.
  split; [vm_compute; reflexivity|]. split; [vm_compute; reflexivity|].
  refine (proj1 (proj2 (addEnv_replacement_moves_to_end (H:=posix)
                          python_a_again _ _ c _ _))).
  - vm_compute; reflexivity.
  - vm_compute; reflexivity.
Defined.

(** C9 as stated fails: the old entry of /a/bin/python is first of two, the
    new one ends up second. *)
Lemma addEnv_replacement_not_in_place :
  ~ replaced_in_place (H:=posix) python_a_again
      (run (H:=posix) [AddEnv python_a; AddEnv python_b] new_collection).
Proof.
  intros Hplace.
  assert (exists item,
    (toPythonEnvInfo (H:=posix) python_a_again).1 = Some item)
    as [item Hitem] by (eexists; vm_compute; reflexivity).
  assert (exists old_item,
    envs (run (H:=posix) [AddEnv python_a; AddEnv python_b] new_collection) !! 0
      = Some old_item /\ path_of old_item = "/a/bin/python")
    as [old_item [Hold Hpath]] by (eexists; split; vm_compute; reflexivity).
  specialize (Hplace item old_item 0 Hitem Hold).
  vm_compute in Hitem. injection Hitem as <-.
  specialize (Hplace Hpath).
  vm_compute in Hplace. discriminate Hplace.
Qed.

Lemma getEnvs_returns_internal_array_witness :
  let c := run (H:=posix) [AddEnv python_a] new_collection in
  let held := getEnvs c in
  let appended := run (H:=posix) [AddEnv python_b] c in
  let replaced := run (H:=posix) [AddEnv python_a_again] c in
  (getEnvs appended = held
   /\ envs (array_set held [foreign_entry] appended) = [foreign_entry])
  /\ (getEnvs replaced <> held
      /\ envs (array_set held [foreign_entry] replaced) = envs replaced)
  /\ _envs c < next_array c.
Proof.
  intros c held appended replaced.
  assert (Hheld : getEnvs appended = held) by (vm_compute; reflexivity).
  assert (Hstale : getEnvs replaced <> held)
    by (intros E; vm_compute in E; discriminate E).
  assert (Hfresh : _envs c < next_array c) by (vm_compute; lia).
  destruct (getEnvs_returns_internal_array (H:=posix) c [AddEnv python_b]
              [foreign_entry]) as (_ & _ & Hin & _ & Hsince).
  destruct (getEnvs_returns_internal_array (H:=posix) c [AddEnv python_a_again]
              [foreign_entry]) as (_ & _ & _ & Hout & _).
  destruct (Hsince Hfresh) as (evs & _ & _).
  split; [split; [exact Hheld | exact (proj1 (proj2 (Hin Hheld)))]|].
  split; [split; [exact Hstale | exact (proj1 (Hout Hstale))]|].
  exact Hfresh.
Defined.

(** C10 as stated fails: a push on the list getEnvs returned shows up in
    the collection. *)
Lemma getEnvs_caller_mutation_visible : ~ getEnvs_isolated new_collection.
Proof.
  intros Hiso. specialize (Hiso foreign_entry).
  vm_compute in Hiso. discriminate Hiso.
Qed.

(** ** configure *)

Lemma append_String x (a b : string) : String x a +:+ b = String x (a +:+ b).
Proof. reflexivity. Qed.

Lemma append_empty (b : string) : "" +:+ b = b.
Proof. reflexivity. Qed.

Lemma append_assoc (a b c : string) : (a +:+ b) +:+ c = a +:+ (b +:+ c).
Proof.
  induction a as [|x a IH]; [done|].
  rewrite !append_String. f_equal. exact IH.
Qed.

Lemma JSON_unescape_escape a rest :
  JSON_unescape_head (JSON_escape a +:+ rest) = Some (a, rest).
Proof. destruct a as [[] [] [] [] [] [] [] []]; reflexivity. Qed.

Lemma JSON_escape_all_inj s1 s2 r1 r2 :
  JSON_escape_all s1 +:+ String dquote r1 = JSON_escape_all s2 +:+ String dquote r2 ->
  s1 = s2 /\ r1 = r2.
Proof.
  revert s2. induction s1 as [|a s1 IH]; intros [|b s2];
    cbn [JSON_escape_all]; rewrite ?append_empty; intros Heq.
  - by injection Heq as ->.
  - apply (f_equal JSON_unescape_head) in Heq.
    rewrite append_assoc, JSON_unescape_escape in Heq. discriminate Heq.
  - apply (f_equal JSON_unescape_head) in Heq.
    rewrite append_assoc, JSON_unescape_escape in Heq. discriminate Heq.
  - apply (f_equal JSON_unescape_head) in Heq.
    rewrite !append_assoc, !JSON_unescape_escape in Heq.
    injection Heq as -> Heq. destruct (IH _ Heq) as [-> ->]. done.
Qed.

Lemma JSON_string_inj s1 s2 r1 r2 :
  JSON_string s1 +:+ r1 = JSON_string s2 +:+ r2 -> s1 = s2 /\ r1 = r2.
Proof.
  unfold JSON_string. rewrite !append_String, !append_assoc, !append_String, !append_empty.
  intros [= Heq]. by apply JSON_escape_all_inj.
Qed.

Lemma JSON_string_head s r : exists r', JSON_string s +:+ r = String dquote r'.
Proof. unfold JSON_string. rewrite append_String. eauto. Qed.

Lemma JSON_elements_cons s t l :
  JSON_elements (s :: t :: l) = JSON_string s +:+ "," +:+ JSON_elements (t :: l).
Proof. reflexivity. Qed.

Lemma JSON_elements_inj l1 l2 r1 r2 :
  JSON_elements l1 +:+ String "]" r1 = JSON_elements l2 +:+ String "]" r2 ->
  l1 = l2 /\ r1 = r2.
Proof.
  revert l2. induction l1 as [|s1 l1 IH]; intros [|s2 l2] Heq.
  - cbn [JSON_elements] in Heq. rewrite !append_empty in Heq. by injection Heq as ->.
  - exfalso. cbn [JSON_elements] in Heq. rewrite append_empty in Heq.
    destruct l2 as [|t2 l2].
    + destruct (JSON_string_head s2 (String "]" r2)) as [r' Hr'].
      rewrite Hr' in Heq. discriminate.
    + rewrite append_assoc in Heq.
      destruct (JSON_string_head s2
                  (("," +:+ JSON_elements (t2 :: l2)) +:+ String "]" r2)) as [r' Hr'].
      rewrite Hr' in Heq. discriminate.
  - exfalso. cbn [JSON_elements] in Heq. rewrite append_empty in Heq.
    destruct l1 as [|t1 l1].
    + destruct (JSON_string_head s1 (String "]" r1)) as [r' Hr'].
      rewrite Hr' in Heq. discriminate.
    + rewrite append_assoc in Heq.
      destruct (JSON_string_head s1
                  (("," +:+ JSON_elements (t1 :: l1)) +:+ String "]" r1)) as [r' Hr'].
      rewrite Hr' in Heq. discriminate.
  - destruct l1 as [|t1 l1], l2 as [|t2 l2].
    + cbn [JSON_elements] in Heq. apply JSON_string_inj in Heq as [-> [= ->]]. done.
    + exfalso. rewrite JSON_elements_cons in Heq. cbn [JSON_elements] in Heq.
      rewrite append_assoc in Heq.
      apply JSON_string_inj in Heq as [_ Heq].
      rewrite append_assoc, append_String in Heq. discriminate.
    + exfalso. rewrite JSON_elements_cons in Heq. cbn [JSON_elements] in Heq.
      rewrite append_assoc in Heq.
      apply JSON_string_inj in Heq as [_ Heq].
      rewrite append_assoc, append_String in Heq. discriminate.
    + rewrite !JSON_elements_cons, !append_assoc in Heq.
      apply JSON_string_inj in Heq as [-> Heq].
      rewrite ?append_assoc, !append_String, !append_empty in Heq.
      injection Heq as Heq. destruct (IH (t2 :: l2) Heq) as [[= -> ->] ->]. done.
Qed.

Lemma JSON_array_inj l1 l2 r1 r2 :
  JSON_array l1 +:+ r1 = JSON_array l2 +:+ r2 -> l1 = l2 /\ r1 = r2.
Proof.
  unfold JSON_array. rewrite !append_assoc, !append_String, !append_empty.
  intros [= Heq]. by apply JSON_elements_inj.
Qed.

Lemma JSON_optional_members_inj c1 p1 c2 p2 :
  JSON_optional_member "condaExecutable" c1
    +:+ JSON_optional_member "poetryExecutable" p1 +:+ "}"
  = JSON_optional_member "condaExecutable" c2
    +:+ JSON_optional_member "poetryExecutable" p2 +:+ "}" ->
  c1 = c2 /\ p1 = p2.
Proof.
  assert (forall k v r1 r2 v', 
            JSON_optional_member k (Some v) +:+ r1
            = JSON_optional_member k (Some v') +:+ r2 -> v = v' /\ r1 = r2) as Hsome.
  { intros k v r1 r2 v'. unfold JSON_optional_member.
    rewrite !append_assoc. intros Heq.
    apply (inj (append ",")) in Heq. apply (inj (append (JSON_string k))) in Heq.
    apply (inj (append ":")) in Heq. by apply JSON_string_inj in Heq. }
  assert (forall p, JSON_optional_member "poetryExecutable" p +:+ "}" = "}" -> p = None) as Hend.
  { intros [v|] Heq; [|done]. discriminate Heq. }
  destruct c1 as [c1|], c2 as [c2|].
  - intros Heq. apply Hsome in Heq as [-> Heq].
    destruct p1 as [p1|], p2 as [p2|]; try discriminate Heq; [|done].
    apply Hsome in Heq as [-> _]. done.
  - intros Heq. exfalso. destruct p2 as [p2|]; [|discriminate Heq].
    apply (f_equal (String.get 2)) in Heq. cbv in Heq. discriminate Heq.
  - intros Heq. exfalso. destruct p1 as [p1|]; [|discriminate Heq].
    apply (f_equal (String.get 2)) in Heq. cbv in Heq. discriminate Heq.
  - change (JSON_optional_member "condaExecutable" None) with "".
    rewrite !append_empty. intros Heq.
    destruct p1 as [p1|], p2 as [p2|]; try discriminate Heq; [|done].
    apply Hsome in Heq as [-> _]. done.
Qed.

Lemma JSON_stringify_inj o1 o2 :
  JSON_stringify o1 = JSON_stringify o2 -> o1 = o2.
Proof.
  destruct o1 as [w1 e1 c1 p1], o2 as [w2 e2 c2 p2].
  unfold JSON_stringify.
  cbn [workspaceDirectories environmentDirectories condaExecutable poetryExecutable].
  intros Heq.
  apply (inj (append "{")) in Heq.
  apply (inj (append (JSON_string "workspaceDirectories"))) in Heq.
  apply (inj (append ":")) in Heq.
  apply JSON_array_inj in Heq as [-> Heq].
  apply (inj (append ",")) in Heq.
  apply (inj (append (JSON_string "environmentDirectories"))) in Heq.
  apply (inj (append ":")) in Heq.
  apply JSON_array_inj in Heq as [-> Heq].
  apply JSON_optional_members_inj in Heq as [-> ->]. done.
Qed.

Lemma JSON_stringify_eqb o1 o2 :
  String.eqb (JSON_stringify o1) (JSON_stringify o2) = true <-> o1 = o2.
Proof.
  rewrite String.eqb_eq. split; [apply JSON_stringify_inj | by intros ->].
Qed.

Lemma JSON_stringify_not_empty_object options :
  String.eqb (JSON_stringify options) "{}" = false.
Proof. reflexivity. Qed.

Lemma configure_same_again options conn :
  configure options (configure options conn) = configure options conn.
Proof.
  unfold configure at 2.
  destruct (String.eqb _ (JSON_stringify_last (lastConfiguration conn))) eqn:E.
  - reflexivity.
  - unfold configure. cbn [lastConfiguration JSON_stringify_last].
    by rewrite String.eqb_refl, E.
Qed.

Lemma configure_remembers options conn :
  lastConfiguration (configure options conn) = Some options.
Proof.
  unfold configure.
  destruct (String.eqb _ (JSON_stringify_last (lastConfiguration conn))) eqn:E; [|done].
  destruct (lastConfiguration conn) as [kept|]; cbn [JSON_stringify_last] in E.
  - apply JSON_stringify_eqb in E. by subst kept.
  - by rewrite JSON_stringify_not_empty_object in E.
Qed.

Lemma configure_skips_iff_equal other kept conn :
  lastConfiguration conn = Some kept ->
  configure other conn = conn <-> other = kept.
Proof.
  intros Hkept. unfold configure. rewrite Hkept. cbn [JSON_stringify_last].
  destruct (String.eqb (JSON_stringify other) (JSON_stringify kept)) eqn:E.
  - apply JSON_stringify_eqb in E. done.
  - split.
    + intros Heq. apply (f_equal (fun c => length (sent c))) in Heq.
      simpl in Heq. rewrite length_app in Heq. simpl in Heq. lia.
    + intros ->. by rewrite String.eqb_refl in E.
Qed.

(** C5. Two configure calls in succession with structurally equal options:
    the second finds the serialized snapshot equal to the one kept by the
    first and sends nothing, so that the pair sends the request of the
    first call only; on a finder that has not configured yet this is
    exactly one request.  Comparing the serialized snapshots is comparing
    the snapshots: a call after the first sends nothing exactly when its
    snapshot equals the one kept. *)
Theorem configure_twice_sends_once
    (first second : ConfigurationOptions) (conn : Connection) :
  first = second ->
  let once := configure first conn in
  let twice := configure second once in
  twice = once
  /\ sent twice
     = (if String.eqb (JSON_stringify first)
             (JSON_stringify_last (lastConfiguration conn))
        then sent conn
        else sent conn ++ [ConfigureRequest first])
  /\ sent (configure second (configure first new_connection))
     = [ConfigureRequest first]
  /\ lastConfiguration once = Some first
  /\ (forall other, configure other once = once <-> other = first).
Proof.
  intros <- once twice. subst once twice.
  rewrite configure_same_again. split; [done|]. split; [|split; [|split]].
  - unfold configure. by destruct (String.eqb _ _).
  - rewrite configure_same_again. unfold configure.
    cbn [lastConfiguration new_connection JSON_stringify_last].
    by rewrite JSON_stringify_not_empty_object.
  - apply configure_remembers.
  - intros other. apply configure_skips_iff_equal, configure_remembers.
Qed.

Lemma configure_twice_sends_once_witness :
  settings = settings
  /\ count_configure (configure settings (configure settings new_connection)) = 1.
Proof.
  split; [reflexivity|].
  destruct (configure_twice_sends_once settings settings new_connection eq_refl)
    as (_ & _ & Hsent & _).
  unfold count_configure. rewrite Hsent. reflexivity.
Defined.

(** The serialization on an example. *)
Example JSON_stringify_settings :
  JSON_stringify
    {| workspaceDirectories := ["/w"];
       environmentDirectories := [];
       condaExecutable := None;
       poetryExecutable := Some "poetry" |}
  = "{" +:+ JSON_string "workspaceDirectories" +:+ ":[" +:+ JSON_string "/w"
    +:+ "]," +:+ JSON_string "environmentDirectories" +:+ ":[],"
    +:+ JSON_string "poetryExecutable" +:+ ":" +:+ JSON_string "poetry" +:+ "}".
Proof. reflexivity. Qed.

(** ** doRefresh: when the completion signal fires *)

Lemma tracked_doRefresh : tracked_in_order doRefresh.
Proof.
  split; [done|]. split; [done|].
  apply Forall_singleton. done.
Qed.

Lemma tracked_notify r :
  tracked_in_order r -> tracked_in_order (notifyUponCompletion r).
Proof.
  intros (Hp & Hq & Hw). split; [done|]. split; [done|]. simpl.
  apply Forall_app. split; [done|]. by apply Forall_singleton.
Qed.

Lemma tracked_send_track q what r :
  tracked_in_order r ->
  tracked_in_order (trackPromiseAndNotifyOnCompletion what (send q r)).
Proof.
  intros (Hp & Hq & Hw). apply tracked_notify. split; [|split]; simpl.
  - rewrite length_app, Hp. simpl. rewrite Nat.add_1_r, seq_S. done.
  - rewrite !length_app, Hq. done.
  - eapply Forall_impl; [exact Hw|]. intros w [Hpre Hlen]. split; [|done].
    by apply prefix_app_r.
Qed.

Lemma tracked_info entry r : tracked_in_order r -> tracked_in_order (info entry r).
Proof. done. Qed.

Lemma tracked_fire data r : tracked_in_order r -> tracked_in_order (fire data r).
Proof. unfold fire. by destruct (disposed r). Qed.

Lemma tracked_set_settlement p s r :
  tracked_in_order r -> tracked_in_order (set_settlement p s r).
Proof.
  intros (Hp & Hq & Hw). unfold set_settlement.
  destruct (promises r !! p) as [[what s']|] eqn:E; [|done].
  split; [|split]; simpl; [|by rewrite length_insert|done].
  by rewrite length_insert.
Qed.

Lemma tracked_remove_waiting k r :
  tracked_in_order r -> tracked_in_order (remove_waiting k r).
Proof.
  intros (Hp & Hq & Hw). split; [done|]. split; [done|]. simpl.
  by apply Forall_delete.
Qed.

Lemma tracked_step r ev : tracked_in_order r -> tracked_in_order (refresh_step r ev).
Proof.
  intros Hr. destruct ev as [data|data|p reply|k| |]; simpl.
  - unfold on_environment. destruct (disposed r); [done|].
    destruct (needs_resolve data).
    + by apply tracked_send_track.
    + by apply tracked_fire, tracked_info.
  - unfold on_manager. destruct (disposed r); [done|]. by apply tracked_fire.
  - unfold settle. destruct (promises r !! p) as [[[|data] []]|]; try done.
    + by apply tracked_set_settlement.
    + apply tracked_set_settlement. destruct reply; [|done].
      by apply tracked_fire, tracked_info.
  - unfold all_settled. destruct (waiting r !! k) as [[taken initialCount]|]; [|done].
    destruct (forallb _ taken).
    + destruct (Nat.eqb _ _); by apply tracked_remove_waiting.
    + destruct (existsb _ taken); [by apply tracked_remove_waiting | done].
  - unfold timeout. destruct (timers r); [done|]. by apply tracked_notify.
  - unfold finally_dispose. by destruct (completed r).
Qed.

Lemma tracked_run evs r :
  tracked_in_order r -> tracked_in_order (refresh_run evs r).
Proof.
  revert r. induction evs as [|ev evs IH]; intros r Hr; simpl; [done|].
  by apply IH, tracked_step.
Qed.

Lemma completed_fire data r : completed (fire data r) = completed r.
Proof. unfold fire. by destruct (disposed r). Qed.

(** Only the [then] of a [Promise.all] resolves [completed]. *)
Lemma completed_by_all_settled r ev :
  completed r = false ->
  completed (refresh_step r ev) = true ->
  exists k taken,
    ev = AllSettled k
    /\ waiting r !! k = Some (taken, length (pendingPromises r))
    /\ forallb (fun p => is_fulfilled (settlement_of r p)) taken = true.
Proof.
  intros Hno Hyes. destruct ev as [data|data|p reply|k| |]; simpl in Hyes.
  - exfalso. unfold on_environment in Hyes. destruct (disposed r) eqn:D; [congruence|].
    destruct (needs_resolve data); simpl in Hyes; [congruence|].
    rewrite completed_fire in Hyes. simpl in Hyes. congruence.
  - exfalso. unfold on_manager in Hyes. destruct (disposed r) eqn:D; [congruence|].
    rewrite completed_fire in Hyes. congruence.
  - exfalso. unfold settle in Hyes.
    destruct (promises r !! p) as [[[|data] []]|]; simpl in Hyes; try congruence.
    destruct reply; [rewrite completed_fire in Hyes|]; simpl in Hyes; congruence.
  - exists k. unfold all_settled in Hyes.
    destruct (waiting r !! k) as [[taken initialCount]|] eqn:W; [|congruence].
    exists taken.
    destruct (forallb _ taken) eqn:F.
    + destruct (Nat.eqb initialCount (length (pendingPromises r))) eqn:N;
        simpl in Hyes; [|congruence].
      apply Nat.eqb_eq in N. subst initialCount. done.
    + destruct (existsb _ taken); simpl in Hyes; congruence.
  - exfalso. unfold timeout in Hyes. destruct (timers r); simpl in Hyes; congruence.
  - exfalso. unfold finally_dispose in Hyes. rewrite Hno in Hyes. congruence.
Qed.

(** C2. In every run of a doRefresh, the step at which the completion
    signal fires is the [then] of a [Promise.all] that finds the number of
    pending promises unchanged since it started waiting; at that step
    every tracked promise, that of the refresh request and those of the
    resolve sub-requests, has settled, and every request sent has its
    tracked promise. *)
Theorem completion_waits_for_all_requests
    (evs : list RefreshEvent) (ev : RefreshEvent) :
  let r := refresh_run evs doRefresh in
  completed r = false ->
  completed (refresh_step r ev) = true ->
  none_outstanding r = true
  /\ length (requests r) = length (promises r)
  /\ (forall p what s, promises r !! p = Some (what, s) -> s = Fulfilled)
  /\ exists k,
       ev = AllSettled k
       /\ waiting r !! k = Some (pendingPromises r, length (pendingPromises r)).
Proof.
  intros r Hno Hyes.
  destruct (completed_by_all_settled r ev Hno Hyes) as (k & taken & -> & Hw & Hall).
  destruct (tracked_run evs doRefresh tracked_doRefresh) as (Hp & Hq & Hwait).
  fold r in Hp, Hq, Hwait.
  assert (taken = pendingPromises r) as ->.
  { rewrite Forall_lookup in Hwait. destruct (Hwait k _ Hw) as [Hpre Hlen].
    simpl in *. apply prefix_length_eq; [done | lia]. }
  split; [exact Hall|]. split; [exact Hq|]. split; [|by exists k].
  intros p what s Hps.
  assert (p < length (promises r)) as Hlt by (eapply lookup_lt_Some; exact Hps).
  rewrite Hp in Hall. rewrite forallb_forall in Hall.
  specialize (Hall p). unfold settlement_of in Hall. rewrite Hps in Hall.
  assert (is_fulfilled s = true) as Hs.
  { apply Hall. apply in_seq. lia. }
  by destruct s.
Qed.

Lemma completion_waits_for_all_requests_witness :
  let r := refresh_run
             [Environment unresolved_venv;
              Settle 0 (Returned unresolved_venv);
              Settle 1 (Returned resolved_venv)] doRefresh in
  completed r = false
  /\ completed (refresh_step r (AllSettled 1)) = true
  /\ none_outstanding r = true
  /\ discovered r = [EnvironmentRecord resolved_venv].
Proof.
  intros r. split; [reflexivity|]. split; [reflexivity|].
  split; [|reflexivity].
  exact (proj1 (completion_waits_for_all_requests
                  [Environment unresolved_venv;
                   Settle 0 (Returned unresolved_venv);
                   Settle 1 (Returned resolved_venv)]
                  (AllSettled 1) eq_refl eq_refl)).
Defined.

(** The refresh request has returned and the resolve is still outstanding:
    the first [Promise.all] finds a new pending promise and only sets a
    timer; completion comes after the resolve has settled. *)
Example completion_rechecks_after_refresh_returned :
  let waiting_for_resolve :=
    refresh_run
      [Environment unresolved_venv; Settle 0 (Returned unresolved_venv);
       AllSettled 0; AllSettled 0; Timeout; AllSettled 0] doRefresh in
  completed waiting_for_resolve = false
  /\ timers waiting_for_resolve = 0
  /\ length (waiting waiting_for_resolve) = 2
  /\ completed
       (refresh_run [Settle 1 (Returned resolved_venv); AllSettled 0]
          waiting_for_resolve) = true.
Proof. vm_compute. done. Qed.

(** ** triggerRefresh: one refresh in flight *)

Lemma single_flight_flight d d' :
  flight d' = flight d -> single_flight d -> single_flight d'.
Proof.
  unfold flight, single_flight. intros [= -> -> -> -> -> -> -> -> ->]. done.
Qed.

Lemma count_started_snoc stages stage :
  count_started (stages ++ [stage])
  = count_started stages
    + (if ProgressReportStage.eqb ProgressReportStage.discoveryStarted stage
       then 1 else 0).
Proof.
  unfold count_started. rewrite List.filter_app, length_app.
  f_equal. by destruct stage.
Qed.

Section RefreshProperties.
Context `{Host}.

Lemma flight_loop_body native d : flight (loop_body native d) = flight d.
Proof.
  unfold loop_body. destruct (isNativeInfoEnvironment native); simpl; [|done].
  destruct (validEnv _) as [[] lines]; simpl; [|done].
  destruct (disposition _) as [[| |] lines']; done.
Qed.

Lemma flight_resolve_settled k reply d :
  flight (resolve_settled k reply d) = flight d.
Proof.
  unfold resolve_settled. destruct (resolving d !! k); [|done].
  destruct reply as [[env|]|]; done.
Qed.


Lemma triggerRefresh_shared d p :
  refreshState d = ProgressReportStage.discoveryStarted ->
  _refreshPromise d = Some p ->
  triggerRefresh d
  = (Some p, with_collection (trace [RefreshStarted] (collection d)) d).
Proof. intros S P. unfold triggerRefresh. simpl. by rewrite S, P. Qed.

Lemma single_flight_new : single_flight new_discovery.
Proof. done. Qed.

Lemma single_flight_triggerRefresh d :
  single_flight d -> single_flight (triggerRefresh d).2.
Proof.
  intros Hd.
  assert (refreshState d <> ProgressReportStage.discoveryStarted ->
          single_flight (triggerRefresh d).2) as Hfresh.
  { intros Hns. destruct Hd as (Hstate & Hcalls & Hdo & Hfirst).
    assert (_refreshPromise d = None /\ immediates d + iterating d = 0)
      as [Hnone Hzero] by (by destruct (refreshState d)).
    assert ((triggerRefresh d).2
            = {| collection := trace [RefreshStarted] (collection d);
                 refreshState := ProgressReportStage.discoveryStarted;
                 _refreshPromise := Some (length (deferreds d));
                 deferreds := deferreds d ++ [Pending];
                 progress := progress d ++ [ProgressReportStage.discoveryStarted];
                 immediates := S (immediates d);
                 iterating := iterating d;
                 refresh_calls := refresh_calls d;
                 firstRefreshResults := firstRefreshResults d;
                 doRefresh_calls := doRefresh_calls d;
                 resolving := resolving d |}) as ->.
    { unfold triggerRefresh. simpl. by destruct (refreshState d). }
    split; [|split; [|done]]; simpl.
    - split; [|lia]. exists (length (deferreds d)). split; [done|].
      by rewrite lookup_app_r, Nat.sub_diag by lia.
    - rewrite count_started_snoc. simpl. lia. }
  destruct (refreshState d) eqn:S; try (apply Hfresh; discriminate).
  destruct Hd as (Hstate & Hrest). rewrite S in Hstate.
  destruct Hstate as ((p & Hp & Hpending) & Hone).
  rewrite (triggerRefresh_shared d p S Hp). simpl.
  split; [|exact Hrest]. simpl. rewrite S. split; [by exists p | done].
Qed.

Lemma single_flight_immediate d : single_flight d -> single_flight (immediate d).
Proof.
  intros Hd. unfold immediate. destruct (immediates d) as [|n] eqn:I; [done|].
  destruct Hd as (Hstate & Hcalls & Hdo & Hfirst). rewrite I in *.
  split; [|split; [|split]]; simpl.
  - destruct (refreshState d); simpl in *; try lia.
    destruct Hstate as [Hp Hone]. split; [done|lia].
  - lia.
  - destruct (firstRefreshResults d); [rewrite Hfirst by done; lia | lia].
  - done.
Qed.

Lemma single_flight_loop_done ok d : single_flight d -> single_flight (loop_done ok d).
Proof.
  intros Hd. unfold loop_done. destruct (iterating d) as [|n] eqn:I; [done|].
  destruct Hd as (Hstate & Hcalls & Hdo & Hfirst). rewrite I in *.
  split; [|split; [|split]]; simpl.
  - destruct (refreshState d); simpl in *; try lia.
    destruct Hstate as [_ Hone]. split; [done|lia].
  - rewrite count_started_snoc. simpl. lia.
  - done.
  - done.
Qed.

Lemma single_flight_step d t : single_flight d -> single_flight (task_step d t).
Proof.
  intros Hd. destruct t as [| |native|ok|k reply|op]; simpl.
  - by apply single_flight_triggerRefresh.
  - by apply single_flight_immediate.
  - destruct (iterating d); [done|].
    eapply single_flight_flight; [apply flight_loop_body | done].
  - by apply single_flight_loop_done.
  - eapply single_flight_flight; [apply flight_resolve_settled | done].
  - eapply single_flight_flight; [|exact Hd]. done.
Qed.





End RefreshProperties.


(** ** What is resolved and what is added as it is *)

Ltac traced :=
  unfold mbind, mret, Traced_bind, Traced_ret, andThen, pure, tell in *.

Lemma trace_nil c : trace [] c = c.
Proof. destruct c. unfold trace. simpl. by rewrite app_nil_r. Qed.

Lemma truthy_Some s : truthy (Some s) = true <-> s <> "".
Proof.
  unfold truthy, nonempty. rewrite negb_true_iff. apply String.eqb_neq.
Qed.

Lemma on_environment_resolve data r :
  disposed r = false ->
  needs_resolve data = true ->
  on_environment data r
  = trackPromiseAndNotifyOnCompletion (TrackedResolve data)
      (send (ResolveRequest (default "" (NativeEnvInfo.executable data)))
         (info (Discovered data) r)).
Proof. intros D N. unfold on_environment. by rewrite D, N. Qed.

Lemma on_environment_as_is data r :
  disposed r = false ->
  needs_resolve data = false ->
  on_environment data r
  = {| promises := promises r;
       pendingPromises := pendingPromises r;
       waiting := waiting r;
       timers := timers r;
       completed := completed r;
       disposed := false;
       discovered := discovered r ++ [EnvironmentRecord data];
       requests := requests r;
       channel := channel r ++ [Discovered data] |}.
Proof.
  intros D N. unfold on_environment. rewrite D, N. unfold fire. simpl.
  by rewrite D.
Qed.

Section RefreshClaims.
Context `{Host}.

Lemma validEnv_executable native e :
  NativeEnvInfo.executable native = Some e -> validEnv native = (true, []).
Proof. intros He. unfold validEnv. rewrite He. by destruct (NativeEnvInfo.prefix native). Qed.

Lemma validEnv_prefix native p :
  NativeEnvInfo.prefix native = Some p -> validEnv native = (true, []).
Proof. intros Hp. unfold validEnv. by rewrite Hp. Qed.

Lemma loop_body_valid native d :
  (validEnv native).1 = true ->
  loop_body (EnvironmentRecord native) d
  = let d1 := with_collection
                (trace (disposition native).2
                   (trace (validEnv native).2 (collection d))) d in
    match (disposition native).1 with
    | AddedAsIs => with_collection (addEnv native (collection d1)) d1
    | ResolveFirst envPath => with_resolving (resolving d1 ++ [envPath]) d1
    | Failed => d1
    end.
Proof.
  intros Hv. unfold loop_body. simpl.
  destruct (validEnv native) as [valid lines]. simpl in *. subst valid. simpl.
  destruct (disposition native) as [[| |] lines']; done.
Qed.

(** C6. A conda record with a prefix and no executable: the finder fires
    it as it came and sends no resolve request; the refresh loop calls
    addEnv on it and no finder.resolve; addEnv puts into the collection an
    entry of type Conda whose location is the prefix. *)
Theorem conda_prefix_only_added_as_is (native : NativeEnvInfo.t) (p : string) :
  NativeEnvInfo.kind native = Some "Conda" ->
  NativeEnvInfo.executable native = None ->
  NativeEnvInfo.prefix native = Some p ->
  (forall r, disposed r = false ->
     discovered (on_environment native r) = discovered r ++ [EnvironmentRecord native]
     /\ requests (on_environment native r) = requests r
     /\ promises (on_environment native r) = promises r)
  /\ disposition native = (AddedAsIs, [])
  /\ (forall d,
        resolving (loop_body (EnvironmentRecord native) d) = resolving d
        /\ collection (loop_body (EnvironmentRecord native) d)
           = addEnv native (collection d))
  /\ exists item,
       toPythonEnvInfo native = (Some item, [])
       /\ PythonEnvInfo.type item = Some PythonEnvType.Conda
       /\ PythonEnvInfo.kind item = PythonEnvKind.Conda
       /\ PythonEnvInfo.location item = p
       /\ forall c, find (has_path (path_of item)) (envs (addEnv native c)) = Some item
                    /\ item ∈ envs (addEnv native c).
Proof.
  intros Hkind Hexe Hprefix.
  assert (needs_resolve native = false) as Hneeds.
  { unfold needs_resolve. by rewrite Hexe. }
  assert (disposition native = (AddedAsIs, [])) as Hdisp.
  { unfold disposition. rewrite Hkind, Hexe. reflexivity. }
  split; [|split; [exact Hdisp|split]].
  - intros r D. by rewrite (on_environment_as_is native r D Hneeds).
  - intros d. rewrite loop_body_valid
      by (by rewrite (validEnv_prefix native p Hprefix)).
    rewrite Hdisp, (validEnv_prefix native p Hprefix). simpl.
    by rewrite !trace_nil.
  - eexists. split.
    { unfold toPythonEnvInfo. rewrite (validEnv_prefix native p Hprefix), Hkind.
      reflexivity. }
    simpl. split; [done|]. split; [done|]. split.
    { unfold getLocation. rewrite Hprefix, Hexe. simpl.
      destruct (nonempty p) eqn:E; [done|].
      unfold nonempty in E. apply negb_false_iff, String.eqb_eq in E. done. }
    intros c.
    match goal with
    | |- find (has_path (path_of ?it)) _ = _ /\ _ =>
        assert ((toPythonEnvInfo native).1 = Some it) as Hitem
    end.
    { unfold toPythonEnvInfo. rewrite (validEnv_prefix native p Hprefix), Hkind.
      reflexivity. }
    match type of Hitem with
    | _ = Some ?it =>
        assert (find (has_path (path_of it)) (envs (addEnv native c)) = Some it)
          as Hfind
    end.
    { rewrite addEnv_unfold, Hitem.
      match goal with
      | |- context [has_path (path_of ?it)] =>
          assert (has_path (path_of it) it = true) as Hself
            by by apply has_path_true
      end.
      destruct (find _ (envs c)) as [old_item|] eqn:F.
      - rewrite envs_filter_push_changed, envs_trace.
        rewrite (find_app_None _ _ _ (find_filter_same _ _)).
        simpl find. by rewrite Hself.
      - rewrite envs_push_created, envs_trace.
        rewrite (find_app_None _ _ _ F). simpl find. by rewrite Hself. }
    split; [exact Hfind|]. by apply find_has_path_Some in Hfind as [Hin _].
Qed.

End RefreshClaims.

Lemma conda_prefix_only_added_as_is_witness :
  NativeEnvInfo.kind conda_foo = Some "Conda"
  /\ NativeEnvInfo.executable conda_foo = None
  /\ NativeEnvInfo.prefix conda_foo = Some "/opt/conda/envs/foo"
  /\ exists item,
       envs (addEnv (H:=posix) conda_foo new_collection) = [item]
       /\ PythonEnvInfo.type item = Some PythonEnvType.Conda
       /\ PythonEnvInfo.location item = "/opt/conda/envs/foo"
       /\ path_of item = "/opt/conda/envs/foo/python".
Proof.
  split; [reflexivity|]. split; [reflexivity|]. split; [reflexivity|].
  destruct (conda_prefix_only_added_as_is (H:=posix) conda_foo
              "/opt/conda/envs/foo" eq_refl eq_refl eq_refl)
    as (_ & _ & _ & item & Hitem & Htype & _ & Hloc & _).
  exists item. split; [|split; [exact Htype|split; [exact Hloc|]]].
  - unfold addEnv. rewrite Hitem. reflexivity.
  - injection Hitem as <-. reflexivity.
Defined.

Section ResolveOrAddClaims.
Context `{Host}.

Lemma settle_resolve_returned p data environment r :
  disposed r = false ->
  promises r !! p = Some (TrackedResolve data, Pending) ->
  discovered (settle p (Returned environment) r)
  = discovered r ++ [EnvironmentRecord environment].
Proof.
  intros D P. unfold settle. rewrite P. unfold set_settlement, fire. simpl.
  by rewrite D.
Qed.

Lemma settle_resolve_threw p data r :
  promises r !! p = Some (TrackedResolve data, Pending) ->
  discovered (settle p Threw r) = discovered r.
Proof. intros P. unfold settle. by rewrite P. Qed.

Lemma disposition_resolve_first native e :
  NativeEnvInfo.executable native = Some e ->
  e <> "" ->
  truthy (NativeEnvInfo.version native) = false
  \/ some_component_unknown
       (parseVersion (default "" (NativeEnvInfo.version native))) = true ->
  (disposition native).1 = ResolveFirst e.
Proof.
  intros He Hne Hv. apply truthy_Some in Hne.
  unfold disposition. rewrite He.
  destruct (categoryToKind (NativeEnvInfo.kind native)) as [kind lines].
  traced. rewrite Hne, andb_false_r. simpl.
  destruct (truthy (NativeEnvInfo.version native)); simpl.
  - destruct Hv as [Hv|Hv]; [done|]. by rewrite Hv.
  - done.
Qed.

Lemma disposition_added_as_is native :
  truthy (NativeEnvInfo.version native) = true ->
  truthy (NativeEnvInfo.prefix native) = true ->
  all_components_known
    (parseVersion (default "" (NativeEnvInfo.version native))) = true ->
  NativeEnvInfo.executable native <> Some "" ->
  (disposition native).1 = AddedAsIs.
Proof.
  intros Hv Hp Hk He. unfold disposition.
  destruct (categoryToKind (NativeEnvInfo.kind native)) as [kind lines].
  traced. rewrite Hv.
  destruct (PythonEnvKind.eqb kind PythonEnvKind.Conda
            && negb (truthy (NativeEnvInfo.executable native))); [done|].
  assert (some_component_unknown
            (parseVersion (default "" (NativeEnvInfo.version native))) = false) as Hu.
  { unfold all_components_known in Hk. unfold some_component_unknown.
    apply andb_true_iff in Hk as [Hk Hmicro]. apply andb_true_iff in Hk as [Hmajor Hminor].
    apply Z.leb_le in Hmajor, Hminor, Hmicro.
    rewrite !orb_false_iff, !Z.ltb_ge. done. }
  rewrite Hu, Hk, andb_false_r, andb_true_r.
  assert (truthy match NativeEnvInfo.executable native with
                 | Some e => Some e
                 | None => NativeEnvInfo.prefix native
                 end = true) as ->.
  { destruct (NativeEnvInfo.executable native) as [e|]; [|done].
    apply truthy_Some. congruence. }
  done.
Qed.

(** C4, as the code has it.  A record with a non-empty executable: when
    its version or its prefix is missing the finder sends a resolve request
    for the executable and fires nothing until the answer, which is what it
    then fires; when its version is missing or has a component below 0 the
    refresh loop calls finder.resolve on the executable, adds nothing, and
    calls addEnv on the answer when it comes.  A record with version and
    prefix and all version components at least 0, whose executable is not
    the empty string, is fired by the finder and passed to addEnv as it
    came, with no resolve. *)
Theorem underspecified_resolved_complete_added_as_is :
  (forall (data : NativeEnvInfo.t) (e : string),
     NativeEnvInfo.executable data = Some e ->
     e <> "" ->
     (truthy (NativeEnvInfo.version data) = false
      \/ truthy (NativeEnvInfo.prefix data) = false ->
      forall r, disposed r = false ->
        let r' := on_environment data r in
        let p := length (promises r) in
        requests r' = requests r ++ [ResolveRequest e]
        /\ discovered r' = discovered r
        /\ promises r' !! p = Some (TrackedResolve data, Pending)
        /\ (forall environment,
              discovered (settle p (Returned environment) r')
              = discovered r ++ [EnvironmentRecord environment])
        /\ discovered (settle p Threw r') = discovered r)
     /\ (truthy (NativeEnvInfo.version data) = false
         \/ some_component_unknown
              (parseVersion (default "" (NativeEnvInfo.version data))) = true ->
         forall d,
           let d' := loop_body (EnvironmentRecord data) d in
           let k := length (resolving d) in
           (disposition data).1 = ResolveFirst e
           /\ resolving d' = resolving d ++ [e]
           /\ envs (collection d') = envs (collection d)
           /\ fired (collection d') = fired (collection d)
           /\ (forall env,
                 collection (resolve_settled k (Returned (Some env)) d')
                 = addEnv env (collection d'))
           /\ collection (resolve_settled k (Returned None) d') = collection d'
           /\ collection (resolve_settled k Threw d') = collection d'))
  /\ (forall native,
        truthy (NativeEnvInfo.version native) = true ->
        truthy (NativeEnvInfo.prefix native) = true ->
        all_components_known
          (parseVersion (default "" (NativeEnvInfo.version native))) = true ->
        NativeEnvInfo.executable native <> Some "" ->
        (forall r, disposed r = false ->
           discovered (on_environment native r)
           = discovered r ++ [EnvironmentRecord native]
           /\ requests (on_environment native r) = requests r)
        /\ (disposition native).1 = AddedAsIs
        /\ forall d,
             resolving (loop_body (EnvironmentRecord native) d) = resolving d
             /\ collection (loop_body (EnvironmentRecord native) d)
                = addEnv native (trace (disposition native).2 (collection d))).
Proof.
  split.
  - intros data e He Hne. split.
    + intros Hmissing r D r' p.
      assert (needs_resolve data = true) as Hneeds.
      { unfold needs_resolve. rewrite He.
        assert (truthy (Some e) = true) as -> by by apply truthy_Some.
        simpl. destruct Hmissing as [-> | ->]; simpl; [done | apply orb_true_r]. }
      assert (promises r' !! p = Some (TrackedResolve data, Pending)) as Hp.
      { subst r' p. rewrite (on_environment_resolve data r D Hneeds). simpl.
        by rewrite lookup_app_r, Nat.sub_diag by lia. }
      assert (disposed r' = false) as D'.
      { subst r'. by rewrite (on_environment_resolve data r D Hneeds). }
      assert (discovered r' = discovered r) as Hd.
      { subst r'. by rewrite (on_environment_resolve data r D Hneeds). }
      split; [|split; [exact Hd|split; [exact Hp|split]]].
      * subst r'. rewrite (on_environment_resolve data r D Hneeds). simpl.
        by rewrite He.
      * intros environment.
        by rewrite (settle_resolve_returned p data environment r' D' Hp), Hd.
      * by rewrite (settle_resolve_threw p data r' Hp), Hd.
    + intros Hunknown d d' k.
      pose proof (disposition_resolve_first data e He Hne Hunknown) as Hdisp.
      assert (d' = with_resolving (resolving d ++ [e])
                     (with_collection
                        (trace (disposition data).2 (trace [] (collection d))) d))
        as Hd'.
      { subst d'. rewrite loop_body_valid
          by (by rewrite (validEnv_executable data e He)).
        rewrite Hdisp, (validEnv_executable data e He). done. }
      assert (resolving d' !! k = Some e) as Hk.
      { rewrite Hd'. simpl. subst k. by rewrite lookup_app_r, Nat.sub_diag by lia. }
      split; [exact Hdisp|]. split; [by rewrite Hd'|]. split; [by rewrite Hd'|].
      split; [by rewrite Hd'|].
      unfold resolve_settled. rewrite Hk. done.
  - intros native Hv Hp Hk He.
    assert (needs_resolve native = false) as Hneeds.
    { unfold needs_resolve. rewrite Hv, Hp. simpl. apply andb_false_r. }
    pose proof (disposition_added_as_is native Hv Hp Hk He) as Hdisp.
    split; [|split; [exact Hdisp|]].
    + intros r D. by rewrite (on_environment_as_is native r D Hneeds).
    + intros d.
      assert ((validEnv native) = (true, [])) as Hvalid.
      { destruct (NativeEnvInfo.prefix native) as [p|] eqn:E; [|done].
        by apply (validEnv_prefix native p). }
      rewrite loop_body_valid by (by rewrite Hvalid).
      rewrite Hdisp, Hvalid. simpl. by rewrite trace_nil.
Qed.

End ResolveOrAddClaims.

Lemma underspecified_resolved_complete_added_as_is_witness :
  let d := loop_body (H:=posix) (EnvironmentRecord odd_version)
             (tasks_run (H:=posix) [TriggerRefresh; Immediate] new_discovery) in
  let r := on_environment unresolved_venv doRefresh in
  NativeEnvInfo.executable odd_version = Some "/a/bin/python"
  /\ some_component_unknown (parseVersion (Host:=posix) "three") = true
  /\ requests r = [RefreshRequest; ResolveRequest "/a/bin/python"]
  /\ discovered (settle 1 (Returned resolved_venv) r) = [EnvironmentRecord resolved_venv]
  /\ resolving d = ["/a/bin/python"]
  /\ envs (collection d) = []
  /\ (path_of <$> envs (collection
                         (resolve_settled (H:=posix) 0 (Returned (Some resolved_venv)) d)))
     = ["/a/bin/python"]
  /\ (disposition (H:=posix) python_a).1 = AddedAsIs.
Proof.
  intros d r.
  destruct (underspecified_resolved_complete_added_as_is (H:=posix))
    as [Hresolved Hcomplete].
  split; [reflexivity|]. split; [reflexivity|].
  destruct (Hresolved unresolved_venv "/a/bin/python" eq_refl) as [Hfinder _];
    [discriminate|].
  destruct (Hfinder (or_introl eq_refl) doRefresh eq_refl)
    as (Hrequests & _ & _ & Hfired & _).
  split; [exact Hrequests|]. split; [exact (Hfired resolved_venv)|].
  destruct (Hresolved odd_version "/a/bin/python" eq_refl) as [_ Hloop];
    [discriminate|].
  destruct (Hloop (or_intror eq_refl)
              (tasks_run (H:=posix) [TriggerRefresh; Immediate] new_discovery))
    as (_ & Hresolving & Henvs & _ & Hadd & _).
  split; [exact Hresolving|]. split; [exact Henvs|].
  split; [|].
  - exact (eq_trans
             (f_equal (fun c => path_of <$> envs c) (Hadd resolved_venv)) eq_refl).
  - destruct (Hcomplete python_a eq_refl eq_refl eq_refl) as (_ & Hasis & _);
      [discriminate | exact Hasis].
Defined.

(** C4 as stated fails: a record with version, prefix and known version
    components whose executable is the empty string is not added; the loop
    logs a failure and drops it. *)
Lemma complete_record_with_empty_executable_dropped :
  ~ complete_record_added_as_is (H:=posix).
Proof.
  intros Hasis.
  specialize (Hasis empty_executable eq_refl eq_refl eq_refl).
  vm_compute in Hasis. discriminate Hasis.
Qed.

Example empty_executable_logged_and_dropped :
  let d := tasks_run (H:=posix)
             [TriggerRefresh; Immediate; Yielded (EnvironmentRecord empty_executable)]
             new_discovery in
  envs (collection d) = []
  /\ resolving d = []
  /\ logged (collection d) = [RefreshStarted; FailedToProcess empty_executable].
Proof. vm_compute. done. Qed.

(** ** The scenarios of the spec on the POSIX host *)

(** Scenario A: a global interpreter with a full version. *)
Example scenario_global_python :
  let native :=
    {| NativeEnvInfo.displayName := None;
       NativeEnvInfo.name := None;
       NativeEnvInfo.executable := Some "/usr/bin/python3";
       NativeEnvInfo.kind := Some "LinuxGlobal";
       NativeEnvInfo.version := Some "3.10.4";
       NativeEnvInfo.prefix := None;
       NativeEnvInfo.manager := None;
       NativeEnvInfo.project := None;
       NativeEnvInfo.arch := Some "x64";
       NativeEnvInfo.symlinks := None |} in
  exists item,
    toPythonEnvInfo (H:=posix) native = (Some item, [])
    /\ PythonEnvInfo.kind item = PythonEnvKind.System
    /\ PythonEnvInfo.display item = "Python 3.10.4"
    /\ PythonEnvInfo.arch item = Architecture.x64
    /\ PythonEnvInfo.location item = "/usr/bin/python3"
    /\ PythonEnvInfo.type item = None.
Proof. eexists. split; [reflexivity|]. vm_compute. done. Qed.

(** A 32-bit virtual environment is named after its prefix. *)
Example display_of_32_bit_venv :
  getDisplayName
    {| sysVersion := None; major := 3; minor := 9; micro := 1 |}
    PythonEnvKind.Venv Architecture.x86
    (getName (H:=posix) (native_record None (Some "/w/.venv") None None)
       PythonEnvKind.Venv)
  = "Python 3.9.1 32-bit ('.venv')".
Proof. reflexivity. Qed.

(** A tag the table does not know is logged and becomes Unknown. *)
Example unknown_category_logged :
  categoryToKind (Some "Bazel") = (PythonEnvKind.Unknown, [UnknownCategory "Bazel"]).
Proof. reflexivity. Qed.

(** Scenario D: a second resolveEnv for the same path within 30 seconds
    returns the outcome kept by the first and leaves the collection as it
    is, whatever the worker would answer now. *)
Example scenario_resolveEnv_cached :
  let c := run (H:=posix) [AddEnv python_a] new_collection in
  let first := resolveEnv_cached (H:=posix) 1000 (Some "/a/bin/python")
                 (Returned (Some python_a_again)) c in
  let second := resolveEnv_cached (H:=posix) 30999 (Some "/a/bin/python")
                  (Returned (Some python_b)) first.2 in
  let third := resolveEnv_cached (H:=posix) 31000 (Some "/a/bin/python")
                 Threw first.2 in
  second.1 = first.1
  /\ second.2 = first.2
  /\ third.1 = Threw.
Proof. vm_compute. done. Qed.

(** A record taken for a manager is skipped by the refresh loop. *)
Example manager_record_skipped :
  let d := tasks_run (H:=posix) [TriggerRefresh; Immediate] new_discovery in
  loop_body (H:=posix)
    (ManagerRecord {| tool := "conda"; manager_executable := "/opt/conda/bin/conda";
                      manager_version := None |}) d = d.
Proof. reflexivity. Qed.

(** * Further properties of the collection *)

Section CollectionFurther.
Context `{Host}.

Lemma toPythonEnvInfo_normalized native item :
  (toPythonEnvInfo native).1 = Some item -> normalized item.
Proof.
  unfold toPythonEnvInfo.
  destruct (validEnv native) as [[] lines]; [|discriminate].
  destruct (categoryToKind (NativeEnvInfo.kind native)) as [kind lines'].
  traced. simpl. intros [= <-]. done.
Qed.

Lemma toPythonEnvInfo_key native item :
  (toPythonEnvInfo native).1 = Some item -> path_of item = key_of native.
Proof.
  unfold toPythonEnvInfo.
  destruct (validEnv native) as [[] lines]; [|discriminate].
  destruct (categoryToKind (NativeEnvInfo.kind native)) as [kind lines'].
  traced. simpl. intros [= <-]. done.
Qed.

Lemma toPythonEnvInfo_valid native :
  NativeEnvInfo.prefix native <> None \/ NativeEnvInfo.executable native <> None ->
  exists item, (toPythonEnvInfo native).1 = Some item.
Proof.
  intros Hvalid. unfold toPythonEnvInfo, validEnv.
  destruct (NativeEnvInfo.prefix native), (NativeEnvInfo.executable native);
    try (destruct Hvalid; congruence);
    destruct (categoryToKind (NativeEnvInfo.kind native)) as [kind lines'];
    traced; simpl; eauto.
Qed.

Lemma find_after_addEnv native item c :
  (toPythonEnvInfo native).1 = Some item ->
  find (has_path (path_of item)) (envs (addEnv native c)) = Some item
  /\ last (envs (addEnv native c)) = Some item.
Proof.
  intros Hitem. rewrite addEnv_unfold, Hitem.
  assert (has_path (path_of item) item = true) as Hself by by apply has_path_true.
  destruct (find _ (envs c)) as [old_item|] eqn:F.
  - rewrite envs_filter_push_changed, envs_trace.
    rewrite (find_app_None _ _ _ (find_filter_same _ _)), last_snoc.
    simpl find. by rewrite Hself.
  - rewrite envs_push_created, envs_trace.
    rewrite (find_app_None _ _ _ F), last_snoc. simpl find. by rewrite Hself.
Qed.

(** X1. addEnv never drops a record that has a prefix or an executable:
    afterwards the collection ends with an entry for it, stored under the
    executable when there is one and under the python of the prefix
    otherwise. *)
Theorem addEnv_keeps_valid_record (native : NativeEnvInfo.t) (c : Collection) :
  NativeEnvInfo.prefix native <> None \/ NativeEnvInfo.executable native <> None ->
  exists item,
    (toPythonEnvInfo native).1 = Some item
    /\ last (envs (addEnv native c)) = Some item
    /\ find (has_path (key_of native)) (envs (addEnv native c)) = Some item
    /\ path_of item = key_of native.
Proof.
  intros Hvalid. destruct (toPythonEnvInfo_valid native Hvalid) as [item Hitem].
  exists item. pose proof (toPythonEnvInfo_key native item Hitem) as Hkey.
  destruct (find_after_addEnv native item c Hitem) as [Hfind Hlast].
  rewrite <- Hkey. done.
Qed.

Lemma filter_other_path_absent p l :
  find (has_path p) l = None -> List.filter (other_path p) l = l.
Proof.
  induction l as [|x l IH]; simpl; [done|].
  rewrite other_path_negb. destruct (has_path p x); [done|].
  intros F. simpl. f_equal. by apply IH.
Qed.

Lemma filter_other_path_snoc p l item :
  path_of item = p ->
  List.filter (other_path p) (l ++ [item]) = List.filter (other_path p) l.
Proof.
  intros Hp. rewrite List.filter_app. simpl. rewrite other_path_negb.
  assert (has_path p item = true) as -> by by apply has_path_true.
  simpl. by rewrite app_nil_r.
Qed.

(** X2. Adding the same record twice in a row gives the list the first
    addEnv gave: the second call finds the entry just written, replaces it
    by an equal one and fires Changed with that entry as old and as new. *)
Theorem addEnv_twice_same_list (native : NativeEnvInfo.t) (c : Collection) :
  envs (addEnv native (addEnv native c)) = envs (addEnv native c)
  /\ forall item,
       (toPythonEnvInfo native).1 = Some item ->
       fired (addEnv native (addEnv native c))
       = fired (addEnv native c) ++ [changed item item].
Proof.
  destruct ((toPythonEnvInfo native).1) as [item|] eqn:Hitem.
  - destruct (find_after_addEnv native item c Hitem) as [Hfind Hlast].
    assert (envs (addEnv native c)
            = List.filter (other_path (path_of item)) (envs c) ++ [item]) as Hone.
    { rewrite addEnv_unfold, Hitem.
      destruct (find _ (envs c)) as [old_item|] eqn:F.
      - by rewrite envs_filter_push_changed, envs_trace.
      - rewrite envs_push_created, envs_trace.
        by rewrite (filter_other_path_absent _ _ F). }
    split.
    + rewrite (addEnv_unfold native (addEnv native c)), Hitem, Hfind.
      rewrite envs_filter_push_changed, envs_trace, Hone.
      by rewrite filter_other_path_snoc, filter_filter_other.
    + intros item' [= <-].
      rewrite (addEnv_unfold native (addEnv native c)), Hitem, Hfind. done.
  - split; [|intros item' Hn; discriminate].
    rewrite !addEnv_unfold, Hitem. done.
Qed.

Lemma Forall_list_filter {A} (P : A -> Prop) f (l : list A) :
  Forall P l -> Forall P (List.filter f l).
Proof.
  induction 1 as [|x l Hx Hl IH]; simpl; [done|].
  destruct (f x); [by constructor | done].
Qed.

Lemma length_filter_present (l : list PythonEnvInfo.t) p old_item :
  NoDup (path_of <$> l) ->
  find (has_path p) l = Some old_item ->
  S (length (List.filter (other_path p) l)) = length l.
Proof.
  induction l as [|x l IH]; simpl; [done|].
  rewrite NoDup_cons. intros [Hx Hl]. rewrite other_path_negb.
  destruct (has_path p x) eqn:E; simpl.
  - intros _. apply has_path_true in E. f_equal. f_equal.
    apply filter_other_path_absent. apply find_has_path_None. by rewrite <- E.
  - intros F. f_equal. by apply IH.
Qed.

Lemma tidy_push_created item c :
  normalized item -> tidy c -> tidy (push_created item c).
Proof.
  intros Hn (He & Hf & Hl). split; [|split].
  - rewrite envs_push_created. apply Forall_app. split; [done|]. by constructor.
  - simpl. apply Forall_app. split; [done|]. by repeat constructor.
  - rewrite envs_push_created. simpl. rewrite List.filter_app, !length_app. simpl. lia.
Qed.

Lemma tidy_filter_push_changed old_item item c :
  normalized item ->
  consistent c ->
  find (has_path (path_of item)) (envs c) = Some old_item ->
  tidy c -> tidy (filter_push_changed old_item item c).
Proof.
  intros Hn [Hnd _] F (He & Hf & Hl). split; [|split].
  - rewrite envs_filter_push_changed. apply Forall_app.
    split; [by apply Forall_list_filter | by constructor].
  - simpl. apply Forall_app. split; [done|]. constructor; [|done].
    unfold well_formed_event. simpl. by apply find_has_path_Some in F as [_ ?].
  - rewrite envs_filter_push_changed. simpl.
    rewrite List.filter_app, !length_app. simpl.
    rewrite Nat.add_0_r, Nat.add_1_r, (length_filter_present _ _ _ Hnd F). done.
Qed.

Lemma tidy_addEnv native c : consistent c -> tidy c -> tidy (addEnv native c).
Proof.
  intros Hc Ht. rewrite addEnv_unfold.
  destruct (toPythonEnvInfo native).1 as [item|] eqn:Hitem; [|done].
  pose proof (toPythonEnvInfo_normalized native item Hitem) as Hn.
  destruct (find _ (envs c)) as [old_item|] eqn:F.
  - by apply tidy_filter_push_changed.
  - by apply tidy_push_created.
Qed.

Lemma tidy_resolveEnv envPath reply c :
  consistent c -> tidy c -> tidy (resolveEnv envPath reply c).2.
Proof.
  intros Hc Ht. unfold resolveEnv.
  destruct envPath; [|done]. destruct reply as [[native|]|]; [|done|done].
  destruct (toPythonEnvInfo native) as [[item|] lines] eqn:Hitem; simpl; [|done].
  assert (normalized item) as Hn.
  { apply (toPythonEnvInfo_normalized native). by rewrite Hitem. }
  destruct (find _ _) eqn:F; simpl; [|done].
  by apply tidy_filter_push_changed.
Qed.

Lemma tidy_apply_op c op : consistent c -> tidy c -> tidy (apply_op c op).
Proof.
  intros Hc Ht. destruct op as [native|now envPath reply]; simpl.
  - by apply tidy_addEnv.
  - unfold resolveEnv_cached. destruct (cache_lookup _ _ _); [done|].
    pose proof (tidy_resolveEnv envPath reply c Hc Ht) as Hr.
    destruct (resolveEnv envPath reply c) as [outcome c']. simpl in *. exact Hr.
Qed.

Lemma tidy_run ops c : consistent c -> tidy c -> tidy (run ops c).
Proof.
  revert c. induction ops as [|op ops IH]; intros c Hc Ht; simpl; [done|].
  apply IH; [by apply consistent_apply_op | by apply tidy_apply_op].
Qed.

Lemma tidy_new : tidy new_collection.
Proof. split; [constructor|]. split; [constructor | done]. Qed.

(** X3. Along every sequence of addEnv and resolveEnv operations, every
    entry of the collection has the type its kind gives, creation and
    modification times -1, equal display names, no distribution and no
    source. *)
Theorem collection_entries_normalized (ops : list Op) :
  Forall normalized (envs (run ops new_collection)).
Proof. apply (tidy_run ops new_collection consistent_new tidy_new). Qed.

(** X4. Along every sequence of addEnv and resolveEnv operations, every
    event fired is either Created with a new entry and no old one, or
    Changed with an old and a new entry of the same executable path; no
    other kind of event is fired, and the number of entries equals the
    number of Created events. *)
Theorem collection_events_well_formed (ops : list Op) :
  let c := run ops new_collection in
  Forall well_formed_event (fired c)
  /\ length (envs c) = length (List.filter is_created (fired c)).
Proof. intros c. apply (tidy_run ops new_collection consistent_new tidy_new). Qed.

Lemma paths_kept_filter_push old_item item c p :
  p ∈ path_of <$> envs c ->
  p ∈ path_of <$> envs (filter_push_changed old_item item c).
Proof.
  rewrite envs_filter_push_changed, fmap_app, elem_of_app.
  intros Hin. destruct (String.eqb p (path_of item)) eqn:E.
  - apply String.eqb_eq in E. subst p. right. simpl. apply list_elem_of_here.
  - apply String.eqb_neq in E. left.
    apply list_elem_of_fmap in Hin as (x & -> & Hx).
    apply list_elem_of_fmap. exists x. split; [done|].
    apply filter_other_path_elem. done.
Qed.

Lemma paths_only_filter_push old_item item c p :
  find (has_path (path_of item)) (envs c) = Some old_item ->
  p ∈ path_of <$> envs (filter_push_changed old_item item c) ->
  p ∈ path_of <$> envs c.
Proof.
  intros F. rewrite envs_filter_push_changed, fmap_app, elem_of_app.
  intros [Hin|Hin].
  - apply list_elem_of_fmap in Hin as (x & -> & Hx).
    apply filter_other_path_elem in Hx as [Hx _].
    apply list_elem_of_fmap. eauto.
  - simpl in Hin. apply list_elem_of_singleton in Hin. subst p.
    apply find_has_path_Some in F as [Hold Hp].
    apply list_elem_of_fmap. exists old_item. done.
Qed.

(** X5. No operation removes a path: an executable path that has an entry
    in the collection still has one after any addEnv or resolveEnv. *)
Theorem collection_never_forgets_path (c : Collection) (op : Op) (p : string) :
  p ∈ path_of <$> envs c ->
  p ∈ path_of <$> envs (apply_op c op).
Proof.
  intros Hin. destruct op as [native|now envPath reply]; simpl.
  - rewrite addEnv_unfold. destruct (toPythonEnvInfo native).1 as [item|]; [|done].
    destruct (find _ (envs c)) as [old_item|] eqn:F.
    + by apply paths_kept_filter_push.
    + rewrite envs_push_created, envs_trace, fmap_app, elem_of_app. by left.
  - unfold resolveEnv_cached. destruct (cache_lookup _ _ _); [done|].
    unfold resolveEnv. destruct envPath; [|done].
    destruct reply as [[native|]|]; [|done|done].
    destruct (toPythonEnvInfo native) as [[item|] lines]; simpl; [|done].
    destruct (find _ _) eqn:F; simpl; [|done].
    by apply (paths_kept_filter_push _ _ (trace lines c)).
Qed.

(** X6. resolveEnv never adds a path and never removes one: the executable
    paths with an entry are the same before and after, whatever the worker
    answers. *)
Theorem resolveEnv_keeps_paths
    (envPath : option string) (reply : Outcome (option NativeEnvInfo.t))
    (c : Collection) (p : string) :
  p ∈ path_of <$> envs (resolveEnv envPath reply c).2
  <-> p ∈ path_of <$> envs c.
Proof.
  unfold resolveEnv. destruct envPath; [|done].
  destruct reply as [[native|]|]; [|done|done].
  destruct (toPythonEnvInfo native) as [[item|] lines]; simpl; [|done].
  destruct (find _ _) eqn:F; simpl; [|done].
  split.
  - by apply (paths_only_filter_push _ _ (trace lines c)).
  - by apply (paths_kept_filter_push _ _ (trace lines c)).
Qed.

End CollectionFurther.

Lemma addEnv_keeps_valid_record_witness :
  (NativeEnvInfo.prefix conda_foo <> None \/ NativeEnvInfo.executable conda_foo <> None)
  /\ exists item,
       last (envs (addEnv (H:=posix) conda_foo new_collection)) = Some item
       /\ path_of item = "/opt/conda/envs/foo/python".
Proof.
  split; [left; discriminate|].
  destruct (addEnv_keeps_valid_record (H:=posix) conda_foo new_collection)
    as (item & _ & Hlast & _ & Hkey); [left; discriminate|].
  exists item. split; [exact Hlast | exact Hkey].
Defined.

Lemma collection_never_forgets_path_witness :
  let c := run (H:=posix) [AddEnv python_a; AddEnv python_b] new_collection in
  "/b/bin/python" ∈ path_of <$> envs c
  /\ "/b/bin/python" ∈ path_of <$> envs (apply_op (H:=posix) c (AddEnv python_a_again)).
Proof.
  intros c.
  assert ("/b/bin/python" ∈ path_of <$> envs c) as Hin.
  { apply list_elem_of_In. vm_compute. right. left. reflexivity. }
  split; [exact Hin|].
  exact (collection_never_forgets_path (H:=posix) c (AddEnv python_a_again) _ Hin).
Defined.

(** * The type of an entry and the tag of its record *)

Lemma mapping_get_Some c kind :
  mapping_get c = Some kind -> In (c, kind) mapping.
Proof.
  unfold mapping_get. destruct (find _ mapping) as [[c' kind']|] eqn:F; [|done].
  simpl. intros [= <-]. apply find_some in F as [Hin Hc].
  simpl in Hc. apply String.eqb_eq in Hc. by subst c'.
Qed.

Ltac tag_cases Hin :=
  unfold virtual_tags in Hin;
  repeat (apply elem_of_cons in Hin as [Hin|Hin]; [subst|]);
  [..|by apply elem_of_nil in Hin].

Lemma kind_type_of_tag (category : option string) :
  let kind := (categoryToKind category).1 in
  (getEnvType kind = Some PythonEnvType.Conda <-> category = Some "Conda")
  /\ (getEnvType kind = Some PythonEnvType.Virtual
      <-> exists c, category = Some c /\ c ∈ virtual_tags).
Proof.
  destruct category as [c|]; cbn zeta.
  2: { split; split; try discriminate. intros (c & Hc & _). discriminate. }
  unfold categoryToKind. destruct (nonempty c) eqn:N.
  - destruct (mapping_get c) as [kind|] eqn:G; cbn [fst pure].
    + apply mapping_get_Some in G. unfold mapping in G.
      repeat (destruct G as [G|G]; [injection G as <- <-|]); [..|destruct G];
        (split; split;
         [ intros Hx; first [done | discriminate Hx]
         | intros Hx; first [done | discriminate Hx]
         | intros Hx;
           first [ discriminate Hx
                 | eexists; split; [reflexivity|]; unfold virtual_tags; set_solver ]
         | intros (c' & Hc & Hin); first [done | injection Hc as <-];
           tag_cases Hin; discriminate ]).
    + traced. cbn [fst getEnvType]. split; split; try discriminate.
      * intros [= ->]. vm_compute in G. discriminate G.
      * intros (c' & [= <-] & Hin). tag_cases Hin; vm_compute in G; discriminate G.
  - unfold nonempty in N. apply negb_false_iff, String.eqb_eq in N. subst c.
    cbn [fst pure getEnvType]. split; split; try discriminate.
    intros (c' & [= <-] & Hin). tag_cases Hin; discriminate.
Qed.

Section TypeOfEntry.
Context `{Host}.

Lemma toPythonEnvInfo_kind native item :
  (toPythonEnvInfo native).1 = Some item ->
  PythonEnvInfo.kind item = (categoryToKind (NativeEnvInfo.kind native)).1
  /\ PythonEnvInfo.type item = getEnvType (PythonEnvInfo.kind item).
Proof.
  unfold toPythonEnvInfo.
  destruct (validEnv native) as [[] lines]; [|discriminate].
  destruct (categoryToKind (NativeEnvInfo.kind native)) as [kind lines'].
  traced. simpl. intros [= <-]. done.
Qed.

(** X7. The entry made from a record has type Conda exactly when the tag of
    the record is Conda, and type Virtual exactly when the tag is one of
    Pyenv, PyenvVirtualEnv, Pipenv, Poetry, VirtualEnv, VirtualEnvWrapper
    and Venv; with any other tag, an empty tag or none, it has no type. *)
Theorem entry_type_follows_tag (native : NativeEnvInfo.t) (item : PythonEnvInfo.t) :
  (toPythonEnvInfo native).1 = Some item ->
  (PythonEnvInfo.type item = Some PythonEnvType.Conda
   <-> NativeEnvInfo.kind native = Some "Conda")
  /\ (PythonEnvInfo.type item = Some PythonEnvType.Virtual
      <-> exists c, NativeEnvInfo.kind native = Some c /\ c ∈ virtual_tags)
  /\ (PythonEnvInfo.type item = None
      <-> NativeEnvInfo.kind native <> Some "Conda"
          /\ forall c, NativeEnvInfo.kind native = Some c -> c ∉ virtual_tags).
Proof.
  intros Hitem. destruct (toPythonEnvInfo_kind native item Hitem) as [Hkind ->].
  rewrite Hkind.
  destruct (kind_type_of_tag (NativeEnvInfo.kind native)) as [Hconda Hvirtual].
  simpl in Hconda, Hvirtual.
  split; [exact Hconda|]. split; [exact Hvirtual|].
  destruct (getEnvType (categoryToKind (NativeEnvInfo.kind native)).1) as [[]|].
  - split; [discriminate|]. intros [_ Hno].
    destruct (proj1 Hvirtual eq_refl) as (c & Hc & Hin). by destruct (Hno c Hc).
  - split; [discriminate|]. intros [Hno _]. destruct Hno. by apply Hconda.
  - split; [|done]. intros _. split.
    + intros Hc. apply Hconda in Hc. discriminate.
    + intros c Hc Hin.
      assert (@None PythonEnvType.t = Some PythonEnvType.Virtual) as Habs
        by (apply Hvirtual; eauto).
      discriminate.
Qed.

End TypeOfEntry.

Lemma entry_type_follows_tag_witness :
  exists item,
    (toPythonEnvInfo (H:=posix) python_b).1 = Some item
    /\ PythonEnvInfo.type item = Some PythonEnvType.Virtual.
Proof.
  eexists. split; [vm_compute; reflexivity|].
  match goal with
  | |- PythonEnvInfo.type ?it = _ =>
      destruct (entry_type_follows_tag (H:=posix) python_b it eq_refl)
        as (_ & Hvirtual & _)
  end.
  apply Hvirtual. exists "Pyenv". split; [reflexivity|].
  unfold virtual_tags. apply list_elem_of_here.
Defined.

(** * Further properties of triggerRefresh *)

Lemma rounds_snoc n :
  rounds (S n)
  = rounds n ++ [ProgressReportStage.discoveryStarted;
                 ProgressReportStage.discoveryFinished].
Proof. induction n as [|n IH]; [done|]. simpl in *. by rewrite <- IH. Qed.

Lemma orderly_flight d d' : flight d' = flight d -> orderly d -> orderly d'.
Proof.
  unfold flight, orderly. intros [= -> -> -> -> _ _ -> -> _]. done.
Qed.

Section RefreshFurther.
Context `{Host}.

Lemma orderly_triggerRefresh d :
  single_flight d -> orderly d -> orderly (triggerRefresh d).2.
Proof.
  intros (Hstate & _) (Hpending & (n & Hprogress & Hn) & Hfirst).
  unfold triggerRefresh. simpl.
  destruct (refreshState d) eqn:S; simpl in *.
  - destruct Hstate as [Hnone _]. subst n. split; [|split]; simpl.
    + intros p Hp. apply lookup_app_Some in Hp as [Hp|[Hlen Hp]].
      * apply Hpending in Hp. congruence.
      * apply list_lookup_singleton_Some in Hp as [Hp _]. f_equal. lia.
    + exists 0. rewrite Hprogress. done.
    + done.
  - destruct Hstate as ((p & Hp & Hpend) & _). rewrite Hp. simpl.
    split; [done|]. split; [|done]. exists n. simpl. by rewrite S.
  - done.
  - destruct Hstate as [Hnone _]. split; [|split]; simpl.
    + intros p Hp. apply lookup_app_Some in Hp as [Hp|[Hlen Hp]].
      * apply Hpending in Hp. congruence.
      * apply list_lookup_singleton_Some in Hp as [Hp _]. f_equal. lia.
    + exists n. rewrite Hprogress. simpl. by rewrite app_nil_r.
    + done.
Qed.

Lemma orderly_immediate d : orderly d -> orderly (immediate d).
Proof.
  intros Hd. unfold immediate. destruct (immediates d); [exact Hd|].
  destruct Hd as (Hpending & Hprogress & Hfirst).
  split; [exact Hpending|]. split; [exact Hprogress|]. simpl. intros _. lia.
Qed.

Lemma orderly_loop_done ok d :
  single_flight d -> orderly d -> orderly (loop_done ok d).
Proof.
  intros Hs Hd. unfold loop_done. destruct (iterating d) as [|m] eqn:I; [exact Hd|].
  destruct Hs as (Hstate & _). destruct Hd as (Hpending & (n & Hprogress & Hn) & Hfirst).
  rewrite I in Hstate.
  destruct (refreshState d) eqn:S; simpl in *; try lia.
  destruct Hstate as ((p & Hp & Hpend) & _).
  split; [|split]; simpl; [|exists (Datatypes.S n)|done].
  - rewrite Hp. simpl. rewrite Hpend. intros q Hq. exfalso.
    destruct (decide (q = p)) as [->|Hne].
    + rewrite list_lookup_insert_eq in Hq by (by eapply lookup_lt_Some).
      by destruct ok.
    + rewrite list_lookup_insert_ne in Hq by done.
      apply Hpending in Hq. congruence.
  - split; [|lia]. rewrite Hprogress, rounds_snoc, <- app_assoc, app_nil_r. done.
Qed.

Lemma orderly_step d t : single_flight d -> orderly d -> orderly (task_step d t).
Proof.
  intros Hs Hd. destruct t as [| |native|ok|k reply|op]; simpl.
  - by apply orderly_triggerRefresh.
  - by apply orderly_immediate.
  - destruct (iterating d); [done|].
    eapply orderly_flight; [apply flight_loop_body | done].
  - by apply orderly_loop_done.
  - eapply orderly_flight; [apply flight_resolve_settled | done].
  - eapply orderly_flight; [|exact Hd]. done.
Qed.

Lemma orderly_run ts d :
  single_flight d -> orderly d ->
  single_flight (tasks_run ts d) /\ orderly (tasks_run ts d).
Proof.
  revert d. induction ts as [|t ts IH]; intros d Hs Hd; simpl; [done|].
  apply IH; [by apply single_flight_step | by apply orderly_step].
Qed.

Lemma orderly_new : orderly new_discovery.
Proof. split; [done|]. split; [by exists 0 | done]. Qed.



(** X10. The finder's refresh is called once per refresh begun, and the
    first call hands out the results of the refresh its constructor
    started: doRefresh has run once as long as at most one refresh was
    begun, and once per refresh begun after that. *)
Theorem doRefresh_once_per_refresh (ts : list Task) :
  let d := tasks_run ts new_discovery in
  refresh_calls d + immediates d = count_started (progress d)
  /\ doRefresh_calls d = Nat.max 1 (refresh_calls d)
  /\ (firstRefreshResults d = true <-> refresh_calls d = 0).
Proof.
  intros d.
  destruct (orderly_run ts new_discovery single_flight_new orderly_new)
    as [(_ & Hcalls & Hdo & Hfirst) (_ & _ & Hcalled)].
  fold d in Hcalls, Hdo, Hfirst, Hcalled.
  split; [exact Hcalls|]. rewrite Hdo.
  destruct (firstRefreshResults d).
  - rewrite Hfirst by done. done.
  - specialize (Hcalled eq_refl). split; [lia|]. split; [discriminate | lia].
Qed.

End RefreshFurther.

(** From creation through two refreshes: one doRefresh for the first, one
    more for the second. *)
Example two_refreshes_two_doRefresh :
  let d := tasks_run (H:=posix)
             [Immediate; LoopDone true; TriggerRefresh; Immediate; LoopDone true]
             createNativeEnvironmentsApi in
  doRefresh_calls d = 2
  /\ refresh_calls d = 2
  /\ progress d = rounds 2
  /\ getRefreshPromise d = None
  /\ deferreds d = [Fulfilled; Fulfilled].
Proof. vm_compute. done. Qed.

(** * The order of the finder's requests *)

Lemma no_repeat_snoc {A} (l : list A) (x : A) :
  no_repeat l -> last l <> Some x -> no_repeat (l ++ [x]).
Proof.
  induction l as [|a [|b l] IH]; simpl; [done| |].
  - intros _ Hne. split; [congruence | done].
  - intros [Hab Hrest] Hlast. split; [done|]. apply IH; done.
Qed.

Lemma snapshots_send q conn :
  is_configure q = false -> snapshots (send_request q conn) = snapshots conn.
Proof.
  intros Hq. unfold snapshots. simpl. rewrite omap_app. simpl.
  destruct q; [discriminate| | |]; simpl; by rewrite app_nil_r.
Qed.

Lemma in_step_new : in_step new_connection.
Proof. done. Qed.

Lemma in_step_configure options conn : in_step conn -> in_step (configure options conn).
Proof.
  intros [Hlast Hrep]. unfold configure.
  destruct (String.eqb _ (JSON_stringify_last (lastConfiguration conn))) eqn:E; [done|].
  unfold in_step, snapshots. simpl. rewrite omap_app. simpl.
  split; [by rewrite last_snoc|].
  apply no_repeat_snoc; [exact Hrep|].
  fold (snapshots conn). rewrite Hlast. intros Hsame. rewrite Hsame in E.
  simpl in E. by rewrite String.eqb_refl in E.
Qed.

Lemma in_step_send m conn : in_step conn -> in_step (send_request (request_of m) conn).
Proof.
  intros [Hlast Hrep]. unfold in_step.
  rewrite snapshots_send by (by destruct m). done.
Qed.

Lemma in_step_run steps conn : in_step conn -> in_step (finder_run steps conn).
Proof.
  revert conn. induction steps as [|step steps IH]; intros conn Hc; simpl; [done|].
  apply IH. destruct step; [by apply in_step_configure | by apply in_step_send].
Qed.

Lemma head_sent_run steps conn q :
  head (sent conn) = Some q -> head (sent (finder_run steps conn)) = Some q.
Proof.
  revert conn. induction steps as [|step steps IH]; intros conn Hq; simpl; [done|].
  apply IH. destruct step as [options|m]; simpl.
  - unfold configure. destruct (String.eqb _ _); [done|]. simpl.
    destruct (sent conn); [discriminate | done].
  - destruct (sent conn); [discriminate | done].
Qed.

Lemma in_step_construct options : in_step (construct options).
Proof.
  unfold construct, finder_refresh_request.
  apply (in_step_send RefreshMethod), in_step_configure, in_step_configure, in_step_new.
Qed.

(** X11. On a finder from its construction on, whatever calls are made and
    however their steps interleave: the first request sent is the
    configure request of the constructor; the snapshot the finder keeps is
    the one of the last configure request sent; no two configure requests
    in a row carry the same snapshot; and when a configure call returns,
    the last snapshot sent is the one it was called with. *)
Theorem configure_requests_in_step
    (initial : ConfigurationOptions) (steps : list FinderStep) :
  let conn := finder_run steps (construct initial) in
  head (sent conn) = Some (ConfigureRequest initial)
  /\ last (snapshots conn) = lastConfiguration conn
  /\ no_repeat (snapshots conn)
  /\ forall options,
       last (snapshots (configure options conn)) = Some options.
Proof.
  intros conn.
  assert (in_step conn) as Hc by apply in_step_run, in_step_construct.
  split; [|split; [apply Hc|split; [apply Hc|]]].
  - apply head_sent_run. unfold construct, finder_refresh_request.
    rewrite configure_same_again. unfold configure.
    cbn [lastConfiguration new_connection JSON_stringify_last].
    by rewrite JSON_stringify_not_empty_object.
  - intros options.
    destruct (in_step_configure options conn Hc) as [Hlast _].
    by rewrite Hlast, configure_remembers.
Qed.

(** A resolve while the settings are unchanged sends no configure; after a
    change it sends one first. *)
Example resolve_configures_on_change :
  let changed_settings :=
    {| workspaceDirectories := ["/home/me/other"];
       environmentDirectories := [];
       condaExecutable := None;
       poetryExecutable := None |} in
  sent (finder_resolve settings "/a/bin/python" (construct settings))
  = [ConfigureRequest settings; RefreshRequest; ResolveRequest "/a/bin/python"]
  /\ sent (getCondaInfo
             (finder_resolve changed_settings "/a/bin/python" (construct settings)))
     = [ConfigureRequest settings; RefreshRequest;
        ConfigureRequest changed_settings; ResolveRequest "/a/bin/python";
        CondaInfoRequest].
Proof. vm_compute. done. Qed.

(** * doRefresh: completion does fire, and what is handed on *)

Lemma aware_doRefresh : aware doRefresh /\ never_rejected doRefresh.
Proof.
  split.
  - right. exists [0]. apply list_elem_of_here.
  - repeat constructor. discriminate.
Qed.

Lemma aware_notify r : aware (notifyUponCompletion r).
Proof.
  right. exists (pendingPromises r). simpl. apply elem_of_app. right.
  apply list_elem_of_here.
Qed.

Lemma settlement_never_rejected r p :
  never_rejected r -> is_rejected (settlement_of r p) = false.
Proof.
  intros Hr. unfold settlement_of.
  destruct (promises r !! p) as [[what s]|] eqn:E; [|done].
  unfold never_rejected in Hr. rewrite Forall_lookup in Hr.
  specialize (Hr p _ E). simpl in Hr. by destruct s.
Qed.

Lemma aware_fire data r : aware r -> aware (fire data r).
Proof. unfold fire. by destruct (disposed r). Qed.

Lemma never_rejected_fire data r : never_rejected r -> never_rejected (fire data r).
Proof. unfold fire. by destruct (disposed r). Qed.

Lemma never_rejected_fulfil p r :
  never_rejected r -> never_rejected (set_settlement p Fulfilled r).
Proof.
  unfold never_rejected, set_settlement. simpl. intros Hr.
  destruct (promises r !! p) as [[what s]|]; [|done].
  apply Forall_insert; done.
Qed.

Lemma elem_of_delete_other {A} (l : list A) (k : nat) (x y : A) :
  x ∈ l -> l !! k = Some y -> x <> y -> x ∈ delete k l.
Proof.
  revert k. induction l as [|a l IH]; intros k Hx Hk Hne; [by apply elem_of_nil in Hx|].
  destruct k as [|k]; simpl in *.
  - injection Hk as ->. apply elem_of_cons in Hx as [->|Hx]; done.
  - apply elem_of_cons in Hx as [->|Hx]; [apply list_elem_of_here|].
    apply list_elem_of_further. by apply (IH k).
Qed.

Lemma aware_step r ev :
  aware r /\ never_rejected r ->
  aware (refresh_step r ev) /\ never_rejected (refresh_step r ev).
Proof.
  intros [Ha Hr]. destruct ev as [data|data|p reply|k| |]; simpl.
  - unfold on_environment. destruct (disposed r); [done|].
    destruct (needs_resolve data).
    + split; [apply aware_notify|].
      unfold never_rejected. simpl. apply Forall_app. split; [done|].
      by repeat constructor.
    + split; [by apply aware_fire | by apply never_rejected_fire].
  - unfold on_manager. destruct (disposed r); [done|].
    split; [by apply aware_fire | by apply never_rejected_fire].
  - unfold settle. destruct (promises r !! p) as [[[|data] []]|]; try done.
    + split; [done | by apply never_rejected_fulfil].
    + split.
      * destruct reply as [environment|]; [|done].
        pose proof (aware_fire (EnvironmentRecord environment)
                      (info (Resolved environment) r) Ha).
        done.
      * apply never_rejected_fulfil. destruct reply; [|done].
        by apply never_rejected_fire.
  - unfold all_settled.
    destruct (waiting r !! k) as [[taken initialCount]|] eqn:W; [|done].
    destruct (forallb _ taken).
    + destruct (Nat.eqb initialCount (length (pendingPromises r))) eqn:N;
        split; try done.
      * by left.
      * destruct Ha as [Hc|[taken' Hin]]; [by left|]. right. exists taken'. simpl.
        apply (elem_of_delete_other _ k _ (taken, initialCount)); [done|done|].
        apply Nat.eqb_neq in N. congruence.
    + assert (existsb (fun p => is_rejected (settlement_of r p)) taken = false) as ->.
      { apply not_true_is_false. intros Hex. apply existsb_exists in Hex as (p & _ & Hp).
        by rewrite settlement_never_rejected in Hp. }
      done.
  - unfold timeout. destruct (timers r); [done|].
    split; [apply aware_notify | done].
  - unfold finally_dispose. destruct (completed r) eqn:C; [|done].
    split; [|done]. left. done.
Qed.

Lemma aware_run evs r :
  aware r /\ never_rejected r ->
  aware (refresh_run evs r) /\ never_rejected (refresh_run evs r).
Proof.
  revert r. induction evs as [|ev evs IH]; intros r Hr; simpl; [done|].
  by apply IH, aware_step.
Qed.

Lemma all_settled_completes k r :
  none_outstanding r = true ->
  waiting r !! k = Some (pendingPromises r, length (pendingPromises r)) ->
  completed (all_settled k r) = true.
Proof.
  intros Hnone Hw. unfold all_settled. rewrite Hw.
  unfold none_outstanding in Hnone. rewrite Hnone, Nat.eqb_refl. done.
Qed.

(** X12. Once every tracked promise of a doRefresh has settled, completion
    is one callback away and needs nothing more from the worker: a
    [Promise.all] that has counted every pending promise is still waiting,
    and its [then] resolves the completion signal. *)
Theorem completion_follows_settlement (evs : list RefreshEvent) :
  let r := refresh_run evs doRefresh in
  none_outstanding r = true ->
  completed r = false ->
  exists k,
    waiting r !! k = Some (pendingPromises r, length (pendingPromises r))
    /\ completed (refresh_run [AllSettled k] r) = true.
Proof.
  intros r Hnone Hno.
  destruct (aware_run evs doRefresh aware_doRefresh) as [Ha _]. fold r in Ha.
  destruct (tracked_run evs doRefresh tracked_doRefresh) as (_ & _ & Hwait).
  fold r in Hwait.
  destruct Ha as [Hc|[taken Hin]]; [congruence|].
  apply list_elem_of_lookup in Hin as [k Hk]. exists k.
  assert (taken = pendingPromises r) as ->.
  { rewrite Forall_lookup in Hwait. destruct (Hwait k _ Hk) as [Hpre Hlen].
    simpl in *. apply prefix_length_eq; [done | lia]. }
  split; [exact Hk|]. simpl. by apply all_settled_completes.
Qed.

Lemma discovered_step r ev record :
  record ∈ discovered (refresh_step r ev) ->
  record ∈ discovered r \/ handed_on_by ev record.
Proof.
  destruct ev as [data|data|p reply|k| |]; simpl.
  - unfold on_environment. destruct (disposed r) eqn:D; [by left|].
    destruct (needs_resolve data) eqn:N; simpl; [by left|].
    unfold fire. simpl. rewrite D. simpl. rewrite elem_of_app.
    intros [Hin|Hin]; [by left|]. apply list_elem_of_singleton in Hin. by right.
  - unfold on_manager. destruct (disposed r) eqn:D; [by left|].
    unfold fire. rewrite D. simpl. rewrite elem_of_app.
    intros [Hin|Hin]; [by left|]. apply list_elem_of_singleton in Hin. by right.
  - unfold settle. destruct (promises r !! p) as [[[|data] []]|]; try (by left).
    destruct reply as [environment|]; simpl; [|by left].
    unfold fire. simpl. destruct (disposed r); simpl; [by left|].
    rewrite elem_of_app.
    intros [Hin|Hin]; [by left|]. apply list_elem_of_singleton in Hin. by right.
  - unfold all_settled. destruct (waiting r !! k) as [[taken n]|]; [|by left].
    destruct (forallb _ taken); [destruct (Nat.eqb _ _); by left|].
    destruct (existsb _ taken); by left.
  - unfold timeout. destruct (timers r); by left.
  - unfold finally_dispose. destruct (completed r); by left.
Qed.

Lemma requests_step r ev executable :
  ResolveRequest executable ∈ requests (refresh_step r ev) ->
  ResolveRequest executable ∈ requests r \/ resolve_asked_by ev executable.
Proof.
  destruct ev as [data|data|p reply|k| |]; simpl.
  - unfold on_environment. destruct (disposed r) eqn:D; [by left|].
    destruct (needs_resolve data) eqn:N; simpl.
    + rewrite elem_of_app. intros [Hin|Hin]; [by left|].
      apply list_elem_of_singleton in Hin. injection Hin as ->. right.
      split; [done|]. unfold needs_resolve in N.
      destruct (NativeEnvInfo.executable data); [done | discriminate].
    + unfold fire. simpl. rewrite D. by left.
  - unfold on_manager. destruct (disposed r) eqn:D; [by left|].
    unfold fire. rewrite D. by left.
  - unfold settle. destruct (promises r !! p) as [[[|data] []]|]; try (by left).
    destruct reply as [environment|]; simpl; [|by left].
    unfold fire. simpl. destruct (disposed r); by left.
  - unfold all_settled. destruct (waiting r !! k) as [[taken n]|]; [|by left].
    destruct (forallb _ taken); [destruct (Nat.eqb _ _); by left|].
    destruct (existsb _ taken); by left.
  - unfold timeout. destruct (timers r); by left.
  - unfold finally_dispose. destruct (completed r); by left.
Qed.

Lemma discovered_run evs r record :
  record ∈ discovered (refresh_run evs r) ->
  record ∈ discovered r \/ exists ev, ev ∈ evs /\ handed_on_by ev record.
Proof.
  revert r. induction evs as [|ev evs IH]; intros r; simpl; [by left|].
  intros Hin. destruct (IH _ Hin) as [Hr|(ev' & Hev & Hby)].
  - destruct (discovered_step r ev record Hr) as [?|Hby]; [by left|].
    right. exists ev. split; [apply list_elem_of_here | done].
  - right. exists ev'. split; [by apply list_elem_of_further | done].
Qed.

Lemma requests_run evs r executable :
  ResolveRequest executable ∈ requests (refresh_run evs r) ->
  ResolveRequest executable ∈ requests r
  \/ exists ev, ev ∈ evs /\ resolve_asked_by ev executable.
Proof.
  revert r. induction evs as [|ev evs IH]; intros r; simpl; [by left|].
  intros Hin. destruct (IH _ Hin) as [Hr|(ev' & Hev & Hby)].
  - destruct (requests_step r ev executable Hr) as [?|Hby]; [by left|].
    right. exists ev. split; [apply list_elem_of_here | done].
  - right. exists ev'. split; [by apply list_elem_of_further | done].
Qed.

(** X13. Whatever a doRefresh hands on came from the worker: each record
    fired is the data of an environment notification that needed no
    resolve, the data of a manager notification, or the answer to a
    resolve request; and each resolve request sent is for the executable of
    an environment notification that lacked version or prefix. *)
Theorem doRefresh_hands_on_worker_records (evs : list RefreshEvent) :
  let r := refresh_run evs doRefresh in
  (forall record, record ∈ discovered r ->
     exists ev, ev ∈ evs /\ handed_on_by ev record)
  /\ (forall executable, ResolveRequest executable ∈ requests r ->
        exists ev, ev ∈ evs /\ resolve_asked_by ev executable).
Proof.
  intros r. split.
  - intros record Hin.
    destruct (discovered_run evs doRefresh record Hin) as [Hnil|Hby]; [|done].
    by apply elem_of_nil in Hnil.
  - intros executable Hin.
    destruct (requests_run evs doRefresh executable Hin) as [Hinit|Hby]; [|done].
    simpl in Hinit. apply list_elem_of_singleton in Hinit. discriminate.
Qed.

Lemma completion_follows_settlement_witness :
  let r := refresh_run
             [Environment unresolved_venv;
              Settle 0 (Returned unresolved_venv);
              AllSettled 0;
              Settle 1 (Returned resolved_venv)] doRefresh in
  none_outstanding r = true
  /\ completed r = false
  /\ exists k, completed (refresh_run [AllSettled k] r) = true.
Proof.
  intros r. split; [reflexivity|]. split; [reflexivity|].
  destruct (completion_follows_settlement
              [Environment unresolved_venv;
               Settle 0 (Returned unresolved_venv);
               AllSettled 0;
               Settle 1 (Returned resolved_venv)] eq_refl eq_refl) as (k & _ & Hk).
  exists k. exact Hk.
Defined.

(** * The sequence refresh() yields *)

Ltac same_list Heq :=
  rewrite Heq; simpl; rewrite ?app_nil_r, <- ?app_assoc; simpl; reflexivity.

Lemma accounted_arrive data s arrived :
  accounted s arrived -> accounted (arrive data s) (arrived ++ [data]).
Proof.
  intros [(late & Heq & Hlate) Hfin]. unfold arrive, accounted, in_hand, is_finished in *.
  destruct (position s) eqn:P; simpl; rewrite ?P; simpl.
  - rewrite (Hlate eq_refl) in Heq. split; [|done]. exists []. split; [|done].
    same_list Heq.
  - rewrite (Hlate eq_refl) in Heq. split; [|done]. exists []. split; [|done].
    same_list Heq.
  - split; [|done]. exists (late ++ [data]). split; [|done]. same_list Heq.
Qed.

Lemma accounted_complete s arrived :
  accounted s arrived -> accounted (complete s) arrived.
Proof. intros [Hacc Hfin]. split; [done|]. done. Qed.

Lemma accounted_from_loop_top s arrived :
  position s = AtLoopTop ->
  accounted s arrived -> accounted (from_loop_top s).2 arrived.
Proof.
  intros P [(late & Heq & Hlate) Hfin].
  unfold accounted, in_hand, is_finished in *. rewrite P in *.
  rewrite (Hlate eq_refl) in Heq. simpl in Heq.
  unfold from_loop_top. destruct (buffer s) as [|data rest] eqn:B.
  - destruct (is_completed s) eqn:C; simpl.
    + split; [|done]. exists []. split; [|done]. same_list Heq.
    + destruct (woken s); simpl; rewrite ?P, ?B; simpl.
      * split; [|done]. exists []. split; [|done]. same_list Heq.
      * split; [|done]. exists []. split; [|done]. same_list Heq.
  - simpl. split; [|done]. exists []. split; [|done]. same_list Heq.
Qed.

Lemma accounted_resume s arrived :
  accounted s arrived -> accounted (resume s).2 arrived.
Proof.
  intros Hacc. unfold resume. destruct (position s) as [|[|data rest]|] eqn:P.
  - by apply accounted_from_loop_top.
  - unfold after_for_loop.
    destruct Hacc as [(late & Heq & Hlate) Hfin].
    unfold in_hand, is_finished in *. rewrite P in *.
    rewrite (Hlate eq_refl) in Heq. simpl in Heq.
    destruct (is_completed s) eqn:C.
    + split; [|done]. exists []. split; [|done].
      unfold in_hand. simpl. same_list Heq.
    + apply accounted_from_loop_top; [done|].
      split; [|done]. exists []. split; [|done]. unfold in_hand. simpl.
      same_list Heq.
  - destruct Hacc as [(late & Heq & Hlate) Hfin].
    unfold accounted, in_hand, is_finished in *. rewrite P in *. simpl.
    split; [|done]. exists late. split; [|done]. same_list Heq.
  - done.
Qed.

Lemma stream_run_snoc evs ev s :
  stream_run (evs ++ [ev]) s = stream_step (stream_run evs s) ev.
Proof. unfold stream_run. by rewrite fold_left_app. Qed.

Lemma arrivals_snoc evs ev :
  arrivals (evs ++ [ev])
  = arrivals evs ++ match ev with Arrives data => [data] | _ => [] end.
Proof. unfold arrivals. rewrite omap_app. simpl. by destruct ev. Qed.

Lemma accounted_run evs : accounted (stream_run evs new_stream) (arrivals evs).
Proof.
  induction evs as [|ev evs IH] using rev_ind.
  - split; [|done]. exists []. done.
  - rewrite stream_run_snoc, arrivals_snoc. destruct ev as [data| |]; simpl.
    + by apply accounted_arrive.
    + rewrite app_nil_r. by apply accounted_complete.
    + rewrite app_nil_r. by apply accounted_resume.
Qed.

Lemma finished_step s ev :
  is_finished s = true ->
  is_finished (stream_step s ev) = true
  /\ yielded (stream_step s ev) = yielded s
  /\ buffer (stream_step s ev) = buffer s.
Proof.
  unfold is_finished. destruct (position s) eqn:P; try discriminate. intros _.
  destruct ev; simpl.
  - unfold arrive. rewrite P. simpl. by rewrite P.
  - by rewrite P.
  - unfold resume. rewrite P. simpl. by rewrite P.
Qed.

Lemma finished_run evs s :
  is_finished s = true ->
  is_finished (stream_run evs s) = true
  /\ yielded (stream_run evs s) = yielded s
  /\ buffer (stream_run evs s) = buffer s.
Proof.
  revert s. induction evs as [|ev evs IH]; intros s Hs; simpl; [done|].
  destruct (finished_step s ev Hs) as (Hf & Hy & Hb).
  destruct (IH _ Hf) as (Hf' & Hy' & Hb'). split; [done|]. split; congruence.
Qed.

(** The consumer takes what is left of the copy, one record per resumption. *)
Lemma drain_in_hand rest s :
  position s = InForLoop rest ->
  yielded (stream_run (replicate (length rest) Resumes) s) = yielded s ++ rest
  /\ position (stream_run (replicate (length rest) Resumes) s) = InForLoop []
  /\ buffer (stream_run (replicate (length rest) Resumes) s) = buffer s
  /\ is_completed (stream_run (replicate (length rest) Resumes) s) = is_completed s.
Proof.
  revert s. induction rest as [|data rest IH]; intros s P.
  - simpl. by rewrite app_nil_r.
  - change (stream_run (replicate (length (data :: rest)) Resumes) s)
      with (stream_run (replicate (length rest) Resumes) (resume s).2).
    assert ((resume s).2
            = {| buffer := buffer s;
                 is_completed := is_completed s;
                 woken := woken s;
                 position := InForLoop rest;
                 yielded := yielded s ++ [data] |}) as ->
      by (unfold resume; by rewrite P).
    match goal with
    | |- context [stream_run _ ?t] =>
        destruct (IH t eq_refl) as (Hy & Hp & Hb & Hc)
    end.
    rewrite Hy, Hp, Hb, Hc. simpl. by rewrite <- app_assoc.
Qed.

(** Before completion the loop comes round again: what is in [envs] is
    copied out and yielded, one record per resumption. *)
Lemma drain_buffer s :
  is_completed s = false ->
  position s = AtLoopTop \/ position s = InForLoop [] ->
  yielded (stream_run (replicate (length (buffer s)) Resumes) s)
  = yielded s ++ buffer s.
Proof.
  intros Hc Hp. destruct (buffer s) as [|data rest] eqn:B.
  - simpl. by rewrite app_nil_r.
  - change (stream_run (replicate (length (data :: rest)) Resumes) s)
      with (stream_run (replicate (length rest) Resumes) (resume s).2).
    assert (exists w,
              (resume s).2
              = {| buffer := [];
                   is_completed := false;
                   woken := w;
                   position := InForLoop rest;
                   yielded := yielded s ++ [data] |}) as [w ->].
    { unfold resume. destruct Hp as [-> | ->].
      - unfold from_loop_top. rewrite B, Hc. by eexists.
      - unfold after_for_loop, from_loop_top. rewrite Hc. simpl. rewrite B.
        by eexists. }
    match goal with
    | |- context [stream_run _ ?t] =>
        destruct (drain_in_hand rest t eq_refl) as (Hy & _)
    end.
    rewrite Hy. simpl. by rewrite <- app_assoc.
Qed.

Lemma drain s :
  is_completed s = false ->
  is_finished s = false ->
  yielded (stream_run (replicate (length (in_hand s ++ buffer s)) Resumes) s)
  = yielded s ++ in_hand s ++ buffer s.
Proof.
  intros Hc Hf. unfold in_hand, is_finished in *.
  destruct (position s) as [|rest|] eqn:P; [|..|done].
  - simpl. apply drain_buffer; [done | by left].
  - destruct (drain_in_hand rest s P) as (Hy & Hp & Hb & Hc').
    assert (stream_run (replicate (length (rest ++ buffer s)) Resumes) s
            = stream_run
                (replicate
                   (length (buffer (stream_run (replicate (length rest) Resumes) s)))
                   Resumes)
                (stream_run (replicate (length rest) Resumes) s)) as ->.
    { rewrite Hb, length_app, replicate_add. unfold stream_run.
      by rewrite fold_left_app. }
    rewrite (drain_buffer _ (eq_trans Hc' Hc) (or_intror Hp)).
    by rewrite Hy, Hb, <- app_assoc.
Qed.

(** X14. The records refresh() yields are the first records that arrived,
    in the order of arrival and each once.  Until the generator has
    finished every record that arrived is yielded, copied out or still in
    envs, and before completion resuming the generator once for each record
    that waits yields them all.  The generator finishes only after
    completion; from then on it yields nothing more and envs stays as it
    is, so a record that arrived while the last copy was being yielded
    stays in envs and is never yielded. *)
Theorem refresh_yields_arrivals_in_order (evs : list StreamEvent) :
  let s := stream_run evs new_stream in
  (exists late,
     arrivals evs = yielded s ++ in_hand s ++ buffer s ++ late
     /\ (is_finished s = false -> late = []))
  /\ yielded s `prefix_of` arrivals evs
  /\ (is_completed s = false ->
      yielded (stream_run (replicate (length (in_hand s ++ buffer s)) Resumes) s)
      = arrivals evs)
  /\ (is_finished s = true ->
      is_completed s = true
      /\ in_hand s = []
      /\ forall more,
           yielded (stream_run more s) = yielded s
           /\ buffer (stream_run more s) = buffer s).
Proof.
  intros s. destruct (accounted_run evs) as [(late & Heq & Hlate) Hfin].
  fold s in Heq, Hlate, Hfin.
  split; [by exists late|]. split; [|split].
  - rewrite Heq. by apply prefix_app_r.
  - intros Hc.
    assert (is_finished s = false) as Hf.
    { destruct (is_finished s); [|done]. rewrite Hfin in Hc; done. }
    rewrite (drain s Hc Hf), Heq, (Hlate Hf). by rewrite app_nil_r.
  - intros Hf. split; [by apply Hfin|]. split.
    + unfold in_hand, is_finished in *. by destruct (position s).
    + intros more. by apply finished_run.
Qed.

(** Two records arrive, the consumer takes one; a third arrives and
    completion is seen before the consumer comes back: the second is still
    yielded, the third stays in [envs]. *)
Example refresh_leaves_late_record :
  let a := EnvironmentRecord python_a in
  let b := EnvironmentRecord python_b in
  let c := EnvironmentRecord resolved_venv in
  let s := stream_run
             [Arrives a; Arrives b; Resumes; Arrives c; Completes;
              Resumes; Resumes; Resumes] new_stream in
  yielded s = [a; b] /\ buffer s = [c] /\ is_finished s = true.
Proof. vm_compute. done. Qed.

(** * The directories of the settings *)

Lemma Set_values_spec seen l :
  NoDup (Set_values seen l)
  /\ forall x, x ∈ Set_values seen l <-> x ∈ l /\ x ∉ seen.
Proof.
  revert seen. induction l as [|a l IH]; intros seen; simpl.
  - split; [apply NoDup_nil_2|]. intros x. split; [intros Hx|intros [Hx _]];
      by apply elem_of_nil in Hx.
  - destruct (IH seen) as [Hnd Hin]. destruct (IH (a :: seen)) as [Hnd' Hin'].
    case_bool_decide as Ha.
    + split; [done|]. intros x. rewrite Hin, elem_of_cons. split; [tauto|].
      intros [[->|Hx] Hs]; [done | tauto].
    + split.
      * apply NoDup_cons. split; [|done]. rewrite Hin', elem_of_cons. tauto.
      * intros x. rewrite !elem_of_cons, Hin', elem_of_cons.
        destruct (decide (x = a)) as [->|Hne]; tauto.
Qed.

Lemma Set_values_sublist seen l : Set_values seen l `sublist_of` l.
Proof.
  revert seen. induction l as [|a l IH]; intros seen; simpl; [done|].
  case_bool_decide.
  - by apply sublist_cons.
  - by apply sublist_skip.
Qed.

Lemma Set_values_fresh seen l :
  NoDup l -> (forall x, x ∈ l -> x ∉ seen) -> Set_values seen l = l.
Proof.
  revert seen. induction l as [|a l IH]; intros seen Hnd Hfresh; simpl; [done|].
  apply NoDup_cons in Hnd as [Ha Hnd].
  case_bool_decide as Hs.
  - destruct (Hfresh a); [apply list_elem_of_here | done].
  - f_equal. apply IH; [done|]. intros x Hx. rewrite not_elem_of_cons. split.
    + intros ->. done.
    + apply Hfresh. by apply list_elem_of_further.
Qed.

(** The values come in the order in which they were first added: before
    the first occurrence of [d] the set holds what occurs before it. *)
Lemma Set_values_first seen before d after :
  d ∉ before -> d ∉ seen ->
  exists kept rest,
    Set_values seen (before ++ d :: after) = kept ++ (d :: rest)
    /\ forall x, x ∈ kept <-> x ∈ before /\ x ∉ seen.
Proof.
  revert seen. induction before as [|a before IH]; intros seen Hb Hs; simpl.
  - rewrite bool_decide_eq_false_2 by done. exists [], (Set_values (d :: seen) after).
    split; [done|]. intros x. split; [intros Hx|intros [Hx _]];
      by apply elem_of_nil in Hx.
  - apply not_elem_of_cons in Hb as [Hda Hb]. case_bool_decide as Ha.
    + destruct (IH seen Hb Hs) as (kept & rest & Heq & Hin).
      exists kept, rest. split; [done|]. intros x. rewrite Hin, elem_of_cons.
      split; [tauto|]. intros [[->|Hx] Hx']; [done | tauto].
    + destruct (IH (a :: seen) Hb) as (kept & rest & Heq & Hin).
      { rewrite not_elem_of_cons. tauto. }
      exists (a :: kept), rest. split; [by rewrite Heq|].
      intros x. rewrite !elem_of_cons, Hin, not_elem_of_cons.
      destruct (decide (x = a)) as [->|Hne]; tauto.
Qed.

Section SettingsProperties.
Context `{Host}.
Variable untildify : string -> string.

(** X15. getCustomVirtualEnvDirs returns no directory twice.  With a home
    directory it returns the venvPath setting, when that is set and not
    empty, and every folder of venvFolders joined to the home directory;
    without one it ignores venvFolders.  The directories come in the order
    of their first occurrence: before a directory stand exactly the
    directories that occur before its first occurrence. *)
Theorem getCustomVirtualEnvDirs_distinct
    (venvPathSetting : option string) (venvFoldersSetting : option (list string))
    (homeDir : option string) :
  let dirs := getCustomVirtualEnvDirs untildify venvPathSetting
                venvFoldersSetting homeDir in
  let fromPath :=
    match getPythonSettingAndUntildify untildify venvPathSetting with
    | Some p => if nonempty p then [untildify p] else []
    | None => []
    end in
  let fromFolders :=
    if truthy homeDir
    then List.map (path_join (default "" homeDir)) (default [] venvFoldersSetting)
    else [] in
  NoDup dirs
  /\ (forall d, d ∈ dirs <-> d ∈ fromPath ++ fromFolders)
  /\ dirs `sublist_of` fromPath ++ fromFolders
  /\ (NoDup (fromPath ++ fromFolders) -> dirs = fromPath ++ fromFolders)
  /\ (forall before d after,
        fromPath ++ fromFolders = before ++ (d :: after) ->
        d ∉ before ->
        exists kept rest,
          dirs = kept ++ (d :: rest)
          /\ forall x, x ∈ kept <-> x ∈ before).
Proof.
  intros dirs fromPath fromFolders.
  assert (dirs = Set_values [] (fromPath ++ fromFolders)) as ->.
  { subst dirs fromPath fromFolders. unfold getCustomVirtualEnvDirs.
    destruct (getPythonSettingAndUntildify untildify venvPathSetting) as [p|];
      simpl; destruct (truthy homeDir); try destruct (nonempty p);
      simpl; by rewrite ?app_nil_r. }
  destruct (Set_values_spec [] (fromPath ++ fromFolders)) as [Hnd Hin].
  split; [exact Hnd|]. split; [|split; [|split]].
  - intros d. rewrite Hin. split; [tauto|]. intros Hd. split; [done|].
    apply not_elem_of_nil.
  - apply Set_values_sublist.
  - intros Hall. apply Set_values_fresh; [done|]. intros x _. apply not_elem_of_nil.
  - intros before d after -> Hd.
    destruct (Set_values_first [] before d after Hd) as (kept & rest & Heq & Hk);
      [apply not_elem_of_nil|].
    exists kept, rest. split; [done|]. intros x. rewrite Hk. split; [tauto|].
    intros Hx. split; [done | apply not_elem_of_nil].
Qed.

End SettingsProperties.

(** * The collection through refreshes *)

Lemma consistent_trace_iff lines c : consistent (trace lines c) <-> consistent c.
Proof. done. Qed.

Lemma tidy_trace lines c : tidy c -> tidy (trace lines c).
Proof. done. Qed.

Section CollectionThroughRefresh.
Context `{Host}.

Lemma sound_trace lines c : sound c -> sound (trace lines c).
Proof. done. Qed.

Lemma sound_addEnv native c : sound c -> sound (addEnv native c).
Proof.
  intros [Hc Ht]. split; [by apply consistent_addEnv | by apply tidy_addEnv].
Qed.

Lemma sound_apply_op c op : sound c -> sound (apply_op c op).
Proof.
  intros [Hc Ht]. split; [by apply consistent_apply_op | by apply tidy_apply_op].
Qed.

Lemma sound_loop_body record d :
  sound (collection d) -> sound (collection (loop_body record d)).
Proof.
  intros Hd. unfold loop_body. destruct (isNativeInfoEnvironment record); [|done].
  simpl. destruct (validEnv _) as [[] lines]; simpl; [|by apply sound_trace].
  destruct (disposition _) as [[| |] lines']; simpl.
  - by apply sound_addEnv, sound_trace, sound_trace.
  - by apply sound_trace, sound_trace.
  - by apply sound_trace, sound_trace.
Qed.

Lemma sound_step d t :
  sound (collection d) -> sound (collection (task_step d t)).
Proof.
  intros Hd. destruct t as [| |record|ok|k reply|op]; simpl.
  - unfold triggerRefresh. simpl.
    destruct (refreshState d), (_refreshPromise d); simpl; by apply sound_trace.
  - unfold immediate. by destruct (immediates d).
  - destruct (iterating d); [done|]. by apply sound_loop_body.
  - unfold loop_done. destruct (iterating d); [done|]. simpl. by apply sound_trace.
  - unfold resolve_settled. destruct (resolving d !! k); [|done].
    destruct reply as [[env|]|]; simpl; [by apply sound_addEnv|done|done].
  - by apply sound_apply_op.
Qed.

Lemma sound_run ts d :
  sound (collection d) -> sound (collection (tasks_run ts d)).
Proof.
  revert d. induction ts as [|t ts IH]; intros d Hd; simpl; [done|].
  by apply IH, sound_step.
Qed.

(** X16. The collection stays in order through refreshes as well: whatever
    the callers, the refresh loop and the answers to its resolve calls do,
    in any order, executable paths are unique, the entry of a path is the
    record announced last for it, every event is a well-formed Created or
    Changed, and there are as many entries as Created events. *)
Theorem collection_in_order_through_refresh (ts : list Task) :
  let c := collection (tasks_run ts new_discovery) in
  NoDup (path_of <$> envs c)
  /\ (forall p, find (has_path p) (envs c) = most_recent (fired c) p)
  /\ Forall normalized (envs c)
  /\ Forall well_formed_event (fired c)
  /\ length (envs c) = length (List.filter is_created (fired c)).
Proof.
  intros c.
  destruct (sound_run ts new_discovery (conj consistent_new tidy_new))
    as [[Hnd Hrec] (Hn & He & Hl)].
  done.
Qed.

Lemma entries_addEnv native c item :
  item ∈ envs (addEnv native c) ->
  item ∈ envs c \/ (toPythonEnvInfo native).1 = Some item.
Proof.
  rewrite addEnv_unfold. destruct (toPythonEnvInfo native).1 as [made|]; [|by left].
  destruct (find _ (envs c)) as [old_item|].
  - rewrite envs_filter_push_changed, envs_trace, elem_of_app.
    intros [Hin|Hin].
    + left. by apply filter_other_path_elem in Hin as [? _].
    + apply list_elem_of_singleton in Hin. right. by subst.
  - rewrite envs_push_created, envs_trace, elem_of_app.
    intros [Hin|Hin]; [by left|].
    apply list_elem_of_singleton in Hin. right. by subst.
Qed.

Lemma entries_apply_op c op item :
  item ∈ envs (apply_op c op) ->
  item ∈ envs c
  \/ exists native, supplied_by (Call op) native
                    /\ (toPythonEnvInfo native).1 = Some item.
Proof.
  destruct op as [native|now envPath reply]; simpl.
  - intros Hin. apply entries_addEnv in Hin as [?|?]; [by left|]. right. eauto.
  - unfold resolveEnv_cached. destruct (cache_lookup _ _ _); [by left|].
    unfold resolveEnv. destruct envPath; [|by left].
    destruct reply as [[native|]|]; [|by left|by left].
    destruct (toPythonEnvInfo native) as [[made|] lines] eqn:E; simpl; [|by left].
    destruct (find _ _) as [old_item|]; simpl; [|by left].
    intros Hin.
    change (item ∈ envs (filter_push_changed old_item made (trace lines c))) in Hin.
    rewrite envs_filter_push_changed, envs_trace, elem_of_app in Hin.
    destruct Hin as [Hin|Hin].
    + left. by apply filter_other_path_elem in Hin as [? _].
    + apply list_elem_of_singleton in Hin. right. exists native.
      split; [done|]. rewrite E. simpl. by subst.
Qed.

Lemma entries_step d t item :
  item ∈ envs (collection (task_step d t)) ->
  item ∈ envs (collection d)
  \/ exists native, supplied_by t native /\ (toPythonEnvInfo native).1 = Some item.
Proof.
  destruct t as [| |record|ok|k reply|op]; simpl.
  - unfold triggerRefresh. simpl.
    destruct (refreshState d), (_refreshPromise d); simpl; by left.
  - unfold immediate. destruct (immediates d); by left.
  - destruct (iterating d); [by left|]. unfold loop_body.
    destruct (isNativeInfoEnvironment record) eqn:I; [|by left]. simpl.
    destruct (validEnv _) as [[] lines]; simpl; [|by left].
    destruct (disposition _) as [[| |] lines'] eqn:D; simpl; [|by left|by left].
    intros Hin. apply entries_addEnv in Hin as [?|?]; [by left|]. right.
    exists (as_NativeEnvInfo record). split; [|done].
    split; [done|]. split; [done|]. by rewrite D.
  - unfold loop_done. destruct (iterating d); by left.
  - unfold resolve_settled. destruct (resolving d !! k); [|by left].
    destruct reply as [[env|]|]; simpl; [|by left|by left].
    intros Hin. apply entries_addEnv in Hin as [?|?]; [by left|]. right. eauto.
  - apply entries_apply_op.
Qed.

Lemma entries_run ts d item :
  item ∈ envs (collection (tasks_run ts d)) ->
  item ∈ envs (collection d)
  \/ exists t native,
       t ∈ ts /\ supplied_by t native /\ (toPythonEnvInfo native).1 = Some item.
Proof.
  revert d. induction ts as [|t ts IH]; intros d; simpl; [by left|].
  intros Hin. destruct (IH _ Hin) as [Hd|(t' & native & Ht & Hby & Hitem)].
  - destruct (entries_step d t item Hd) as [?|(native & Hby & Hitem)]; [by left|].
    right. exists t, native. split; [apply list_elem_of_here | done].
  - right. exists t', native. split; [by apply list_elem_of_further | done].
Qed.

(** X17. Every entry of the collection is the normalization of a record
    that was handed to it: a record of the finder for which the refresh
    loop chose to add it as it is, the answer to a finder.resolve, or the
    argument of an addEnv or the answer behind a resolveEnv.  A record the
    loop sends to be resolved first, or fails to process, never becomes an
    entry by itself. *)
Theorem entries_come_from_supplied_records (ts : list Task) (item : PythonEnvInfo.t) :
  item ∈ envs (collection (tasks_run ts new_discovery)) ->
  exists t native,
    t ∈ ts /\ supplied_by t native /\ (toPythonEnvInfo native).1 = Some item.
Proof.
  intros Hin. destruct (entries_run ts new_discovery item Hin) as [Hnil|Hby]; [|done].
  by apply elem_of_nil in Hnil.
Qed.

End CollectionThroughRefresh.

(** * doRefresh after disposal *)

Lemma disposed_step r ev :
  disposed r = true ->
  disposed (refresh_step r ev) = true
  /\ discovered (refresh_step r ev) = discovered r
  /\ requests (refresh_step r ev) = requests r
  /\ pendingPromises (refresh_step r ev) = pendingPromises r.
Proof.
  intros D. destruct ev as [data|data|p reply|k| |]; simpl.
  - unfold on_environment. by rewrite D.
  - unfold on_manager. by rewrite D.
  - unfold settle. destruct (promises r !! p) as [[[|data] []]|]; try done.
    destruct reply; simpl; [|done]. unfold fire. simpl. by rewrite D.
  - unfold all_settled. destruct (waiting r !! k) as [[taken n]|]; [|done].
    destruct (forallb _ taken); [by destruct (Nat.eqb _ _)|].
    by destruct (existsb _ taken).
  - unfold timeout. by destruct (timers r).
  - unfold finally_dispose. by destruct (completed r).
Qed.

(** X18. Once the handlers of a doRefresh are disposed, nothing the worker
    sends has an effect on it: no record is handed on, no resolve request
    is sent and no promise is tracked, whatever notifications and answers
    arrive. *)
Theorem disposed_doRefresh_is_deaf (evs : list RefreshEvent) (r : RefreshRun) :
  disposed r = true ->
  disposed (refresh_run evs r) = true
  /\ discovered (refresh_run evs r) = discovered r
  /\ requests (refresh_run evs r) = requests r
  /\ pendingPromises (refresh_run evs r) = pendingPromises r.
Proof.
  revert r. induction evs as [|ev evs IH]; intros r D; simpl; [done|].
  destruct (disposed_step r ev D) as (D' & Hd & Hq & Hp).
  destruct (IH _ D') as (D'' & Hd' & Hq' & Hp').
  split; [done|]. split; [congruence|]. split; congruence.
Qed.

(** * The further properties at concrete inputs *)

Lemma addEnv_twice_same_list_witness :
  exists item,
    (toPythonEnvInfo (H:=posix) conda_foo).1 = Some item
    /\ fired (addEnv (H:=posix) conda_foo (addEnv (H:=posix) conda_foo new_collection))
       = fired (addEnv (H:=posix) conda_foo new_collection) ++ [changed item item].
Proof.
  eexists. split; [reflexivity|].
  apply (proj2 (addEnv_twice_same_list (H:=posix) conda_foo new_collection)).
  reflexivity.
Defined.

Lemma doRefresh_hands_on_worker_records_witness :
  let evs := [Environment unresolved_venv; Settle 1 (Returned resolved_venv)] in
  let r := refresh_run evs doRefresh in
  EnvironmentRecord resolved_venv ∈ discovered r
  /\ (exists ev, ev ∈ evs /\ handed_on_by ev (EnvironmentRecord resolved_venv))
  /\ ResolveRequest "/a/bin/python" ∈ requests r
  /\ (exists ev, ev ∈ evs /\ resolve_asked_by ev "/a/bin/python").
Proof.
  intros evs r.
  assert (Hrecord : EnvironmentRecord resolved_venv ∈ discovered r)
    by (vm_compute; apply list_elem_of_here).
  assert (Hrequest : ResolveRequest "/a/bin/python" ∈ requests r)
    by (vm_compute; apply list_elem_of_further, list_elem_of_here).
  destruct (doRefresh_hands_on_worker_records evs) as [Hd Hq].
  split; [exact Hrecord|]. split; [exact (Hd _ Hrecord)|].
  split; [exact Hrequest | exact (Hq _ Hrequest)].
Defined.

Lemma refresh_yields_arrivals_in_order_witness :
  let a := EnvironmentRecord python_a in
  let b := EnvironmentRecord python_b in
  let c := EnvironmentRecord resolved_venv in
  let running := stream_run [Arrives a; Resumes; Arrives b; Arrives c] new_stream in
  let s := stream_run [Completes; Resumes; Resumes] running in
  (is_completed running = false
   /\ yielded (stream_run [Resumes; Resumes] running) = [a; b; c])
  /\ (is_finished s = true
      /\ yielded s = [a]
      /\ buffer (stream_run [Arrives a; Resumes] s) = [b; c]
      /\ yielded (stream_run [Arrives a; Resumes] s) = [a]).
Proof.
  intros a b c running s.
  destruct (refresh_yields_arrivals_in_order
              [Arrives a; Resumes; Arrives b; Arrives c])
    as (_ & _ & Hdrain & _).
  destruct (refresh_yields_arrivals_in_order
              [Arrives a; Resumes; Arrives b; Arrives c;
               Completes; Resumes; Resumes])
    as (_ & _ & _ & Hfinished).
  destruct (Hfinished eq_refl) as (_ & _ & Hmore).
  destruct (Hmore [Arrives a; Resumes]) as [Hy Hb].
  split; [split; [reflexivity | exact (Hdrain eq_refl)]|].
  split; [reflexivity|]. split; [reflexivity|].
  split; [exact Hb | exact Hy].
Defined.

Lemma getCustomVirtualEnvDirs_distinct_witness :
  let plain := fun s : string => s in
  (NoDup ["/envs"; "/home/me/.venvs"; "/home/me/envs"]
   /\ getCustomVirtualEnvDirs (H:=posix) plain (Some "/envs")
        (Some [".venvs"; "envs"]) (Some "/home/me")
      = ["/envs"; "/home/me/.venvs"; "/home/me/envs"])
  /\ (("/home/y" ∉ ["/home/x"])
      /\ exists kept rest,
           getCustomVirtualEnvDirs (H:=posix) plain (Some "/home/x")
             (Some ["y"; "x"]) (Some "/home")
           = kept ++ ("/home/y" :: rest)
           /\ forall x, x ∈ kept <-> x ∈ ["/home/x"]).
Proof.
  intros plain.
  assert (Hnd : NoDup ["/envs"; "/home/me/.venvs"; "/home/me/envs"])
    by (apply (bool_decide_unpack _); vm_compute; exact I).
  assert (Hfirst : "/home/y" ∉ ["/home/x"])
    by (apply (bool_decide_unpack _); vm_compute; exact I).
  destruct (getCustomVirtualEnvDirs_distinct (H:=posix) plain (Some "/envs")
              (Some [".venvs"; "envs"]) (Some "/home/me")) as (_ & _ & _ & Heq & _).
  destruct (getCustomVirtualEnvDirs_distinct (H:=posix) plain (Some "/home/x")
              (Some ["y"; "x"]) (Some "/home")) as (_ & _ & _ & _ & Horder).
  split; [split; [exact Hnd | exact (Heq Hnd)]|].
  split; [exact Hfirst|].
  exact (Horder ["/home/x"] "/home/y" ["/home/x"] eq_refl Hfirst).
Defined.

Lemma entries_come_from_supplied_records_witness :
  let ts := [TriggerRefresh; Immediate; Yielded (EnvironmentRecord conda_foo)] in
  exists item,
    (toPythonEnvInfo (H:=posix) conda_foo).1 = Some item
    /\ item ∈ envs (collection (tasks_run (H:=posix) ts new_discovery))
    /\ exists t native,
         t ∈ ts /\ supplied_by (H:=posix) t native
         /\ (toPythonEnvInfo (H:=posix) native).1 = Some item.
Proof.
  intros ts. eexists. split; [reflexivity|].
  match goal with
  | |- ?P /\ _ => assert (Hin : P) by (vm_compute; apply list_elem_of_here)
  end.
  split; [exact Hin|].
  exact (entries_come_from_supplied_records (H:=posix) ts _ Hin).
Defined.

Lemma disposed_doRefresh_is_deaf_witness :
  let r := refresh_run [Settle 0 (Returned resolved_venv); AllSettled 0; Finally]
             doRefresh in
  disposed r = true
  /\ discovered (refresh_run [Environment resolved_venv; Environment unresolved_venv] r)
     = discovered r
  /\ requests (refresh_run [Environment resolved_venv; Environment unresolved_venv] r)
     = requests r.
Proof.
  intros r.
  destruct (disposed_doRefresh_is_deaf
              [Environment resolved_venv; Environment unresolved_venv] r eq_refl)
    as (_ & Hd & Hq & _).
  split; [reflexivity|]. split; [exact Hd | exact Hq].
Defined.
